(** * The blog application ([assets/js/app.js]) and its language manager
      ([assets/js/features/language.js]), embedded in Rocq.

    The JavaScript is embedded shallowly: strings are sequences of UTF-16
    code units, parsed JSON is an inductive type, the [Map] of loaded posts
    and [localStorage] are finite maps, and a method of the [Blog] object is
    a computation in a state-and-exception monad over the fields of the
    object together with the part of the browser the method touches. An
    [async] method is first run from its call to its return in one go;
    module [EventLoop] then runs the methods of navigation and rendering
    as the browser schedules them, a call stopping at each [await] of the
    network or of a timer. *)

From Stdlib Require Import ZArith NArith QArith_base String Ascii List Lia.
From Stdlib Require DecimalString.
From stdpp Require Import base option list gmap.

Local Open Scope N_scope.

(** ** Strings *)

(** A JavaScript string is a sequence of 16-bit code units. *)
Abbreviation jsstring := (list N).

Definition byte_codes (s : string) : list N :=
  map N_of_ascii (list_ascii_of_string s).

(** Source text is UTF-8; [lit] turns a literal of the source into the
    code units the engine holds for it. *)
Fixpoint utf8_code_points (bs : list N) : list N :=
  match bs with
  | [] => []
  | b0 :: r0 =>
    if b0 <? 0x80 then b0 :: utf8_code_points r0
    else
      match r0 with
      | [] => [0xFFFD]
      | b1 :: r1 =>
        if b0 <? 0xE0 then
          ((b0 - 0xC0) * 0x40 + (b1 - 0x80)) :: utf8_code_points r1
        else
          match r1 with
          | [] => [0xFFFD]
          | b2 :: r2 =>
            if b0 <? 0xF0 then
              ((b0 - 0xE0) * 0x1000 + (b1 - 0x80) * 0x40 + (b2 - 0x80))
                :: utf8_code_points r2
            else
              match r2 with
              | [] => [0xFFFD]
              | b3 :: r3 =>
                ((b0 - 0xF0) * 0x40000 + (b1 - 0x80) * 0x1000
                 + (b2 - 0x80) * 0x40 + (b3 - 0x80)) :: utf8_code_points r3
              end
          end
      end
  end.

Definition utf16_units (cp : N) : list N :=
  if cp <? 0x10000 then [cp]
  else [0xD800 + (cp - 0x10000) / 0x400; 0xDC00 + (cp - 0x10000) mod 0x400].

Definition lit (s : string) : jsstring :=
  flat_map utf16_units (utf8_code_points (byte_codes s)).

(** The double quote and the line feed, which a literal cannot hold. *)
Definition dq : string := String (ascii_of_nat 34) EmptyString.
Definition nl : string := String (ascii_of_nat 10) EmptyString.

(** [String(n)] for a non-negative integer [n]. *)
Definition decimal (n : N) : jsstring :=
  lit (DecimalString.NilZero.string_of_uint (N.to_uint n)).

(** [WhiteSpace] and [LineTerminator] of ECMAScript, the code units that
    [String.prototype.trim] strips. *)
Definition is_white_space (c : N) : bool :=
  (c =? 0x9) || (c =? 0xA) || (c =? 0xB) || (c =? 0xC) || (c =? 0xD)
  || (c =? 0x20) || (c =? 0xA0) || (c =? 0x1680)
  || ((0x2000 <=? c) && (c <=? 0x200A))
  || (c =? 0x2028) || (c =? 0x2029) || (c =? 0x202F) || (c =? 0x205F)
  || (c =? 0x3000) || (c =? 0xFEFF).

Fixpoint trimStart (s : jsstring) : jsstring :=
  match s with
  | [] => []
  | c :: r => if is_white_space c then trimStart r else s
  end.

Definition trim (s : jsstring) : jsstring :=
  rev (trimStart (rev (trimStart s))).

Fixpoint startsWith (s p : jsstring) {struct p} : bool :=
  match p, s with
  | [], _ => true
  | _ :: _, [] => false
  | a :: p', b :: s' => (a =? b) && startsWith s' p'
  end.

(** [s.includes(sub)] *)
Fixpoint includes (s sub : jsstring) : bool :=
  startsWith s sub ||
  match s with
  | [] => false
  | _ :: r => includes r sub
  end.

(** The empty string is the only falsy string. *)
Definition truthy_string (s : jsstring) : bool :=
  match s with [] => false | _ :: _ => true end.

(** ** Values, errors and the outcome of an evaluation *)

Record Error := mkError { message : jsstring }.

(** Errors the engine itself raises (reading a property of [null], calling
    what is not a function); the program never reads their wording. *)
Definition TypeError : Error := mkError (lit "TypeError").
Definition SyntaxError : Error := mkError (lit "SyntaxError").
Definition SecurityError : Error := mkError (lit "SecurityError").
Definition QuotaExceededError : Error := mkError (lit "QuotaExceededError").

Inductive Res (A : Type) : Type :=
| Ok (a : A)
| Throw (e : Error).
Arguments Ok {A} a.
Arguments Throw {A} e.

(** What [JSON.parse] and [response.json()] produce. *)
#[warnings="-register-all"]
Inductive json : Type :=
| JNull
| JBool (b : bool)
| JNum (n : Q)
| JStr (s : jsstring)
| JArr (items : list json)
| JObj (members : list (jsstring * json)).

Fixpoint lookup_member (name : jsstring) (ms : list (jsstring * json)) : option json :=
  match ms with
  | [] => None
  | (k, v) :: r => if bool_decide (k = name) then Some v else lookup_member name r
  end.

(** [v.name] for the member names the program reads ([title], [excerpt],
    [tags], [slug], [preview]), none of which is a built-in property of a
    string, a number, a boolean or an array: [None] is [undefined]. *)
Definition get_member (name : jsstring) (v : json) : Res (option json) :=
  match v with
  | JNull => Throw TypeError
  | JObj ms => Ok (lookup_member name ms)
  | _ => Ok None
  end.

(** [member === slug], for a member that may be [undefined] and a slug
    that is a string or [null]. *)
Definition strict_eq (member : option json) (slug : option jsstring) : bool :=
  match member, slug with
  | Some (JStr s), Some s' => bool_decide (s = s')
  | Some JNull, None => true
  | _, _ => false
  end.

(** Truthiness of a value that may be [undefined]. *)
Definition truthy (v : option json) : bool :=
  match v with
  | None | Some JNull => false
  | Some (JBool b) => b
  | Some (JNum n) => negb (Qnum n =? 0)%Z
  | Some (JStr s) => truthy_string s
  | Some (JArr _) | Some (JObj _) => true
  end.

#[global] Instance Res_ret : MRet Res := λ A a, Ok a.
#[global] Instance Res_bind : MBind Res := λ A B k r,
  match r with
  | Ok a => k a
  | Throw e => Throw e
  end.

(** A slug is a string or [null] ([None]); in a template literal [null]
    reads as the text [null]. *)
Definition slug_text (slug : option jsstring) : jsstring :=
  match slug with
  | Some s => s
  | None => lit "null"
  end.

(** ** Configuration constants *)

Module CONFIG.
Definition DEBOUNCE_DELAY : Z := 300.
Definition WORDS_PER_MINUTE : N := 200.
Definition CACHE_DURATION : Z := 3600000.
Definition MAX_RETRIES : nat := 3.
Definition RETRY_DELAY_BASE : Z := 1000.
End CONFIG.

(** ** The state *)

(** What [fetch] settles to: a rejection, or a response with its status
    and what its [text()] and [json()] settle to. *)
Inductive FetchResult :=
| Rejected (e : Error)
| Response (status : N) (text : Res jsstring) (parsed : Res json).

(** [response.ok] *)
Definition status_ok (status : N) : bool := (200 <=? status) && (status <=? 299).

(** What is held under a key of [localStorage], as [JSON.parse], the
    destructuring [{ data, timestamp }] and the subtraction
    [Date.now() - timestamp] see it: the entry [saveToCache] wrote, with a
    string for its data and an integer for its timestamp; text on which
    the parse or the destructuring throws (text that is no JSON, or the
    JSON [null]); or text that parses to a value whose timestamp gives
    [NaN] in the subtraction, because the member is missing, as in [{}],
    [5] or [[]], or holds what converts to no number. *)
Inductive StoredItem :=
| Entry (data : jsstring) (timestamp : Z)
| Unparsable
| Undated.

(** A state object of the session history. *)
Record NavState := mkNav { nav_view : jsstring; nav_slug : option jsstring }.

(** What a render function hands to the page: the template it chose and
    the data the template is filled with (the markup itself is not
    modelled). *)
Inductive Content :=
| Blank
| PostsList (posts : list json)
| PostNotFound
| PostView (post : json) (body : option jsstring)
| SearchPage
| ContactsPage.

Inductive Event :=
| EvFetch (url : jsstring)
| EvSleep (ms : Z)
| EvGetItem (key : jsstring)
| EvSetItem (key : jsstring)
| EvRemoveItem (key : jsstring)
| EvPushState (state : NavState) (url : jsstring).

Record St := mkSt {
  (* fields of the Blog object *)
  posts : list json;
  allPosts : json;
  currentView : jsstring;
  currentSlug : option jsstring;
  loadedPosts : gmap (option jsstring) jsstring;
  (* the browser *)
  localStorage : gmap jsstring StoredItem;
  storageDenied : bool;          (* every access to localStorage throws *)
  storageFull : bool;            (* setItem throws *)
  now : Z;                       (* Date.now() *)
  network : nat -> jsstring -> FetchResult;  (* n-th fetch of the session *)
  fetches : nat;
  marked : option (jsstring -> Res jsstring);  (* the global, when defined *)
  history : list (option NavState);
  historyIndex : nat;
  appHtml : Content;
  loadingHidden : bool;
  events : list Event
}.

Definition set_posts v st := mkSt v (allPosts st) (currentView st) (currentSlug st) (loadedPosts st) (localStorage st) (storageDenied st) (storageFull st) (now st) (network st) (fetches st) (marked st) (history st) (historyIndex st) (appHtml st) (loadingHidden st) (events st).
Definition set_allPosts v st := mkSt (posts st) v (currentView st) (currentSlug st) (loadedPosts st) (localStorage st) (storageDenied st) (storageFull st) (now st) (network st) (fetches st) (marked st) (history st) (historyIndex st) (appHtml st) (loadingHidden st) (events st).
Definition set_currentView v st := mkSt (posts st) (allPosts st) v (currentSlug st) (loadedPosts st) (localStorage st) (storageDenied st) (storageFull st) (now st) (network st) (fetches st) (marked st) (history st) (historyIndex st) (appHtml st) (loadingHidden st) (events st).
Definition set_currentSlug v st := mkSt (posts st) (allPosts st) (currentView st) v (loadedPosts st) (localStorage st) (storageDenied st) (storageFull st) (now st) (network st) (fetches st) (marked st) (history st) (historyIndex st) (appHtml st) (loadingHidden st) (events st).
Definition set_loadedPosts v st := mkSt (posts st) (allPosts st) (currentView st) (currentSlug st) v (localStorage st) (storageDenied st) (storageFull st) (now st) (network st) (fetches st) (marked st) (history st) (historyIndex st) (appHtml st) (loadingHidden st) (events st).
Definition set_localStorage v st := mkSt (posts st) (allPosts st) (currentView st) (currentSlug st) (loadedPosts st) v (storageDenied st) (storageFull st) (now st) (network st) (fetches st) (marked st) (history st) (historyIndex st) (appHtml st) (loadingHidden st) (events st).
Definition set_now v st := mkSt (posts st) (allPosts st) (currentView st) (currentSlug st) (loadedPosts st) (localStorage st) (storageDenied st) (storageFull st) v (network st) (fetches st) (marked st) (history st) (historyIndex st) (appHtml st) (loadingHidden st) (events st).
Definition set_fetches v st := mkSt (posts st) (allPosts st) (currentView st) (currentSlug st) (loadedPosts st) (localStorage st) (storageDenied st) (storageFull st) (now st) (network st) v (marked st) (history st) (historyIndex st) (appHtml st) (loadingHidden st) (events st).
Definition set_history v st := mkSt (posts st) (allPosts st) (currentView st) (currentSlug st) (loadedPosts st) (localStorage st) (storageDenied st) (storageFull st) (now st) (network st) (fetches st) (marked st) v (historyIndex st) (appHtml st) (loadingHidden st) (events st).
Definition set_historyIndex v st := mkSt (posts st) (allPosts st) (currentView st) (currentSlug st) (loadedPosts st) (localStorage st) (storageDenied st) (storageFull st) (now st) (network st) (fetches st) (marked st) (history st) v (appHtml st) (loadingHidden st) (events st).
Definition set_appHtml v st := mkSt (posts st) (allPosts st) (currentView st) (currentSlug st) (loadedPosts st) (localStorage st) (storageDenied st) (storageFull st) (now st) (network st) (fetches st) (marked st) (history st) (historyIndex st) v (loadingHidden st) (events st).
Definition set_loadingHidden v st := mkSt (posts st) (allPosts st) (currentView st) (currentSlug st) (loadedPosts st) (localStorage st) (storageDenied st) (storageFull st) (now st) (network st) (fetches st) (marked st) (history st) (historyIndex st) (appHtml st) v (events st).
Definition set_events v st := mkSt (posts st) (allPosts st) (currentView st) (currentSlug st) (loadedPosts st) (localStorage st) (storageDenied st) (storageFull st) (now st) (network st) (fetches st) (marked st) (history st) (historyIndex st) (appHtml st) (loadingHidden st) v.

(** ** The monad of methods *)

(** A method runs from a state to an outcome and a state; what it did to
    the state before it threw stays done. *)
Definition Js (A : Type) : Type := St -> Res A * St.

#[global] Instance Js_ret : MRet Js := λ A a st, (Ok a, st).
#[global] Instance Js_bind : MBind Js := λ A B k m st,
  match m st with
  | (Ok a, st') => k a st'
  | (Throw e, st') => (Throw e, st')
  end.

Definition throw {A} (e : Error) : Js A := λ st, (Throw e, st).

(** [try { body } catch (error) { handler }] *)
Definition try_catch {A} (body : Js A) (handler : Error -> Js A) : Js A := λ st,
  match body st with
  | (Ok a, st') => (Ok a, st')
  | (Throw e, st') => handler e st'
  end.

Definition gets {A} (f : St -> A) : Js A := λ st, (Ok (f st), st).
Definition modify (f : St -> St) : Js unit := λ st, (Ok tt, f st).
Definition lift {A} (r : Res A) : Js A := λ st, (r, st).
Definition emit (e : Event) : Js unit := modify (λ st, set_events (events st ++ [e]) st).

(** ** The browser *)

(** [Date.now()] *)
Definition Date_now : Js Z := gets now.

(** [await new Promise(r => setTimeout(r, ms))] *)
Definition sleep (ms : Z) : Js unit :=
  emit (EvSleep ms);;
  modify (λ st, set_now (now st + ms)%Z st).

(** What [await fetch(url)] gives when it does not reject. *)
Record FetchResponse := mkResponse {
  status : N;
  text : Res jsstring;    (* await response.text() *)
  parsed : Res json       (* await response.json() *)
}.

Definition fetch (url : jsstring) : Js FetchResponse :=
  emit (EvFetch url);;
  n ← gets fetches;
  modify (set_fetches (S n));;
  net ← gets network;
  match net n url with
  | Rejected e => throw e
  | Response s t j => mret (mkResponse s t j)
  end.

Definition localStorage_getItem (key : jsstring) : Js (option StoredItem) :=
  denied ← gets storageDenied;
  if denied : bool then throw SecurityError else
  emit (EvGetItem key);;
  store ← gets localStorage;
  mret (store !! key).

Definition localStorage_removeItem (key : jsstring) : Js unit :=
  denied ← gets storageDenied;
  if denied : bool then throw SecurityError else
  emit (EvRemoveItem key);;
  modify (λ st, set_localStorage (delete key (localStorage st)) st).

Definition localStorage_setItem (key : jsstring) (item : StoredItem) : Js unit :=
  denied ← gets storageDenied;
  if denied : bool then throw SecurityError else
  full ← gets storageFull;
  if full : bool then throw QuotaExceededError else
  emit (EvSetItem key);;
  modify (λ st, set_localStorage (<[key := item]> (localStorage st)) st).

(** [const { data, timestamp } = JSON.parse(cached)]; a timestamp that
    gives no number is [None], and the data that comes with it, which is
    never returned, is left out. *)
Definition JSON_parse_entry (item : StoredItem) : Js (option jsstring * option Z) :=
  match item with
  | Entry data timestamp => mret (Some data, Some timestamp)
  | Unparsable => throw SyntaxError
  | Undated => mret (None, None)
  end.

(** [t - timestamp]: [NaN], here [None], when the timestamp is no number. *)
Definition subtract (t : Z) (timestamp : option Z) : option Z :=
  match timestamp with
  | Some ts => Some (t - ts)%Z
  | None => None
  end.

(** [age < limit], which is false when the age is [NaN]. *)
Definition less_than (age : option Z) (limit : Z) : bool :=
  match age with
  | Some a => (a <? limit)%Z
  | None => false
  end.

(** [history.pushState(state, '', url)]: the entries after the current one
    are dropped and the new entry becomes the current one. *)
Definition history_pushState (state : NavState) (url : jsstring) : Js unit :=
  emit (EvPushState state url);;
  modify (λ st,
    set_historyIndex (S (historyIndex st))
      (set_history (take (S (historyIndex st)) (history st) ++ [Some state]) st)).

(** An exception that escapes an event listener is reported to the
    window's error listener and goes no further. *)
Definition dispatch (listener : Js unit) : Js unit :=
  try_catch listener (λ error, mret tt).

(** An exception inside an [async] function whose promise nobody awaits
    rejects that promise and goes no further. *)
Definition detached (body : Js unit) : Js unit :=
  try_catch body (λ error, mret tt).

(** ** Loading a post *)

Definition cache_key (slug : option jsstring) : jsstring :=
  lit "blog_post_" ++ slug_text slug.

Definition getFromCache (slug : option jsstring) : Js (option jsstring) :=
  try_catch
    (let key := cache_key slug in
     cached ← localStorage_getItem key;
     match cached with
     | None => mret None
     | Some item =>
       '(data, timestamp) ← JSON_parse_entry item;
       t ← Date_now;
       let age := subtract t timestamp in
       if less_than age CONFIG.CACHE_DURATION then mret data
       else
         (* Cache expired *)
         localStorage_removeItem key;;
         mret None
     end)
    (λ error, mret None).

Definition saveToCache (slug : option jsstring) (data : jsstring) : Js unit :=
  try_catch
    (let key := cache_key slug in
     t ← Date_now;
     localStorage_setItem key (Entry data t))
    (λ error, mret tt).

(** The markup [loadPost] returns when the last attempt has failed. *)
Definition errorFragment_head : jsstring :=
  lit (nl ++
"                        <div class=" ++ dq ++ "error-state" ++ dq ++ ">" ++ nl ++
"                            <h2>😔 Пост не найден</h2>" ++ nl ++
"                            <p>К сожалению, этот пост недоступен.</p>" ++ nl ++
"                            <p style=" ++ dq ++ "font-size: 0.875rem; color: var(--text-tertiary); margin-top: 1rem;" ++ dq ++ ">" ++ nl ++
"                                Ошибка: ")%string.

(** The control that leads back to the listing. *)
Definition backControl : jsstring :=
  lit ("<a href=" ++ dq ++ "#" ++ dq ++ " class=" ++ dq ++ "back-button" ++ dq ++ ">Вернуться к постам</a>")%string.

Definition errorFragment_mid : jsstring :=
  lit (nl ++
"                            </p>" ++ nl ++
"                            ")%string.

Definition errorFragment_tail : jsstring :=
  lit (nl ++
"                        </div>" ++ nl ++
"                    ")%string.

Definition errorFragment (msg : jsstring) : jsstring :=
  errorFragment_head ++ msg ++ errorFragment_mid ++ backControl ++ errorFragment_tail.

(** Which [return] of [loadPost] produced the string: the post's markup, or
    the error fragment built around the caught error's message. *)
Inductive LoadResult :=
| Html (html : jsstring)
| ErrorState (msg : jsstring).

(** The string the caller receives. *)
Definition returned (r : LoadResult) : jsstring :=
  match r with
  | Html html => html
  | ErrorState msg => errorFragment msg
  end.

Definition post_url (slug : option jsstring) : jsstring :=
  lit "posts/" ++ slug_text slug ++ lit ".md".

(** One pass through the body of the [try] of [loadPost]. *)
Definition attempt (slug : option jsstring) : Js (option LoadResult) :=
  response ← fetch (post_url slug);
  if negb (status_ok (status response)) then
    throw (mkError (lit "HTTP " ++ decimal (status response)))
  else
  markdown ← lift (text response);
  (* Check if marked is available *)
  m ← gets marked;
  match m with
  | None => throw (mkError (lit "Markdown парсер не загружен"))
  | Some marked_parse =>
    html ← lift (marked_parse markdown);
    (* Cache the result (memory + localStorage) *)
    modify (λ st, set_loadedPosts (<[slug := html]> (loadedPosts st)) st);;
    saveToCache slug html;;
    mret (Some (Html html))
  end.

(** The [for] loop of [loadPost] from index [i] on; [fuel] bounds the
    passes and [loadPost] gives it [retries], which is as many as the loop
    can make. [None] is [undefined], what falls off the end of the loop. *)
Fixpoint retry_loop (fuel : nat) (slug : option jsstring) (retries i : nat)
  : Js (option LoadResult) :=
  match fuel with
  | O => mret None
  | S fuel' =>
    if negb (i <? retries)%nat then mret None else
    try_catch (attempt slug)
      (λ error,
        let isLastAttempt := (i =? retries - 1)%nat in
        if isLastAttempt then mret (Some (ErrorState (message error)))
        else
          let delay := (CONFIG.RETRY_DELAY_BASE * Z.of_nat (i + 1))%Z in
          sleep delay;;
          retry_loop fuel' slug retries (i + 1)%nat)
  end.

Definition loadPost (slug : option jsstring) (retries : nat) : Js (option LoadResult) :=
  (* Check cache first (memory) *)
  memory ← gets loadedPosts;
  match memory !! slug with
  | Some html => mret (Some (Html html))
  | None =>
    (* Check localStorage cache *)
    cached ← getFromCache slug;
    match cached with
    | Some data =>
      if truthy_string data then
        modify (λ st, set_loadedPosts (<[slug := data]> (loadedPosts st)) st);;
        mret (Some (Html data))
      else retry_loop retries slug retries 0
    | None => retry_loop retries slug retries 0
    end
  end.

(** *** States that the operations lead to *)

(** The state after an event has been recorded, after a fetch has settled,
    after a suspension, after a write to each cache. *)
Definition logged (e : Event) (st : St) : St := set_events (events st ++ [e]) st.

Definition fetched (url : jsstring) (st : St) : St :=
  set_fetches (S (fetches st)) (logged (EvFetch url) st).

Definition slept (ms : Z) (st : St) : St :=
  set_now (now st + ms)%Z (logged (EvSleep ms) st).

Definition remembered (slug : option jsstring) (html : jsstring) (st : St) : St :=
  set_loadedPosts (<[slug := html]> (loadedPosts st)) st.

Definition stored (slug : option jsstring) (data : jsstring) (st : St) : St :=
  if storageDenied st || storageFull st then st
  else set_localStorage (<[cache_key slug := Entry data (now st)]> (localStorage st))
         (logged (EvSetItem (cache_key slug)) st).

(** What one attempt ends with, given what the network answers to its
    fetch: the markup, or the error its [catch] receives. *)
Definition attempt_outcome (st : St) (answer : FetchResult) : Res jsstring :=
  match answer with
  | Rejected e => Throw e
  | Response s t _ =>
    if status_ok s then
      match t with
      | Throw e => Throw e
      | Ok markdown =>
        match marked st with
        | None => Throw (mkError (lit "Markdown парсер не загружен"))
        | Some marked_parse => marked_parse markdown
        end
      end
    else Throw (mkError (lit "HTTP " ++ decimal s))
  end.

(** A fetch that fails: it rejects, or its response has no success status. *)
Definition fetch_fails (answer : FetchResult) : Prop :=
  match answer with
  | Rejected _ => True
  | Response s _ _ => status_ok s = false
  end.

(** The events of [n] failed attempts in a row, the first with index [i]
    and the last one the last of the loop. *)
Fixpoint backoff_trace (url : jsstring) (i n : nat) : list Event :=
  match n with
  | O => []
  | S n' =>
    match n' with
    | O => [EvFetch url]
    | S _ =>
      EvFetch url :: EvSleep (CONFIG.RETRY_DELAY_BASE * Z.of_nat (i + 1))
        :: backoff_trace url (i + 1) n'
    end
  end.

Definition sleeps (l : list Event) : list Z :=
  omap (λ e, match e with EvSleep ms => Some ms | _ => None end) l.

Definition fetch_urls (l : list Event) : list jsstring :=
  omap (λ e, match e with EvFetch u => Some u | _ => None end) l.

Definition pushes (l : list Event) : list NavState :=
  omap (λ e, match e with EvPushState s _ => Some s | _ => None end) l.

(** The events a method added to the record. *)
Definition new_events (before after : St) : list Event :=
  drop (length (events before)) (events after).

(** ** Search *)

Section Search.
(** [String.prototype.toLowerCase], which the engine supplies. *)
Variable toLowerCase : jsstring -> jsstring.

(** [v.toLowerCase()] for a value read from a post: anything but a
    string has no such method. *)
Definition call_toLowerCase (v : option json) : Res jsstring :=
  match v with
  | Some (JStr s) => Ok (toLowerCase s)
  | _ => Throw TypeError
  end.

(** [tags.some(tag => tag.toLowerCase().includes(lowerQuery))] *)
Fixpoint some_tag (lowerQuery : jsstring) (tags : list json) : Res bool :=
  match tags with
  | [] => Ok false
  | tag :: rest =>
    t ← call_toLowerCase (Some tag);
    if includes t lowerQuery then Ok true else some_tag lowerQuery rest
  end.

(** [post.tags && post.tags.some(...)], as the filter reads it. *)
Definition tags_match (lowerQuery : jsstring) (tags : option json) : Res bool :=
  if truthy tags then
    match tags with
    | Some (JArr items) => some_tag lowerQuery items
    | _ => Throw TypeError
    end
  else Ok false.

(** The callback of the filter. *)
Definition matches (lowerQuery : jsstring) (post : json) : Res bool :=
  title ← get_member (lit "title") post;
  t ← call_toLowerCase title;
  if includes t lowerQuery then Ok true else
  excerpt ← get_member (lit "excerpt") post;
  e ← call_toLowerCase excerpt;
  if includes e lowerQuery then Ok true else
  tags ← get_member (lit "tags") post;
  tags_match lowerQuery tags.

(** [items.filter(callback)] *)
Fixpoint Array_filter (callback : json -> Res bool) (items : list json) : Res (list json) :=
  match items with
  | [] => Ok []
  | x :: rest =>
    keep ← callback x;
    rest' ← Array_filter callback rest;
    Ok (if keep : bool then x :: rest' else rest')
  end.

(** [performSearch(query)], with [this.allPosts] as first argument. *)
Definition performSearch (allPosts : json) (query : jsstring) : Res json :=
  if negb (truthy_string (trim query)) then Ok allPosts
  else
    let lowerQuery := toLowerCase query in
    match allPosts with
    | JArr items =>
      found ← Array_filter (matches lowerQuery) items;
      Ok (JArr found)
    | _ => Throw TypeError
    end.

(** *** What the specification says of a search *)

(** [sub] occurs in [s]. *)
Definition substring (sub s : jsstring) : Prop :=
  ∃ pre post, s = pre ++ sub ++ post.

(** Containment regardless of case. *)
Definition contains_ci (s query : jsstring) : Prop :=
  substring (toLowerCase query) (toLowerCase s).

(** A post summary as the index holds it: an object whose title and
    excerpt are strings and whose tags, when there are any, are an array
    of strings. *)
Definition is_string (v : json) : Prop := ∃ s, v = JStr s.

Definition summary (p : json) : Prop :=
  ∃ ms title excerpt,
    p = JObj ms
    ∧ lookup_member (lit "title") ms = Some (JStr title)
    ∧ lookup_member (lit "excerpt") ms = Some (JStr excerpt)
    ∧ (lookup_member (lit "tags") ms = None
       ∨ ∃ tags, lookup_member (lit "tags") ms = Some (JArr tags) ∧ Forall is_string tags).

Definition member (name : string) (p : json) : option json :=
  match p with
  | JObj ms => lookup_member (lit name) ms
  | _ => None
  end.

(** The title, the excerpt or some tag of the summary contains the query. *)
Definition selected (query : jsstring) (p : json) : Prop :=
  (∃ title, member "title" p = Some (JStr title) ∧ contains_ci title query)
  ∨ (∃ excerpt, member "excerpt" p = Some (JStr excerpt) ∧ contains_ci excerpt query)
  ∨ (∃ tags tag, member "tags" p = Some (JArr tags) ∧ In (JStr tag) tags
                 ∧ contains_ci tag query).

(** The same without the tags. *)
Definition selected_without_tags (query : jsstring) (p : json) : Prop :=
  (∃ title, member "title" p = Some (JStr title) ∧ contains_ci title query)
  ∨ (∃ excerpt, member "excerpt" p = Some (JStr excerpt) ∧ contains_ci excerpt query).
End Search.

(** Lower case of the letters A to Z, on which every [toLowerCase] agrees. *)
Definition ascii_lower (c : N) : N :=
  if (0x41 <=? c) && (c <=? 0x5A) then c + 0x20 else c.

Definition is_ascii (s : jsstring) : Prop := Forall (λ c, c < 0x80) s.

(** The slugs of an array of summaries. *)
Definition slugs (v : json) : list (option json) :=
  match v with
  | JArr items => map (member "slug") items
  | _ => []
  end.

(** ** Loading the index *)

Definition is_high_surrogate (c : N) : bool := (0xD800 <=? c) && (c <=? 0xDBFF).
Definition is_low_surrogate (c : N) : bool := (0xDC00 <=? c) && (c <=? 0xDFFF).

(** The strings a string iterates over: one per code point. *)
Fixpoint string_iterator (s : jsstring) : list jsstring :=
  match s with
  | [] => []
  | c :: r =>
    match r with
    | d :: r' =>
      if is_high_surrogate c && is_low_surrogate d
      then [c; d] :: string_iterator r'
      else [c] :: string_iterator r
    | [] => [[c]]
    end
  end.

(** [[...v]]: arrays and strings are the iterable values of JSON. *)
Definition spread (v : json) : Res (list json) :=
  match v with
  | JArr items => Ok items
  | JStr s => Ok (map JStr (string_iterator s))
  | _ => Throw TypeError
  end.

Definition index_url : jsstring := lit "posts/index.json".

Section Index.
(** [posts.sort((a, b) => new Date(b.date) - new Date(a.date))], which
    the engine supplies; the comparison throws on a [null] post. *)
Variable sort_newest_first : list json -> Res (list json).

Definition loadPosts : Js unit :=
  try_catch
    (response ← fetch index_url;
     if negb (status_ok (status response)) then
       throw (mkError (lit "Не удалось загрузить список постов"))
     else
     all ← lift (parsed response);
     modify (set_allPosts all);;
     copy ← lift (spread all);   (* Copy for filtering *)
     modify (set_posts copy);;
     (* Sort by date (newest first) *)
     sorted ← lift (sort_newest_first copy);
     modify (set_posts sorted))
    (λ error,
      modify (set_posts []);;
      modify (set_allPosts (JArr []))).

(** The load of the index fails: the fetch rejects, the status is not a
    success, the body is not JSON, or the JSON cannot be iterated. *)
Definition index_load_fails (answer : FetchResult) : Prop :=
  match answer with
  | Rejected _ => True
  | Response s _ j =>
    status_ok s = false
    ∨ (∃ e, j = Throw e)
    ∨ (∃ v e, j = Ok v ∧ spread v = Throw e)
  end.
End Index.

(** ** Navigation and rendering *)

Definition showLoading : Js unit := modify (set_loadingHidden false).
Definition hideLoading : Js unit := modify (set_loadingHidden true).

(** The template of a card reads members of its post, which throws on a
    [null] post. *)
Fixpoint read_cards (items : list json) : Res unit :=
  match items with
  | [] => Ok tt
  | post :: rest => get_member (lit "preview") post ≫= λ _, read_cards rest
  end.

Definition renderPostsList : Js Content :=
  ps ← gets posts;
  lift (read_cards ps);;
  mret (PostsList ps).

(** [items.find(p => p.slug === slug)] *)
Fixpoint find_post (slug : option jsstring) (items : list json) : Res (option json) :=
  match items with
  | [] => Ok None
  | p :: rest =>
    s ← get_member (lit "slug") p;
    if strict_eq s slug then Ok (Some p) else find_post slug rest
  end.

(** [this.allPosts.find(...)]: only an array has [find]. *)
Definition find_in (slug : option jsstring) (all : json) : Res (option json) :=
  match all with
  | JArr items => find_post slug items
  | _ => Throw TypeError
  end.

Definition renderPost (slug : option jsstring) : Js Content :=
  ps ← gets posts;
  first ← lift (find_post slug ps);
  post ← match first with
         | Some p => mret (Some p)
         | None => all ← gets allPosts; lift (find_in slug all)
         end;
  match post with
  | None => mret PostNotFound
  | Some p =>
    content ← loadPost slug CONFIG.MAX_RETRIES;
    mret (PostView p (returned <$> content))
  end.

(** The [switch] of [render] on the current view. *)
Definition view_content : Js Content :=
  view ← gets currentView;
  if bool_decide (view = lit "home") then renderPostsList
  else if bool_decide (view = lit "post") then
    slug ← gets currentSlug;
    renderPost slug
  else if bool_decide (view = lit "search") then mret SearchPage
  else if bool_decide (view = lit "contacts") then mret ContactsPage
  else renderPostsList.

(** [render()]: an [async] method that no caller awaits; its parameter
    [animate] is never read. Here the call runs in one go, up to and with
    the callback that hands the content to the page's container, as it
    does when nothing else runs before the next animation frame; module
    [EventLoop] has the call as the browser schedules it. *)
Definition render : Js unit :=
  detached
    (showLoading;;
     content ← view_content;
     modify (set_appHtml content);;
     hideLoading).

(** Truthiness of a slug. *)
Definition truthy_slug (slug : option jsstring) : bool :=
  match slug with
  | Some s => truthy_string s
  | None => false
  end.

(** [updatePageMeta()]: the document's metadata is no part of the state;
    what is kept is the lookup of the current post, which can throw. *)
Definition updatePageMeta : Js unit :=
  view ← gets currentView;
  slug ← gets currentSlug;
  if bool_decide (view = lit "post") && truthy_slug slug then
    ps ← gets posts;
    lift (find_post slug ps);;     (* updatePageMeta *)
    lift (find_post slug ps);;     (* updateStructuredData *)
    mret tt
  else mret tt.

Definition navigateTo (view : jsstring) (slug : option jsstring) (pushState : bool) : Js unit :=
  modify (set_currentView view);;
  modify (set_currentSlug slug);;
  (* Update URL *)
  (if pushState then
     let url :=
       if truthy_slug slug then lit "#" ++ slug_text slug
       else if bool_decide (view = lit "home") then lit "#"
       else lit "#" ++ view in
     history_pushState (mkNav view slug) url
   else mret tt);;
  (* Update page metadata *)
  updatePageMeta;;
  render.

(** The listener of [popstate], given [e.state] ([None] is [null]). *)
Definition onPopState (state : option NavState) : Js unit :=
  match state with
  | Some s =>
    modify (set_currentView (nav_view s));;
    modify (set_currentSlug (nav_slug s));;
    render;;
    updatePageMeta
  | None => mret tt
  end.

(** The browser's back button: the previous entry becomes the current one
    and [popstate] is dispatched with its state. *)
Definition history_back : Js unit :=
  i ← gets historyIndex;
  match i with
  | O => mret tt
  | S j =>
    modify (set_historyIndex j);;
    h ← gets history;
    dispatch (onPopState (default None (h !! j)))
  end.

(** ** The search page *)

Module SearchPage.

Inductive Display :=
| Hint
| NothingFound
| Results (posts : list json).

(** The input, the variable [searchTimeout] of [setupSearchPage] (the
    time at which the pending timer fires, when one is pending), what
    the results container shows, and a record of the calls of
    [displayResults]: when, and with which query. *)
Record Page := mkPage {
  clock : Z;
  inputValue : jsstring;
  searchTimeout : option Z;
  searchResults : Display;
  evaluations : list (Z * jsstring)
}.

Inductive UserEvent :=
| Input (t : Z) (value : jsstring)     (* the user edits the input *)
| KeyEscape (t : Z).                    (* keydown with key Escape *)

Definition time_of (e : UserEvent) : Z :=
  match e with
  | Input t _ => t
  | KeyEscape t => t
  end.

Section WithBlog.
Variable toLowerCase : jsstring -> jsstring.
Variable allPosts : json.    (* this.allPosts *)

Definition displayResults (query : jsstring) (p : Page) : Page :=
  let p := mkPage (clock p) (inputValue p) (searchTimeout p) (searchResults p)
             (evaluations p ++ [(clock p, query)]) in
  match performSearch toLowerCase allPosts query with
  | Throw _ => p
  | Ok results =>
    let show d := mkPage (clock p) (inputValue p) (searchTimeout p) d (evaluations p) in
    if negb (truthy_string (trim query)) then show Hint
    else
      match results with
      | JArr [] => show NothingFound
      | JArr found => show (Results found)
      | _ => p     (* a search for such a query that returns, returns an array *)
      end
  end.

(** The pending timer fires when its time has come, no later than [t]:
    the callback reads the input's value at that moment. *)
Definition fire_due (t : Z) (p : Page) : Page :=
  match searchTimeout p with
  | Some due =>
    if (due <=? t)%Z then
      displayResults (inputValue p)
        (mkPage due (inputValue p) None (searchResults p) (evaluations p))
    else p
  | None => p
  end.

(** The listeners of [input] and of [keydown]. *)
Definition handle (e : UserEvent) (p : Page) : Page :=
  let p := fire_due (time_of e) p in
  match e with
  | Input t value =>
    (* clearTimeout(searchTimeout); searchTimeout = setTimeout(..., DEBOUNCE_DELAY) *)
    mkPage t value (Some (t + CONFIG.DEBOUNCE_DELAY)%Z) (searchResults p) (evaluations p)
  | KeyEscape t =>
    displayResults [] (mkPage t [] (searchTimeout p) (searchResults p) (evaluations p))
  end.

Definition run (es : list UserEvent) (p : Page) : Page :=
  fold_left (λ p e, handle e p) es p.

(** Time passes until [t] with no further event. *)
Definition advance (t : Z) (p : Page) : Page :=
  let p := fire_due t p in
  mkPage (Z.max t (clock p)) (inputValue p) (searchTimeout p) (searchResults p) (evaluations p).
End WithBlog.

(** The keystrokes after which the input stays quiet for the whole
    delay: the last one, and each one whose successor comes no sooner
    than the delay later. *)
Fixpoint quiet (ks : list (Z * jsstring)) : list (Z * jsstring) :=
  match ks with
  | [] => []
  | (t, v) :: rest =>
    match rest with
    | [] => [(t, v)]
    | (t', _) :: _ =>
      if (t + CONFIG.DEBOUNCE_DELAY <=? t')%Z then (t, v) :: quiet rest else quiet rest
    end
  end.

(** Keystrokes in the order of time, none before [t0]. *)
Fixpoint in_time_order (t0 : Z) (ks : list (Z * jsstring)) : Prop :=
  match ks with
  | [] => True
  | (t, _) :: rest => (t0 <= t)%Z ∧ in_time_order t rest
  end.

(** Each keystroke within the delay of the one before. *)
Fixpoint burst (ks : list (Z * jsstring)) : Prop :=
  match ks with
  | [] => True
  | (t, _) :: rest =>
    match rest with
    | [] => True
    | (t', _) :: _ => (t' < t + CONFIG.DEBOUNCE_DELAY)%Z ∧ burst rest
    end
  end.

(** The time of the last keystroke, [t0] when there is none. *)
Fixpoint last_time (t0 : Z) (ks : list (Z * jsstring)) : Z :=
  match ks with
  | [] => t0
  | (t, _) :: rest => last_time t rest
  end.

Definition keystrokes (ks : list (Z * jsstring)) : list UserEvent :=
  map (λ k, Input (fst k) (snd k)) ks.

Definition fires_at (k : Z * jsstring) : Z * jsstring :=
  ((fst k + CONFIG.DEBOUNCE_DELAY)%Z, snd k).

End SearchPage.

(** ** The language manager ([features/language.js]) *)

Module Language.

(** The field of the manager and what it touches of the browser: the
    item [language] of [localStorage], the [lang] attribute of the
    document, and how many times the page was asked to reload. *)
Record State := mkState {
  currentLang : jsstring;
  storedLanguage : option jsstring;
  storageFails : bool;       (* setItem throws *)
  documentLang : jsstring;
  reloads : nat
}.

Definition document_lang_for (lang : jsstring) : jsstring :=
  if bool_decide (lang = lit "ru") then lit "ru" else lit "en".

(** [new LanguageManager()] on a browser whose storage holds [stored]. *)
Definition constructor (stored : option jsstring) (fails : bool) : State :=
  let lang := match stored with
              | Some s => if truthy_string s then s else lit "ru"
              | None => lit "ru"
              end in
  mkState lang stored fails (document_lang_for lang) 0.

Definition getLanguage (s : State) : jsstring := currentLang s.

Definition setLanguage (lang : jsstring) (s : State) : Res unit * State :=
  if bool_decide (currentLang s = lang) then (Ok tt, s)
  else
    (* this.currentLang = lang *)
    let s1 := mkState lang (storedLanguage s) (storageFails s) (documentLang s) (reloads s) in
    (* localStorage.setItem('language', lang) *)
    if storageFails s1 then (Throw QuotaExceededError, s1)
    else
      (* document.documentElement.lang = ...; window.location.reload() *)
      (Ok tt, mkState lang (Some lang) (storageFails s1) (document_lang_for lang)
                (S (reloads s1))).

Definition toggleLanguage (s : State) : Res unit * State :=
  let newLang := if bool_decide (currentLang s = lit "ru") then lit "en" else lit "ru" in
  setLanguage newLang s.

End Language.

(** ** Tactics *)

Ltac run :=
  cbv [getFromCache saveToCache attempt try_catch mbind Js_bind mret Js_ret gets modify emit
       throw lift localStorage_getItem localStorage_removeItem localStorage_setItem
       JSON_parse_entry subtract less_than Date_now sleep fetch logged fetched slept remembered stored
       attempt_outcome status text parsed history_pushState dispatch detached
       showLoading hideLoading loadPosts
       set_posts set_allPosts set_currentView set_currentSlug set_loadedPosts
       set_localStorage set_now set_fetches set_history set_historyIndex set_appHtml
       set_loadingHidden set_events
       posts allPosts currentView currentSlug loadedPosts localStorage storageDenied
       storageFull now network fetches marked history historyIndex appHtml
       loadingHidden events].

(** Case analysis on the innermost scrutinee first. *)
Ltac break :=
  repeat (cbv beta iota zeta;
          match goal with
          | |- context [match ?c with _ => _ end] =>
            lazymatch c with
            | context [match _ with _ => _ end] => fail
            | _ => destruct c eqn:?
            end
          end).

Ltac crunch := break; simpl in *; try congruence; try reflexivity.

(** What loading a post leaves alone: the fields of navigation and of the
    page, the index, the parser, the network, and the history. *)
Definition unchanged (st st' : St) : Prop :=
  posts st' = posts st ∧ allPosts st' = allPosts st
  ∧ currentView st' = currentView st ∧ currentSlug st' = currentSlug st
  ∧ history st' = history st ∧ historyIndex st' = historyIndex st
  ∧ appHtml st' = appHtml st ∧ loadingHidden st' = loadingHidden st
  ∧ marked st' = marked st ∧ network st' = network st
  ∧ storageDenied st' = storageDenied st ∧ storageFull st' = storageFull st
  ∧ pushes (events st') = pushes (events st).

(** ** Statements and examples *)

(** Three fetches and three suspensions, of 1000, 2000 and 3000
    milliseconds, before the error fragment is returned. *)
Definition three_suspensions (st : St) (slug : option jsstring) : Prop :=
  ∃ msg st',
    loadPost slug CONFIG.MAX_RETRIES st = (Ok (Some (ErrorState msg)), st')
    ∧ length (fetch_urls (new_events st st')) = 3%nat
    ∧ sleeps (new_events st st') = [1000; 2000; 3000]%Z.

(** A fresh session with one post in its index. *)
Definition hello : json :=
  JObj [(lit "slug", JStr (lit "hi")); (lit "title", JStr (lit "Hello"));
        (lit "excerpt", JStr (lit "world")); (lit "date", JStr (lit "2024-01-01"))].

Definition session (net : nat -> jsstring -> FetchResult) : St :=
  mkSt [hello] (JArr [hello]) (lit "home") None ∅ ∅ false false 0%Z net 0
    (Some (λ markdown, Ok (lit "<p>" ++ markdown ++ lit "</p>")))
    [None] 0 Blank true [].

(** A browser with no connection, and one whose server has every post. *)
Definition offline : St := session (λ _ _, Rejected (mkError (lit "Failed to fetch"))).
Definition online : St :=
  session (λ _ _, Response 200 (Ok (lit "hello")) (Throw SyntaxError)).

(** A session whose persistent cache holds the post [hi], stored at time
    0, read at time [t]. *)
Definition revisit (t : Z) : St :=
  set_now t (set_localStorage {[ cache_key (Some (lit "hi")) := Entry (lit "<p>hello</p>") 0%Z ]} offline).

(** A query with nothing but white space in it, the empty one included. *)
Definition blank (query : jsstring) : Prop :=
  Forall (λ c, is_white_space c = true) query.

(** What a render leaves alone: the index, the navigation state and the
    session history. *)
Definition same_navigation (st st' : St) : Prop :=
  posts st' = posts st ∧ allPosts st' = allPosts st
  ∧ currentView st' = currentView st ∧ currentSlug st' = currentSlug st
  ∧ history st' = history st ∧ historyIndex st' = historyIndex st
  ∧ pushes (events st') = pushes (events st).

(** ** Start-up *)

(** [new Blog()] in a browser: the fields the constructor sets, over the
    browser as it is. The page has the container [#app]. *)
Definition constructor (browser : St) : St :=
  mkSt [] (JArr []) (lit "home") None ∅
    (localStorage browser) (storageDenied browser) (storageFull browser) (now browser)
    (network browser) (fetches browser) (marked browser)
    (history browser) (historyIndex browser) (appHtml browser) (loadingHidden browser)
    (events browser).

(** [initTheme()] on this state: the read of the stored preference, which
    throws when the page is denied its storage. The attribute that is then
    set belongs to the document, of which [Theme.initTheme] keeps track. *)
Definition initTheme : Js unit :=
  savedTheme ← localStorage_getItem (lit "theme");
  mret tt.

Section Init.
(** The engine's sort, as for [loadPosts]. *)
Variable sort_newest_first : list json -> Res (list json).

(** [init()]: the theme is read, the index is loaded, then the page is
  rendered. [marked.setOptions], the four [setup...] methods, which only
  add listeners, and the registration of the service worker touch
  nothing of this state and return. What [init] throws rejects the
  promise it returns, which the constructor drops. *)
Definition init : Js unit :=
(* Load theme preference *)
initTheme;;
(* Load posts *)
loadPosts sort_newest_first;;
(* Initial render *)
render.
End Init.

(** A browser that denies the page its storage, and is otherwise as
    [online]. *)
Definition blocked : St :=
  mkSt (posts online) (allPosts online) (currentView online) (currentSlug online)
    (loadedPosts online) (localStorage online) true (storageFull online) (now online)
    (network online) (fetches online) (marked online) (history online)
    (historyIndex online) (appHtml online) (loadingHidden online) (events online).

(** The current entry of the session history exists. *)
Definition history_ok (st : St) : Prop :=
  (historyIndex st < length (history st))%nat.

(** ** Reading time *)

(** [content.replace(/<[^>]*>/g, '')]: a tag runs from a [<] to the first
    [>] after it; [inside] holds, latest first, what was read since a [<]
    that is not closed yet, which stays in the text when no [>] comes. *)
Fixpoint strip_tags_from (inside : option jsstring) (s : jsstring) : jsstring :=
  match s with
  | [] =>
    match inside with
    | Some held => rev held
    | None => []
    end
  | c :: r =>
    match inside with
    | None =>
      if c =? 0x3C then strip_tags_from (Some [c]) r
      else c :: strip_tags_from None r
    | Some held =>
      if c =? 0x3E then strip_tags_from None r
      else strip_tags_from (Some (c :: held)) r
    end
  end.

Definition strip_tags (content : jsstring) : jsstring := strip_tags_from None content.

(** [s.split(/\s+/)]: [word] holds, latest first, the piece being read,
    and [skipping] says that the separator being read has begun. *)
Fixpoint split_from (word : jsstring) (skipping : bool) (s : jsstring) : list jsstring :=
  match s with
  | [] => [rev word]
  | c :: r =>
    if is_white_space c then
      if skipping then split_from word true r
      else rev word :: split_from [] true r
    else split_from (c :: word) false r
  end.

Definition split_white_space (s : jsstring) : list jsstring := split_from [] false s.

(** [text.trim().split(/\s+/).length] *)
Definition word_count (content : jsstring) : N :=
  N.of_nat (length (split_white_space (trim (strip_tags content)))).

(** [Math.ceil(words / CONFIG.WORDS_PER_MINUTE)] *)
Definition calculateReadTime (content : jsstring) : N :=
  (word_count content + (CONFIG.WORDS_PER_MINUTE - 1)) / CONFIG.WORDS_PER_MINUTE.

(** A complete tag: a [<], text without [>], a [>]. *)
Definition tag (body : jsstring) : jsstring := 0x3C :: body ++ [0x3E].

(** ** The theme ([initTheme], [setupThemeToggle]) *)

Module Theme.

(** The attribute [data-theme] of the document ([None] while it is not
  set), the item [theme] of [localStorage], whether [setItem] throws, and
  the content of the [theme-color] meta element ([None] when the page
  has no such element). *)
Record State := mkState {
dataTheme : option jsstring;
storedTheme : option jsstring;
storageFails : bool;
metaThemeColor : option jsstring
}.

Definition initTheme (s : State) : State :=
let savedTheme := storedTheme s in
match savedTheme with
| Some saved =>
  if truthy_string saved
  then mkState (Some saved) (storedTheme s) (storageFails s) (metaThemeColor s)
  else mkState (Some (lit "light")) (storedTheme s) (storageFails s) (metaThemeColor s)
| None =>
  (* Default to light theme *)
  mkState (Some (lit "light")) (storedTheme s) (storageFails s) (metaThemeColor s)
end.

Definition theme_color (newTheme : jsstring) : jsstring :=
if bool_decide (newTheme = lit "dark") then lit "#1a1a1a" else lit "#ffffff".

(** The listener of a click on the toggle. *)
Definition toggle (s : State) : Res unit * State :=
let currentTheme := dataTheme s in
let newTheme :=
  if bool_decide (currentTheme = Some (lit "dark")) then lit "light" else lit "dark" in
let s1 := mkState (Some newTheme) (storedTheme s) (storageFails s) (metaThemeColor s) in
if storageFails s1 then (Throw QuotaExceededError, s1)
else
  let s2 := mkState (dataTheme s1) (Some newTheme) (storageFails s1) (metaThemeColor s1) in
  (* Update meta theme-color *)
  match metaThemeColor s2 with
  | Some _ =>
    (Ok tt, mkState (dataTheme s2) (storedTheme s2) (storageFails s2)
              (Some (theme_color newTheme)))
  | None => (Ok tt, s2)
  end.

(** The page is loaded again: the document is as it is served, without
  the attribute and with the meta element of the page, and the storage
  is as it was left. *)
Definition reload (served_meta : option jsstring) (s : State) : State :=
initTheme (mkState None (storedTheme s) (storageFails s) served_meta).

End Theme.

(** The language manager on a page that is loaded again: the storage is
    as it was left. *)
Definition Language_reload (s : Language.State) : Language.State :=
  Language.constructor (Language.storedLanguage s) (Language.storageFails s).

(** The suspensions between [m + 1] attempts in a row, the first with
    index [i]. *)
Definition delays_from (i m : nat) : list Z :=
  map (λ j, (CONFIG.RETRY_DELAY_BASE * Z.of_nat (i + j + 1))%Z) (seq 0 m).

Definition stores (l : list Event) : list jsstring :=
  omap (λ e, match e with EvSetItem k => Some k | _ => None end) l.

(** The state in which the loop of [loadPost] starts when the persistent
    cache has nothing under the key: the read is recorded, unless the
    storage cannot be read at all. *)
Definition after_miss (slug : option jsstring) (st : St) : St :=
  if storageDenied st then st else logged (EvGetItem (cache_key slug)) st.

(** The events of the read of the persistent cache on such a miss. *)
Definition miss_events (slug : option jsstring) (st : St) : list Event :=
  if storageDenied st then [] else [EvGetItem (cache_key slug)].

(** ** Asynchronous methods and the event loop *)

(** The methods above run an [async] method from its call to its return in
    one go, which is what happens when nothing else runs in between. Here
    a call stops at each [await] of the network or of a timer, and the
    browser decides what runs next: a listener, the rest of a suspended
    call, or the callbacks of an animation frame. *)

(** What an [await] waits for. *)
Inductive Awaited :=
| Network           (* the promise of [fetch(url)] or of [response.text()] *)
| Timer (due : Z)   (* [setTimeout]: the time at which the timer is due *).

(** How far a call of an [async] method has come: its promise has settled,
    or the call is suspended at an [await], with the rest of its body. *)
Inductive Outcome (A : Type) : Type :=
| Settled (r : Res A) (st : St)
| Suspended (on : Awaited) (st : St) (rest : St -> Outcome A).
Arguments Settled {A} r st.
Arguments Suspended {A} on st rest.

Definition Async (A : Type) : Type := St -> Outcome A.

Fixpoint and_then {A B} (o : Outcome A) (k : A -> St -> Outcome B) : Outcome B :=
  match o with
  | Settled (Ok a) st => k a st
  | Settled (Throw e) st => Settled (Throw e) st
  | Suspended on st rest => Suspended on st (λ st', and_then (rest st') k)
  end.

#[global] Instance Async_ret : MRet Async := λ A a st, Settled (Ok a) st.
#[global] Instance Async_bind : MBind Async := λ A B k m st, and_then (m st) k.

Fixpoint or_catch {A} (o : Outcome A) (handler : Error -> St -> Outcome A) : Outcome A :=
  match o with
  | Settled (Ok a) st => Settled (Ok a) st
  | Settled (Throw e) st => handler e st
  | Suspended on st rest => Suspended on st (λ st', or_catch (rest st') handler)
  end.

(** [try { body } catch (error) { handler }] in an [async] method. *)
Definition try_await {A} (body : Async A) (handler : Error -> Async A) : Async A :=
  λ st, or_catch (body st) handler.

(** Synchronous code inside an [async] method. *)
Definition sync {A} (m : Js A) : Async A := λ st,
  match m st with
  | (r, st') => Settled r st'
  end.

(** [await promise], for a promise of the network or of a timer. *)
Definition await (on : Awaited) : Async unit := λ st,
  Suspended on st (λ st', Settled (Ok tt) st').

(** A call that nothing interrupts: what it awaits of the network settles
    at once, and a timer fires when it is due. *)
Fixpoint alone {A} (o : Outcome A) : Res A * St :=
  match o with
  | Settled r st => (r, st)
  | Suspended Network st rest => alone (rest st)
  | Suspended (Timer due) st rest => alone (rest (set_now due st))
  end.

(** Every state a call passes through, from each start or resumption to
    the next suspension or to the end, is related by [R] to the state it
    was started or resumed in. *)
Fixpoint keeps {A} (R : St -> St -> Prop) (st0 : St) (o : Outcome A) : Prop :=
  match o with
  | Settled _ st => R st0 st
  | Suspended _ st rest => R st0 st ∧ ∀ st', keeps R st' (rest st')
  end.

Module EventLoop.

(** [await fetch(url)]: the request goes out at the call; what the
    network answers is known when the call resumes. *)
Definition fetch (url : jsstring) : Async FetchResponse :=
  sync (emit (EvFetch url));;
  n ← sync (gets fetches);
  sync (modify (set_fetches (S n)));;
  await Network;;
  net ← sync (gets network);
  match net n url with
  | Rejected e => sync (throw e)
  | Response s t j => mret (mkResponse s t j)
  end.

(** [await response.text()] *)
Definition response_text (response : FetchResponse) : Async jsstring :=
  await Network;;
  sync (lift (text response)).

(** [await new Promise(r => setTimeout(r, ms))] *)
Definition sleep (ms : Z) : Async unit :=
  sync (emit (EvSleep ms));;
  t ← sync Date_now;
  await (Timer (t + ms)).

(** One pass through the body of the [try] of [loadPost]. *)
Definition attempt (slug : option jsstring) : Async (option LoadResult) :=
  response ← fetch (post_url slug);
  if negb (status_ok (status response)) then
    sync (throw (mkError (lit "HTTP " ++ decimal (status response))))
  else
  markdown ← response_text response;
  (* Check if marked is available *)
  m ← sync (gets marked);
  match m with
  | None => sync (throw (mkError (lit "Markdown парсер не загружен")))
  | Some marked_parse =>
    html ← sync (lift (marked_parse markdown));
    (* Cache the result (memory + localStorage) *)
    sync (modify (λ st, set_loadedPosts (<[slug := html]> (loadedPosts st)) st));;
    sync (saveToCache slug html);;
    mret (Some (Html html))
  end.

Fixpoint retry_loop (fuel : nat) (slug : option jsstring) (retries i : nat)
  : Async (option LoadResult) :=
  match fuel with
  | O => mret None
  | S fuel' =>
    if negb (i <? retries)%nat then mret None else
    try_await (attempt slug)
      (λ error,
        let isLastAttempt := (i =? retries - 1)%nat in
        if isLastAttempt then mret (Some (ErrorState (message error)))
        else
          let delay := (CONFIG.RETRY_DELAY_BASE * Z.of_nat (i + 1))%Z in
          sleep delay;;
          retry_loop fuel' slug retries (i + 1)%nat)
  end.

Definition loadPost (slug : option jsstring) (retries : nat) : Async (option LoadResult) :=
  (* Check cache first (memory) *)
  memory ← sync (gets loadedPosts);
  match memory !! slug with
  | Some html => mret (Some (Html html))
  | None =>
    (* Check localStorage cache *)
    cached ← sync (getFromCache slug);
    match cached with
    | Some data =>
      if truthy_string data then
        sync (modify (λ st, set_loadedPosts (<[slug := data]> (loadedPosts st)) st));;
        mret (Some (Html data))
      else retry_loop retries slug retries 0
    | None => retry_loop retries slug retries 0
    end
  end.

(** An [await] of the promise of [loadPost] or of [renderPost] resumes
    in the turn in which that promise settles, after the synchronous
    code of the turn; nothing of this state is read or written in
    between, and the call goes on at once. *)
Definition renderPost (slug : option jsstring) : Async Content :=
  ps ← sync (gets posts);
  first ← sync (lift (find_post slug ps));
  post ← match first with
         | Some p => mret (Some p)
         | None => all ← sync (gets allPosts); sync (lift (find_in slug all))
         end;
  match post with
  | None => mret PostNotFound
  | Some p =>
    content ← loadPost slug CONFIG.MAX_RETRIES;
    mret (PostView p (returned <$> content))
  end.

(** The [switch] of [render] on the current view. *)
Definition view_content : Async Content :=
  view ← sync (gets currentView);
  if bool_decide (view = lit "home") then sync renderPostsList
  else if bool_decide (view = lit "post") then
    slug ← sync (gets currentSlug);
    renderPost slug
  else if bool_decide (view = lit "search") then mret SearchPage
  else if bool_decide (view = lit "contacts") then mret ContactsPage
  else sync renderPostsList.

(** [render()] up to its call of [requestAnimationFrame]; the content it
    computed is what the callback it passes closes over. *)
Definition render : Async Content :=
  sync showLoading;;
  view_content.

(** The callback [render] passes to [requestAnimationFrame]. It reads
    [this.currentView] to choose the listeners it adds, not for what it
    writes to the page. *)
Definition frameCallback (content : Content) : Js unit :=
  modify (set_appHtml content);;
  hideLoading.

(** The page between two turns: the [Blog] and the browser, the calls of
    [render] that are suspended, oldest first, and the callbacks that
    wait for the next animation frame, in the order of their
    registration. *)
Record Loop := mkLoop {
  blog : St;
  inFlight : list (Awaited * (St -> Outcome Content));
  frameCallbacks : list Content
}.

(** Where a call of [render] has come to: its callback is registered,
    its promise is rejected, which nobody sees, or it is suspended;
    [place] is that of a suspended call that was resumed. *)
Definition proceed (place : option nat) (o : Outcome Content) (l : Loop) : Loop :=
  let others :=
    match place with
    | Some k => delete k (inFlight l)
    | None => inFlight l
    end in
  match o with
  | Settled (Ok content) st => mkLoop st others (frameCallbacks l ++ [content])
  | Settled (Throw e) st => mkLoop st others (frameCallbacks l)
  | Suspended on st rest =>
    match place with
    | Some k => mkLoop st (<[k := (on, rest)]> (inFlight l)) (frameCallbacks l)
    | None => mkLoop st (inFlight l ++ [(on, rest)]) (frameCallbacks l)
    end
  end.

(** The code of a listener: synchronous, and it may call [render]. *)
Definition Listener (A : Type) : Type := Loop -> Res A * Loop.

#[global] Instance Listener_ret : MRet Listener := λ A a l, (Ok a, l).
#[global] Instance Listener_bind : MBind Listener := λ A B k m l,
  match m l with
  | (Ok a, l') => k a l'
  | (Throw e, l') => (Throw e, l')
  end.

Definition on_blog {A} (m : Js A) : Listener A := λ l,
  match m (blog l) with
  | (r, st) => (r, mkLoop st (inFlight l) (frameCallbacks l))
  end.

(** [this.render()]: the call runs to its first suspension and returns
    a promise, which no caller looks at. *)
Definition call_render : Listener unit := λ l,
  (Ok tt, proceed None (render (blog l)) l).

Definition navigateTo (view : jsstring) (slug : option jsstring) (pushState : bool)
  : Listener unit :=
  on_blog (modify (set_currentView view));;
  on_blog (modify (set_currentSlug slug));;
  (* Update URL *)
  (if pushState then
     let url :=
       if truthy_slug slug then lit "#" ++ slug_text slug
       else if bool_decide (view = lit "home") then lit "#"
       else lit "#" ++ view in
     on_blog (history_pushState (mkNav view slug) url)
   else mret tt);;
  (* Update page metadata *)
  on_blog updatePageMeta;;
  call_render.

(** The listener of [popstate], given [e.state] ([None] is [null]). *)
Definition onPopState (state : option NavState) : Listener unit :=
  match state with
  | Some s =>
    on_blog (modify (set_currentView (nav_view s)));;
    on_blog (modify (set_currentSlug (nav_slug s)));;
    call_render;;
    on_blog updatePageMeta
  | None => mret tt
  end.

(** An exception that escapes a listener is reported and goes no
    further. *)
Definition dispatch (listener : Listener unit) : Listener unit := λ l,
  match listener l with
  | (_, l') => (Ok tt, l')
  end.

(** The browser's back button: the previous entry becomes the current
    one and [popstate] is dispatched with its state. *)
Definition history_back : Listener unit :=
  i ← on_blog (gets historyIndex);
  match i with
  | O => mret tt
  | S j =>
    on_blog (modify (set_historyIndex j));;
    h ← on_blog (gets history);
    dispatch (onPopState (default None (h !! j)))
  end.

(** What the browser does next. *)
Inductive Turn :=
| Click (view : jsstring) (slug : option jsstring)  (* a listener calls [navigateTo] *)
| BackButton              (* the back button is pressed *)
| Resume (k : nat)        (* what the [k]-th suspended call awaits has settled *)
| Tick (ms : Z)           (* time passes *)
| Frame                   (* an animation frame *).

Definition ready (on : Awaited) (st : St) : bool :=
  match on with
  | Network => true
  | Timer due => (due <=? now st)%Z
  end.

Definition resume (k : nat) (l : Loop) : Loop :=
  match inFlight l !! k with
  | Some (on, rest) =>
    if ready on (blog l) then proceed (Some k) (rest (blog l)) l else l
  | None => l
  end.

(** The callbacks run in the order in which they were registered. *)
Definition animationFrame (l : Loop) : Loop :=
  mkLoop (foldl (λ st content, snd (frameCallback content st)) (blog l) (frameCallbacks l))
    (inFlight l) [].

Definition turn (t : Turn) (l : Loop) : Loop :=
  match t with
  | Click view slug => snd (dispatch (navigateTo view slug true) l)
  | BackButton => snd (history_back l)
  | Resume k => resume k l
  | Tick ms =>
    if (0 <=? ms)%Z
    then mkLoop (set_now (now (blog l) + ms)%Z (blog l)) (inFlight l) (frameCallbacks l)
    else l
  | Frame => animationFrame l
  end.

Definition turns (ts : list Turn) (l : Loop) : Loop := foldl (λ l t, turn t l) l ts.

(** What the browser does by itself, without the user. *)
Definition background (t : Turn) : Prop :=
  match t with
  | Resume _ | Tick _ | Frame => True
  | Click _ _ | BackButton => False
  end.

(** Every suspended call leaves alone, whenever it runs, what loading
    a post leaves alone. *)
Definition tame (l : Loop) : Prop :=
  Forall (λ call, ∀ st, keeps unchanged st (snd call st)) (inFlight l).

(** A page on which nothing is pending. *)
Definition idle (st : St) : Loop := mkLoop st [] [].

(** Home, then the post [a], then the back button, with what the browser
    does by itself in between and afterwards. *)
Definition home_post_back (a : jsstring) (during after : list Turn) : list Turn :=
  [Click (lit "home") None; Click (lit "post") (Some a)] ++ during ++ [BackButton] ++ after.

(** Once every call of [render] has finished and every callback has
    run, home is the current view and the page shows the listing. *)
Definition back_shows_listing (a : jsstring) (during after : list Turn) (l : Loop) : Prop :=
  let l' := turns (home_post_back a during after) l in
  inFlight l' = [] → frameCallbacks l' = [] →
  currentView (blog l') = lit "home" ∧ appHtml (blog l') = PostsList (posts (blog l)).

End EventLoop.

(** * Properties *)

(** ** Strings *)

Lemma startsWith_prefix s p : startsWith s p = true ↔ ∃ post, s = p ++ post.
Proof.
  revert s. induction p as [|a p IH]; intros s; simpl.
  - split; [intros _; by exists s | done].
  - destruct s as [|b s]; simpl.
    + split; [done | intros [post H]; discriminate].
    + rewrite andb_true_iff, IH, N.eqb_eq. split.
      * intros [-> [post ->]]. by exists post.
      * intros [post H]. injection H as -> ->. eauto.
Qed.

Lemma includes_substring s sub : includes s sub = true ↔ substring sub s.
Proof.
  unfold substring. induction s as [|c s IH]; simpl.
  - rewrite orb_false_r, startsWith_prefix. split.
    + intros [post H]. exists [], post. done.
    + intros [pre [post H]]. destruct pre; [by exists post|discriminate].
  - rewrite orb_true_iff, startsWith_prefix, IH. split.
    + intros [[post H]|[pre [post H]]].
      * exists [], post. done.
      * exists (c :: pre), post. by rewrite H.
    + intros [[|c' pre] [post H]].
      * left. by exists post.
      * right. injection H as -> ->. by exists pre, post.
Qed.

Lemma errorFragment_has_backControl msg : includes (errorFragment msg) backControl = true.
Proof.
  apply includes_substring. unfold errorFragment.
  generalize errorFragment_head errorFragment_mid backControl errorFragment_tail.
  intros h m b t. exists (h ++ msg ++ m), t. by rewrite <- !app_assoc.
Qed.

(** ** Loading a post *)

Lemma getFromCache_run slug st :
  getFromCache slug st =
  if storageDenied st then (Ok None, st) else
  match localStorage st !! cache_key slug with
  | Some (Entry data timestamp) =>
    if (now st - timestamp <? CONFIG.CACHE_DURATION)%Z
    then (Ok (Some data), logged (EvGetItem (cache_key slug)) st)
    else (Ok None,
          set_localStorage (delete (cache_key slug) (localStorage st))
            (logged (EvRemoveItem (cache_key slug)) (logged (EvGetItem (cache_key slug)) st)))
  | Some Undated =>
    (Ok None,
     set_localStorage (delete (cache_key slug) (localStorage st))
       (logged (EvRemoveItem (cache_key slug)) (logged (EvGetItem (cache_key slug)) st)))
  | _ => (Ok None, logged (EvGetItem (cache_key slug)) st)
  end.
Proof. destruct st; run; crunch. Qed.

Lemma saveToCache_run slug data st :
  saveToCache slug data st = (Ok tt, stored slug data st).
Proof. destruct st; run; crunch. Qed.

Lemma attempt_run slug st :
  attempt slug st =
  match attempt_outcome st (network st (fetches st) (post_url slug)) with
  | Ok html =>
    (Ok (Some (Html html)), stored slug html (remembered slug html (fetched (post_url slug) st)))
  | Throw e => (Throw e, fetched (post_url slug) st)
  end.
Proof. destruct st; run; crunch. Qed.

Lemma retry_loop_S fuel slug retries i st :
  retry_loop (S fuel) slug retries i st =
  if (i <? retries)%nat then
    match attempt_outcome st (network st (fetches st) (post_url slug)) with
    | Ok html =>
      (Ok (Some (Html html)),
       stored slug html (remembered slug html (fetched (post_url slug) st)))
    | Throw e =>
      if (i =? retries - 1)%nat
      then (Ok (Some (ErrorState (message e))), fetched (post_url slug) st)
      else retry_loop fuel slug retries (i + 1)
             (slept (CONFIG.RETRY_DELAY_BASE * Z.of_nat (i + 1)) (fetched (post_url slug) st))
    end
  else (Ok None, st).
Proof.
  cbn [retry_loop]. destruct (i <? retries)%nat; [|reflexivity].
  cbn [negb]. unfold try_catch at 1. rewrite attempt_run.
  destruct (attempt_outcome _ _); [reflexivity|].
  destruct (i =? retries - 1)%nat; reflexivity.
Qed.

Lemma loadPost_run slug retries st :
  loadPost slug retries st =
  match loadedPosts st !! slug with
  | Some html => (Ok (Some (Html html)), st)
  | None =>
    match getFromCache slug st with
    | (Ok (Some data), st') =>
      if truthy_string data then (Ok (Some (Html data)), remembered slug data st')
      else retry_loop retries slug retries 0 st'
    | (Ok None, st') => retry_loop retries slug retries 0 st'
    | (Throw e, st') => (Throw e, st')
    end
  end.
Proof.
  unfold loadPost, mbind, Js_bind, gets. destruct (loadedPosts st !! slug); [reflexivity|].
  destruct (getFromCache slug st) as [[[d|]|e] st']; try reflexivity.
  destruct (truthy_string d); reflexivity.
Qed.

(** What a write to the persistent cache leaves alone. *)
Lemma stored_frame slug data st :
  let st' := stored slug data st in
  fetches st' = fetches st ∧ marked st' = marked st ∧ network st' = network st
  ∧ loadedPosts st' = loadedPosts st ∧ unchanged st st'.
Proof.
  unfold stored, unchanged, pushes. destruct (_ || _); simpl; [done|].
  rewrite omap_app; simpl. by rewrite app_nil_r.
Qed.

Lemma unchanged_refl st : unchanged st st.
Proof. by unfold unchanged. Qed.

Lemma unchanged_trans st1 st2 st3 : unchanged st1 st2 → unchanged st2 st3 → unchanged st1 st3.
Proof. unfold unchanged. intros H1 H2. destruct_and!. repeat split; congruence. Qed.

Lemma pushes_snoc l e :
  pushes (l ++ [e]) = pushes l ++ match e with EvPushState s _ => [s] | _ => [] end.
Proof. unfold pushes. rewrite omap_app. by destruct e. Qed.

Lemma unchanged_fetched url st : unchanged st (fetched url st).
Proof. unfold unchanged, fetched, logged; simpl. rewrite pushes_snoc, app_nil_r. done. Qed.

Lemma unchanged_slept ms st : unchanged st (slept ms st).
Proof. unfold unchanged, slept, logged; simpl. rewrite pushes_snoc, app_nil_r. done. Qed.

Lemma unchanged_remembered slug html st : unchanged st (remembered slug html st).
Proof. by unfold unchanged. Qed.

Lemma unchanged_stored slug data st : unchanged st (stored slug data st).
Proof. apply stored_frame. Qed.

Lemma attempt_outcome_unchanged st st' answer :
  unchanged st st' → attempt_outcome st' answer = attempt_outcome st answer.
Proof.
  intros H. unfold attempt_outcome.
  replace (marked st') with (marked st); [done|]. unfold unchanged in H. by destruct_and!.
Qed.

Lemma unchanged_network st st' : unchanged st st' → network st' = network st.
Proof. unfold unchanged. intros H. by destruct_and!. Qed.

(** The loop leaves navigation, page and index alone, and only adds to
    the record of events and to the count of fetches. *)
Lemma retry_loop_frame fuel : ∀ slug retries i st r st',
  retry_loop fuel slug retries i st = (r, st') →
  unchanged st st' ∧ (fetches st ≤ fetches st')%nat ∧ ∃ l, events st' = events st ++ l.
Proof.
  induction fuel as [|fuel IH]; intros slug retries i st r st' H.
  - injection H as <- <-. split; [apply unchanged_refl|]. split; [lia|]. exists []. by rewrite app_nil_r.
  - rewrite retry_loop_S in H. destruct (i <? retries)%nat.
    2:{ injection H as <- <-. split; [apply unchanged_refl|]. split; [lia|].
        exists []. by rewrite app_nil_r. }
    destruct (attempt_outcome _ _) as [html|e].
    + injection H as <- <-.
      destruct (stored_frame slug html (remembered slug html (fetched (post_url slug) st)))
        as (Hf & _ & _ & _ & Hu).
      split; [|split].
      * eapply unchanged_trans; [apply unchanged_fetched|].
        eapply unchanged_trans; [apply unchanged_remembered|]. exact Hu.
      * rewrite Hf. simpl. lia.
      * unfold stored. destruct (_ || _); simpl; [by eexists|].
        rewrite <- app_assoc. by eexists.
    + destruct (i =? retries - 1)%nat.
      * injection H as <- <-. split; [apply unchanged_fetched|]. simpl. split; [lia|]. by eexists.
      * apply IH in H as (Hu & Hf & l & Hl). split; [|split].
        -- eapply unchanged_trans; [apply unchanged_fetched|].
           eapply unchanged_trans; [apply unchanged_slept|]. exact Hu.
        -- simpl in Hf. lia.
        -- rewrite Hl. simpl. rewrite <- !app_assoc. by eexists.
Qed.

(** When every attempt fails, the loop makes all its passes, suspends
    between them and not after the last, and gives up with the error of
    the last. *)
Lemma retry_loop_all_fail fuel : ∀ slug retries i st,
  (i + fuel = retries)%nat → (0 < fuel)%nat →
  (∀ n, ∃ e, attempt_outcome st (network st n (post_url slug)) = Throw e) →
  ∃ e st',
    retry_loop fuel slug retries i st = (Ok (Some (ErrorState (message e))), st')
    ∧ attempt_outcome st (network st (fetches st + fuel - 1) (post_url slug)) = Throw e
    ∧ events st' = events st ++ backoff_trace (post_url slug) i fuel
    ∧ fetches st' = (fetches st + fuel)%nat
    ∧ loadedPosts st' = loadedPosts st
    ∧ localStorage st' = localStorage st.
Proof.
  induction fuel as [|fuel IH]; intros slug retries i st Hi Hpos Hfail; [lia|].
  rewrite retry_loop_S.
  replace (i <? retries)%nat with true by (symmetry; apply Nat.ltb_lt; lia).
  destruct (Hfail (fetches st)) as [e He]. rewrite He.
  destruct fuel as [|fuel].
  - replace (i =? retries - 1)%nat with true by (symmetry; apply Nat.eqb_eq; lia).
    exists e, (fetched (post_url slug) st). repeat split; try done.
    + by replace (fetches st + 1 - 1)%nat with (fetches st) by lia.
    + simpl. lia.
  - replace (i =? retries - 1)%nat with false by (symmetry; apply Nat.eqb_neq; lia).
    set (st2 := slept _ (fetched (post_url slug) st)).
    assert (Hu : unchanged st st2).
    { eapply unchanged_trans; [apply unchanged_fetched|apply unchanged_slept]. }
    destruct (IH slug retries (i + 1)%nat st2) as (e' & st' & Hrun & Hlast & Hev & Hfe & Hlp & Hls).
    { lia. } { lia. }
    { intros n. rewrite (attempt_outcome_unchanged _ _ _ Hu), (unchanged_network _ _ Hu).
      apply Hfail. }
    exists e', st'. split; [exact Hrun|].
    rewrite (attempt_outcome_unchanged _ _ _ Hu), (unchanged_network _ _ Hu) in Hlast.
    simpl in Hlast, Hev, Hfe, Hlp, Hls.
    split; [|split; [|split; [|split]]]; try done.
    + by replace (fetches st + S (S fuel) - 1)%nat with (S (fetches st) + S fuel - 1)%nat by lia.
    + rewrite Hev. cbn [backoff_trace]. by rewrite <- !app_assoc.
    + lia.
Qed.

(** With at least one pass to make, the loop returns: the markup of the
    first attempt that succeeds, or the message of the error of the last
    attempt. *)
Lemma retry_loop_resolves fuel : ∀ slug retries i st,
  (i + fuel = retries)%nat → (0 < fuel)%nat →
  ∃ r st',
    retry_loop fuel slug retries i st = (Ok (Some r), st')
    ∧ (fetches st < fetches st')%nat
    ∧ match r with
      | Html html =>
        attempt_outcome st (network st (fetches st' - 1) (post_url slug)) = Ok html
      | ErrorState msg =>
        ∃ e, attempt_outcome st (network st (fetches st' - 1) (post_url slug)) = Throw e
             ∧ msg = message e
             ∧ fetches st' = (fetches st + fuel)%nat
      end.
Proof.
  induction fuel as [|fuel IH]; intros slug retries i st Hi Hpos; [lia|].
  rewrite retry_loop_S.
  replace (i <? retries)%nat with true by (symmetry; apply Nat.ltb_lt; lia).
  destruct (attempt_outcome st (network st (fetches st) (post_url slug))) as [html|e] eqn:He.
  - eexists (Html html), _. split; [reflexivity|].
    destruct (stored_frame slug html (remembered slug html (fetched (post_url slug) st)))
      as (Hf & _). rewrite Hf. split; [simpl; lia|].
    match goal with
    | |- context [network st ?n] => replace n with (fetches st) by (simpl; lia)
    end. exact He.
  - destruct fuel as [|fuel].
    + replace (i =? retries - 1)%nat with true by (symmetry; apply Nat.eqb_eq; lia).
      eexists (ErrorState (message e)), _. split; [reflexivity|]. split; [simpl; lia|].
      exists e.
      match goal with
      | |- context [network st ?n] => replace n with (fetches st) by (simpl; lia)
      end. repeat split; [done|simpl; lia].
    + replace (i =? retries - 1)%nat with false by (symmetry; apply Nat.eqb_neq; lia).
      set (st2 := slept _ (fetched (post_url slug) st)).
      assert (Hu : unchanged st st2).
      { eapply unchanged_trans; [apply unchanged_fetched|apply unchanged_slept]. }
      destruct (IH slug retries (i + 1)%nat st2) as (r & st' & Hrun & Hlt & Hr); [lia|lia|].
      exists r, st'. split; [exact Hrun|]. simpl in Hlt. split; [lia|].
      rewrite (attempt_outcome_unchanged _ _ _ Hu), (unchanged_network _ _ Hu) in Hr.
      destruct r as [html|msg]; [exact Hr|].
      destruct Hr as (e' & H1 & H2 & H3). exists e'. simpl in H3. repeat split; [done|done|lia].
Qed.

(** Markup that the loop returns is in the memory cache afterwards. *)
Lemma retry_loop_remembers fuel : ∀ slug retries i st html st',
  retry_loop fuel slug retries i st = (Ok (Some (Html html)), st') →
  loadedPosts st' !! slug = Some html.
Proof.
  induction fuel as [|fuel IH]; intros slug retries i st html st' H; [discriminate|].
  rewrite retry_loop_S in H. destruct (i <? retries)%nat; [|discriminate].
  destruct (attempt_outcome _ _) as [h|e].
  - injection H as -> <-.
    destruct (stored_frame slug html (remembered slug html (fetched (post_url slug) st)))
      as (_ & _ & _ & Hl & _). rewrite Hl. simpl. apply lookup_insert_eq.
  - destruct (i =? retries - 1)%nat; [discriminate|]. by apply IH in H.
Qed.

(** The first thing the loop does, when it has a pass to make, is a fetch. *)
Lemma retry_loop_fetches_first fuel slug retries st :
  (0 < fuel)%nat → (0 < retries)%nat →
  ∃ r st' rest,
    retry_loop fuel slug retries 0 st = (r, st')
    ∧ events st' = events st ++ EvFetch (post_url slug) :: rest.
Proof.
  intros Hf Hr. destruct fuel as [|fuel]; [lia|].
  destruct (retry_loop (S fuel) slug retries 0 st) as [r st'] eqn:H.
  exists r, st'. rewrite retry_loop_S in H.
  replace (0 <? retries)%nat with true in H by (symmetry; apply Nat.ltb_lt; lia).
  destruct (attempt_outcome _ _) as [h|e].
  - injection H as <- <-. unfold stored. destruct (_ || _); simpl.
    + by exists [].
    + eexists. by rewrite <- app_assoc.
  - destruct (0 =? retries - 1)%nat.
    + injection H as <- <-. by exists [].
    + apply retry_loop_frame in H as (_ & _ & l & Hl). rewrite Hl. simpl.
      eexists. by rewrite <- !app_assoc.
Qed.

Lemma fetch_fails_outcome st answer :
  fetch_fails answer → ∃ e, attempt_outcome st answer = Throw e.
Proof.
  destruct answer as [e|s t j]; simpl; [by eexists|].
  intros ->. by eexists.
Qed.

Lemma new_events_app st st' l : events st' = events st ++ l → new_events st st' = l.
Proof. unfold new_events. intros ->. apply drop_app_length. Qed.

(** What a read of the persistent cache leaves alone, and where a payload
    it returns comes from. *)
Lemma getFromCache_frame slug st :
  ∃ o st1,
    getFromCache slug st = (Ok o, st1)
    ∧ unchanged st st1 ∧ fetches st1 = fetches st ∧ loadedPosts st1 = loadedPosts st
    ∧ (∃ l, events st1 = events st ++ l)
    ∧ ∀ data, o = Some data →
        ∃ t, localStorage st !! cache_key slug = Some (Entry data t)
             ∧ (now st - t < CONFIG.CACHE_DURATION)%Z.
Proof.
  rewrite getFromCache_run. destruct (storageDenied st).
  { exists None, st. repeat split; try done. exists []. by rewrite app_nil_r. }
  assert (Hlog : ∀ k, unchanged st (logged (EvGetItem k) st)).
  { intros k. unfold unchanged, logged; simpl. by rewrite pushes_snoc, app_nil_r. }
  destruct (localStorage st !! cache_key slug) as [[d t| |]|] eqn:Hl.
  - destruct (now st - t <? CONFIG.CACHE_DURATION)%Z eqn:Hage.
    + eexists (Some d), _. split; [reflexivity|]. repeat split; try apply Hlog.
      * by eexists.
      * intros data [= <-]. exists t. split; [done|]. by apply Z.ltb_lt.
    + eexists None, _. split; [reflexivity|]. repeat split; try done.
      * unfold unchanged, logged; simpl. by rewrite !pushes_snoc, !app_nil_r.
      * simpl. rewrite <- app_assoc. by eexists.
  - eexists None, _. split; [reflexivity|]. repeat split; try apply Hlog; try done. by eexists.
  - eexists None, _. split; [reflexivity|]. repeat split; try done.
    + unfold unchanged, logged; simpl. by rewrite !pushes_snoc, !app_nil_r.
    + simpl. rewrite <- app_assoc. by eexists.
  - eexists None, _. split; [reflexivity|]. repeat split; try apply Hlog; try done. by eexists.
Qed.

(** C1 (amended). For every slug that is neither in the memory cache nor in
    the persistent cache, a [loadPost] whose fetch fails on every attempt
    makes exactly three fetches, suspends for 1000 ms after the first
    failure and for 2000 ms after the second, and after the third failure
    returns the error fragment at once, around the message of that last
    error; it does not suspend a third time. *)
Theorem loadPost_backoff st slug :
  loadedPosts st !! slug = None →
  localStorage st !! cache_key slug = None →
  (∀ n, fetch_fails (network st n (post_url slug))) →
  ∃ e st',
    loadPost slug CONFIG.MAX_RETRIES st = (Ok (Some (ErrorState (message e))), st')
    ∧ returned (ErrorState (message e)) = errorFragment (message e)
    ∧ attempt_outcome st (network st (fetches st + 2) (post_url slug)) = Throw e
    ∧ new_events st st' =
        (if storageDenied st then [] else [EvGetItem (cache_key slug)])
        ++ [EvFetch (post_url slug); EvSleep 1000;
            EvFetch (post_url slug); EvSleep 2000;
            EvFetch (post_url slug)]
    ∧ fetch_urls (new_events st st') = [post_url slug; post_url slug; post_url slug]
    ∧ sleeps (new_events st st') = [1000; 2000]%Z.
Proof.
  intros Hmem Hstore Hfail.
  assert (Hall : ∀ st1, unchanged st st1 → fetches st1 = fetches st →
            ∀ pre, events st1 = events st ++ pre →
            fetch_urls pre = [] → sleeps pre = [] →
            ∃ e st',
              retry_loop CONFIG.MAX_RETRIES slug CONFIG.MAX_RETRIES 0 st1
                = (Ok (Some (ErrorState (message e))), st')
              ∧ returned (ErrorState (message e)) = errorFragment (message e)
              ∧ attempt_outcome st (network st (fetches st + 2) (post_url slug)) = Throw e
              ∧ new_events st st' =
                  pre ++ [EvFetch (post_url slug); EvSleep 1000;
                          EvFetch (post_url slug); EvSleep 2000;
                          EvFetch (post_url slug)]
              ∧ fetch_urls (new_events st st') = [post_url slug; post_url slug; post_url slug]
              ∧ sleeps (new_events st st') = [1000; 2000]%Z).
  { intros st1 Hu Hf pre Hpre Hnf Hns.
    destruct (retry_loop_all_fail CONFIG.MAX_RETRIES slug CONFIG.MAX_RETRIES 0 st1)
      as (e & st' & Hrun & Hlast & Hev & _); [done|unfold CONFIG.MAX_RETRIES; lia| |].
    { intros n. rewrite (attempt_outcome_unchanged _ _ _ Hu), (unchanged_network _ _ Hu).
      apply fetch_fails_outcome, Hfail. }
    exists e, st'. split; [exact Hrun|]. split; [reflexivity|].
    rewrite (attempt_outcome_unchanged _ _ _ Hu), (unchanged_network _ _ Hu), Hf in Hlast.
    split. { by replace (fetches st + 2)%nat with (fetches st + CONFIG.MAX_RETRIES - 1)%nat
               by (unfold CONFIG.MAX_RETRIES; lia). }
    assert (Hnew : new_events st st' =
                   pre ++ backoff_trace (post_url slug) 0 CONFIG.MAX_RETRIES).
    { apply new_events_app. rewrite Hev, Hpre. by rewrite <- app_assoc. }
    rewrite Hnew. split; [reflexivity|].
    unfold fetch_urls, sleeps in *. rewrite !omap_app, Hnf, Hns. by split. }
  rewrite loadPost_run, Hmem, getFromCache_run, Hstore.
  destruct (storageDenied st).
  - apply (Hall st); [apply unchanged_refl|done| |done|done]. by rewrite app_nil_r.
  - apply (Hall (logged (EvGetItem (cache_key slug)) st)); try done.
    unfold unchanged, logged; simpl. by rewrite pushes_snoc, app_nil_r.
Qed.

Lemma loadPost_backoff_witness :
  ∃ e st',
    loadPost (Some (lit "hi")) CONFIG.MAX_RETRIES offline
      = (Ok (Some (ErrorState (message e))), st')
    ∧ returned (ErrorState (message e)) = errorFragment (message e)
    ∧ attempt_outcome offline
        (network offline (fetches offline + 2) (post_url (Some (lit "hi")))) = Throw e
    ∧ new_events offline st' =
        (if storageDenied offline then [] else [EvGetItem (cache_key (Some (lit "hi")))])
        ++ [EvFetch (post_url (Some (lit "hi"))); EvSleep 1000;
            EvFetch (post_url (Some (lit "hi"))); EvSleep 2000;
            EvFetch (post_url (Some (lit "hi")))]
    ∧ fetch_urls (new_events offline st')
        = [post_url (Some (lit "hi")); post_url (Some (lit "hi")); post_url (Some (lit "hi"))]
    ∧ sleeps (new_events offline st') = [1000; 2000]%Z.
Proof.
  apply (loadPost_backoff offline (Some (lit "hi"))).
  - reflexivity.
  - reflexivity.
  - intros n. exact I.
Defined.

(** C1 as stated fails: offline, the post [hi] is in neither cache and
    every fetch is rejected, yet [loadPost] suspends twice, not three
    times. *)
Lemma three_suspensions_counterexample :
  loadedPosts offline !! Some (lit "hi") = None
  ∧ localStorage offline !! cache_key (Some (lit "hi")) = None
  ∧ (∀ n, fetch_fails (network offline n (post_url (Some (lit "hi")))))
  ∧ ¬ three_suspensions offline (Some (lit "hi")).
Proof.
  split; [reflexivity|]. split; [reflexivity|]. split; [intros n; exact I|].
  intros (msg & st' & Hrun & _ & Hs).
  apply (f_equal snd) in Hrun. simpl in Hrun. subst st'.
  vm_compute in Hs. discriminate Hs.
Qed.

(** C2. Whatever the network answers, whatever the persistent cache holds
    or does, and whatever the converter does, [loadPost] returns to its
    caller: either markup of the post, which is then in the memory cache
    and comes from the memory cache, from a fresh entry of the persistent
    cache or from the converter, or the error fragment, which is built
    around the message of the error of the last of the three attempts and
    holds the control that leads back to the listing: the anchor of class
    [back-button] with the label [Вернуться к постам]. *)
Theorem loadPost_always_resolves st slug :
  ∃ r st',
    loadPost slug CONFIG.MAX_RETRIES st = (Ok (Some r), st')
    ∧ match r with
      | Html html =>
        loadedPosts st' !! slug = Some html
        ∧ (loadedPosts st !! slug = Some html
           ∨ (∃ t, localStorage st !! cache_key slug = Some (Entry html t)
                   ∧ (now st - t < CONFIG.CACHE_DURATION)%Z)
           ∨ attempt_outcome st (network st (fetches st' - 1) (post_url slug)) = Ok html)
      | ErrorState msg =>
        (∃ e, attempt_outcome st (network st (fetches st' - 1) (post_url slug)) = Throw e
              ∧ msg = message e)
        ∧ fetches st' = (fetches st + CONFIG.MAX_RETRIES)%nat
        ∧ returned r = errorFragment_head ++ msg ++ errorFragment_mid
                         ++ backControl ++ errorFragment_tail
        ∧ substring msg (returned r)
        ∧ includes (returned r)
            (lit ("<a href=" ++ dq ++ "#" ++ dq ++ " class=" ++ dq ++ "back-button" ++ dq
                  ++ ">Вернуться к постам</a>")%string) = true
      end.
Proof.
  assert (Hloop : ∀ st1, unchanged st st1 → fetches st1 = fetches st →
    ∃ r st',
      retry_loop CONFIG.MAX_RETRIES slug CONFIG.MAX_RETRIES 0 st1 = (Ok (Some r), st')
      ∧ match r with
        | Html html =>
          loadedPosts st' !! slug = Some html
          ∧ (loadedPosts st !! slug = Some html
             ∨ (∃ t, localStorage st !! cache_key slug = Some (Entry html t)
                     ∧ (now st - t < CONFIG.CACHE_DURATION)%Z)
             ∨ attempt_outcome st (network st (fetches st' - 1) (post_url slug)) = Ok html)
        | ErrorState msg =>
          (∃ e, attempt_outcome st (network st (fetches st' - 1) (post_url slug)) = Throw e
                ∧ msg = message e)
          ∧ fetches st' = (fetches st + CONFIG.MAX_RETRIES)%nat
          ∧ returned r = errorFragment_head ++ msg ++ errorFragment_mid
                           ++ backControl ++ errorFragment_tail
          ∧ substring msg (returned r)
          ∧ includes (returned r)
              (lit ("<a href=" ++ dq ++ "#" ++ dq ++ " class=" ++ dq ++ "back-button" ++ dq
                    ++ ">Вернуться к постам</a>")%string) = true
        end).
  { intros st1 Hu Hf.
    destruct (retry_loop_resolves CONFIG.MAX_RETRIES slug CONFIG.MAX_RETRIES 0 st1)
      as (r & st' & Hrun & _ & Hr); [done|unfold CONFIG.MAX_RETRIES; lia|].
    exists r, st'. split; [exact Hrun|].
    rewrite (attempt_outcome_unchanged _ _ _ Hu), (unchanged_network _ _ Hu) in Hr.
    destruct r as [html|msg].
    - split; [by eapply retry_loop_remembers|]. by right; right.
    - destruct Hr as (e & He & -> & Hn). split; [by exists e|]. split; [congruence|].
      split; [reflexivity|]. split.
      + by exists errorFragment_head, (errorFragment_mid ++ backControl ++ errorFragment_tail).
      + exact (errorFragment_has_backControl (message e)). }
  rewrite loadPost_run. destruct (loadedPosts st !! slug) as [html|] eqn:Hmem.
  { exists (Html html), st. split; [reflexivity|]. split; [done|by left]. }
  destruct (getFromCache_frame slug st) as (o & st1 & -> & Hu & Hf & Hlp & _ & Ho).
  destruct o as [data|]; [|by apply Hloop].
  destruct (truthy_string data); [|by apply Hloop].
  exists (Html data), (remembered slug data st1). split; [reflexivity|]. split.
  - simpl. apply lookup_insert_eq.
  - right; left. by apply Ho.
Qed.

(** C3. Once [loadPost] has returned the markup of a post, a later call for
    the same slug, in any state whose memory cache still holds what the
    first call left for that slug, returns the same markup from the memory
    cache and does nothing else: no read of the persistent cache, no
    fetch, no change of state at all, whatever the time. *)
Theorem loadPost_again_from_memory st slug retries html st1 :
  loadPost slug retries st = (Ok (Some (Html html)), st1) →
  ∀ st2 retries2,
    loadedPosts st2 !! slug = loadedPosts st1 !! slug →
    ∃ st3,
      loadPost slug retries2 st2 = (Ok (Some (Html html)), st3)
      ∧ st3 = st2
      ∧ new_events st2 st3 = []
      ∧ fetches st3 = fetches st2.
Proof.
  intros Hfirst st2 retries2 Hsame.
  assert (Hmem : loadedPosts st1 !! slug = Some html).
  { rewrite loadPost_run in Hfirst.
    destruct (loadedPosts st !! slug) as [h|] eqn:Hm.
    { injection Hfirst as -> <-. exact Hm. }
    destruct (getFromCache slug st) as [[[d|]|e] st'].
    - destruct (truthy_string d).
      + injection Hfirst as -> <-. simpl. apply lookup_insert_eq.
      + by eapply retry_loop_remembers.
    - by eapply retry_loop_remembers.
    - discriminate. }
  exists st2. rewrite loadPost_run, Hsame, Hmem. repeat split.
  unfold new_events. by rewrite drop_all.
Qed.

Lemma loadPost_again_from_memory_witness :
  ∃ st3,
    loadPost (Some (lit "hi")) CONFIG.MAX_RETRIES
      (snd (loadPost (Some (lit "hi")) CONFIG.MAX_RETRIES online))
    = (Ok (Some (Html (lit "<p>hello</p>"))), st3)
    ∧ st3 = snd (loadPost (Some (lit "hi")) CONFIG.MAX_RETRIES online)
    ∧ new_events (snd (loadPost (Some (lit "hi")) CONFIG.MAX_RETRIES online)) st3 = []
    ∧ fetches st3 = fetches (snd (loadPost (Some (lit "hi")) CONFIG.MAX_RETRIES online)).
Proof.
  apply (loadPost_again_from_memory online (Some (lit "hi")) CONFIG.MAX_RETRIES
           (lit "<p>hello</p>") (snd (loadPost (Some (lit "hi")) CONFIG.MAX_RETRIES online))).
  - vm_compute. reflexivity.
  - reflexivity.
Defined.

(** C4. A read of the persistent cache that finds an entry as old as the
    time to live or older removes the entry and returns nothing, so that
    the [loadPost] that made the read, and one that follows it, go to the
    network when the memory cache has nothing for the slug; a read that
    finds a younger entry returns its payload and leaves the store as it
    is. *)
Theorem getFromCache_time_to_live st slug data t :
  storageDenied st = false →
  localStorage st !! cache_key slug = Some (Entry data t) →
  ((CONFIG.CACHE_DURATION <= now st - t)%Z →
     ∃ st',
       getFromCache slug st = (Ok None, st')
       ∧ localStorage st' = delete (cache_key slug) (localStorage st)
       ∧ localStorage st' !! cache_key slug = None
       ∧ new_events st st' = [EvGetItem (cache_key slug); EvRemoveItem (cache_key slug)]
       ∧ (loadedPosts st !! slug = None →
            (∃ r st'' rest,
               loadPost slug CONFIG.MAX_RETRIES st = (r, st'')
               ∧ new_events st st'' =
                   EvGetItem (cache_key slug) :: EvRemoveItem (cache_key slug)
                     :: EvFetch (post_url slug) :: rest)
            ∧ (∃ r st'' rest,
                 loadPost slug CONFIG.MAX_RETRIES st' = (r, st'')
                 ∧ new_events st' st'' =
                     EvGetItem (cache_key slug) :: EvFetch (post_url slug) :: rest)))
  ∧ ((now st - t < CONFIG.CACHE_DURATION)%Z →
       ∃ st',
         getFromCache slug st = (Ok (Some data), st')
         ∧ localStorage st' = localStorage st
         ∧ localStorage st' !! cache_key slug = Some (Entry data t)).
Proof.
  intros Hden Hentry. split.
  - intros Hold. rewrite getFromCache_run, Hden, Hentry.
    replace (now st - t <? CONFIG.CACHE_DURATION)%Z with false
      by (symmetry; apply Z.ltb_ge; lia).
    eexists. split; [reflexivity|]. split; [reflexivity|].
    split; [simpl; apply lookup_delete_eq|].
    split. { apply new_events_app. simpl. by rewrite <- app_assoc. }
    intros Hmem. split.
    + rewrite loadPost_run, Hmem, getFromCache_run, Hden, Hentry.
      replace (now st - t <? CONFIG.CACHE_DURATION)%Z with false
        by (symmetry; apply Z.ltb_ge; lia).
      match goal with |- context [retry_loop _ _ _ _ ?s] => set (st1 := s) end.
      destruct (retry_loop_fetches_first CONFIG.MAX_RETRIES slug CONFIG.MAX_RETRIES st1)
        as (r & st'' & rest & Hrun & Hev); [unfold CONFIG.MAX_RETRIES; lia..|].
      exists r, st'', rest. split; [exact Hrun|].
      apply new_events_app. rewrite Hev. simpl. by rewrite <- !app_assoc.
    + rewrite loadPost_run. simpl loadedPosts. rewrite Hmem, getFromCache_run.
      simpl storageDenied. rewrite Hden. simpl localStorage. rewrite lookup_delete_eq.
      match goal with |- context [retry_loop _ _ _ _ ?s] => set (st1 := s) end.
      destruct (retry_loop_fetches_first CONFIG.MAX_RETRIES slug CONFIG.MAX_RETRIES st1)
        as (r & st'' & rest & Hrun & Hev); [unfold CONFIG.MAX_RETRIES; lia..|].
      exists r, st'', rest. split; [exact Hrun|].
      apply new_events_app. rewrite Hev. simpl. by rewrite <- !app_assoc.
  - intros Hyoung. rewrite getFromCache_run, Hden, Hentry.
    replace (now st - t <? CONFIG.CACHE_DURATION)%Z with true
      by (symmetry; apply Z.ltb_lt; lia).
    eexists. split; [reflexivity|]. split; [reflexivity|]. exact Hentry.
Qed.

(** ** Search *)

Lemma trimStart_nil s : trimStart s = [] ↔ blank s.
Proof.
  unfold blank. induction s as [|c s IH]; simpl.
  - split; [constructor|done].
  - destruct (is_white_space c) eqn:Hc.
    + rewrite IH. split; [by constructor|]. by inversion 1.
    + split; [done|]. inversion 1; congruence.
Qed.

Lemma trimStart_blank s : blank (trimStart s) → blank s.
Proof.
  unfold blank. induction s as [|c s IH]; simpl; [done|].
  destruct (is_white_space c) eqn:Hc.
  - intros H. constructor; [done|by apply IH].
  - inversion 1; congruence.
Qed.

Lemma trim_nil s : trim s = [] ↔ blank s.
Proof.
  unfold trim. split.
  - intros H. apply trimStart_blank.
    apply (f_equal (@rev N)) in H. rewrite rev_involutive in H. simpl in H.
    apply trimStart_nil in H. unfold blank in *.
    apply List.Forall_rev in H. by rewrite rev_involutive in H.
  - intros H. apply trimStart_nil in H. by rewrite H.
Qed.

Lemma truthy_trim s : truthy_string (trim s) = false ↔ blank s.
Proof. rewrite <- trim_nil. by destruct (trim s). Qed.

Section SearchProofs.
Variable toLowerCase : jsstring -> jsstring.

Lemma includes_contains_ci s query :
  includes (toLowerCase s) (toLowerCase query) = true ↔ contains_ci toLowerCase s query.
Proof. apply includes_substring. Qed.

Lemma some_tag_strings lq tags :
  Forall is_string tags →
  ∃ b, some_tag toLowerCase lq tags = Ok b
       ∧ (b = true ↔ ∃ tag, In (JStr tag) tags ∧ includes (toLowerCase tag) lq = true).
Proof.
  induction 1 as [|v tags [s ->] _ IH]; simpl.
  - exists false. split; [done|]. split; [done|]. by intros (tag & [] & _).
  - destruct (includes (toLowerCase s) lq) eqn:Hs.
    + exists true. split; [done|]. split; [|done]. intros _. exists s. by split; [left|].
    + destruct IH as (b & -> & Hb). exists b. split; [done|]. rewrite Hb. split.
      * intros (tag & Hin & Hinc). exists tag. by split; [right|].
      * intros (tag & [Heq|Hin] & Hinc); [|by exists tag].
        injection Heq as ->. congruence.
Qed.

(** The callback on a summary without tags reads the title and, when the
    title does not match, the excerpt, and nothing else. *)
Lemma matches_untagged lq ms title excerpt :
  lookup_member (lit "title") ms = Some (JStr title) →
  lookup_member (lit "excerpt") ms = Some (JStr excerpt) →
  lookup_member (lit "tags") ms = None →
  matches toLowerCase lq (JObj ms)
  = Ok (includes (toLowerCase title) lq || includes (toLowerCase excerpt) lq).
Proof.
  intros Ht He Hg. unfold matches. cbn [get_member mbind Res_bind].
  rewrite Ht. cbn [call_toLowerCase mbind Res_bind].
  destruct (includes (toLowerCase title) lq); [reflexivity|].
  rewrite He. cbn [call_toLowerCase mbind Res_bind].
  destruct (includes (toLowerCase excerpt) lq); [reflexivity|].
  rewrite Hg. reflexivity.
Qed.

(** On a summary the callback returns, and says whether the summary is
    selected. *)
Lemma matches_summary query p :
  summary p →
  ∃ b, matches toLowerCase (toLowerCase query) p = Ok b
       ∧ (b = true ↔ selected toLowerCase query p).
Proof.
  intros (ms & title & excerpt & -> & Ht & He & Htags).
  unfold selected, member; fold (lit "title") (lit "excerpt") (lit "tags").
  unfold matches. cbn [get_member mbind Res_bind].
  rewrite Ht, He. cbn [call_toLowerCase mbind Res_bind].
  destruct (includes (toLowerCase title) _) eqn:H1.
  { exists true. split; [done|]. split; [|done]. intros _. left. exists title.
    split; [done|]. by apply includes_contains_ci. }
  destruct (includes (toLowerCase excerpt) _) eqn:H2.
  { exists true. split; [done|]. split; [|done]. intros _. right; left. exists excerpt.
    split; [done|]. by apply includes_contains_ci. }
  assert (Hno1 : ¬ ∃ t, Some (JStr title) = Some (JStr t) ∧ contains_ci toLowerCase t query).
  { intros (t & [= <-] & Hc). apply includes_contains_ci in Hc. congruence. }
  assert (Hno2 : ¬ ∃ t, Some (JStr excerpt) = Some (JStr t) ∧ contains_ci toLowerCase t query).
  { intros (t & [= <-] & Hc). apply includes_contains_ci in Hc. congruence. }
  destruct Htags as [Hg|(tags & Hg & Hstr)]; rewrite Hg.
  - exists false. split; [done|]. split; [done|].
    intros [H|[H|(tags & tag & H & _)]]; [by destruct Hno1|by destruct Hno2|done].
  - cbn [tags_match truthy].
    destruct (some_tag_strings (toLowerCase query) tags Hstr) as (b & -> & Hb).
    exists b. split; [done|]. rewrite Hb. split.
    + intros (tag & Hin & Hinc). right; right. exists tags, tag.
      split; [done|]. split; [done|]. by apply includes_contains_ci.
    + intros [H|[H|(tags' & tag & [= <-] & Hin & Hc)]];
        [by destruct Hno1|by destruct Hno2|].
      exists tag. split; [done|]. by apply includes_contains_ci.
Qed.

(** A filter whose callback returns on every item keeps, in order, the
    items on which it returns true. *)
Lemma Array_filter_total callback items :
  (∀ p, In p items → ∃ b, callback p = Ok b) →
  Array_filter callback items
  = Ok (List.filter (λ p, match callback p with Ok b => b | Throw _ => false end) items).
Proof.
  induction items as [|x items IH]; intros Hall; [done|].
  cbn [Array_filter List.filter mbind Res_bind].
  destruct (Hall x) as [b Hb]; [by left|]. rewrite Hb, IH.
  - by destruct b.
  - intros p Hp. apply Hall. by right.
Qed.

Lemma performSearch_summaries items query :
  Forall summary items →
  ¬ blank query →
  ∃ keep,
    performSearch toLowerCase (JArr items) query = Ok (JArr (List.filter keep items))
    ∧ ∀ p, In p items → (keep p = true ↔ selected toLowerCase query p).
Proof.
  intros Hsum Hq. unfold performSearch.
  destruct (truthy_string (trim query)) eqn:Ht; [|by apply truthy_trim in Ht].
  cbn [negb mbind Res_bind].
  rewrite Array_filter_total.
  - eexists. split; [reflexivity|]. intros p Hp. rewrite List.Forall_forall in Hsum.
    destruct (matches_summary query p) as (b & Hb & Hsel); [by apply Hsum|].
    by rewrite Hb.
  - intros p Hp. rewrite List.Forall_forall in Hsum.
    destruct (matches_summary query p) as (b & Hb & _); [by apply Hsum|]. by exists b.
Qed.

Lemma performSearch_blank all query :
  blank query → performSearch toLowerCase all query = Ok all.
Proof. intros H. apply truthy_trim in H. unfold performSearch. by rewrite H. Qed.
End SearchProofs.

Lemma hello_search toLowerCase query :
  truthy_string (trim query) = true →
  performSearch toLowerCase (JArr [hello]) query
  = Ok (JArr (if includes (toLowerCase (lit "Hello")) (toLowerCase query)
                   || includes (toLowerCase (lit "world")) (toLowerCase query)
              then [hello] else [])).
Proof.
  intros Hq. unfold performSearch. rewrite Hq. cbn [negb Array_filter mbind Res_bind].
  unfold hello.
  rewrite (matches_untagged toLowerCase _ _ (lit "Hello") (lit "world"));
    [|vm_compute; reflexivity..].
  by destruct (_ || _).
Qed.

Ltac ascii_literal :=
  unfold is_ascii; vm_compute; repeat (constructor; [reflexivity|]); constructor.

(** C5. On a loaded list of summaries, a search with an empty query or one
    of white space alone returns the whole list as it is, a search with
    any other query returns, in the order of the list, exactly the
    summaries whose title, excerpt or some tag contains the query
    regardless of case; on the index that holds the one post [hi], titled
    Hello, with excerpt world, the search for ell returns it and the
    search for zzz returns nothing. *)
Theorem performSearch_specification (toLowerCase : jsstring → jsstring) (items : list json) :
  Forall summary items →
  (∀ s, is_ascii s → toLowerCase s = map ascii_lower s) →
  (∀ query, blank query → performSearch toLowerCase (JArr items) query = Ok (JArr items))
  ∧ (∀ query, ¬ blank query →
       ∃ keep,
         performSearch toLowerCase (JArr items) query = Ok (JArr (List.filter keep items))
         ∧ ∀ p, In p items → (keep p = true ↔ selected toLowerCase query p))
  ∧ (∃ found, performSearch toLowerCase (JArr [hello]) (lit "ell") = Ok found
              ∧ slugs found = [Some (JStr (lit "hi"))])
  ∧ (∃ found, performSearch toLowerCase (JArr [hello]) (lit "zzz") = Ok found
              ∧ slugs found = []).
Proof.
  intros Hsum Hlow.
  split; [intros query Hq; by apply performSearch_blank|].
  split; [intros query Hq; by apply performSearch_summaries|].
  assert (E1 : toLowerCase (lit "Hello") = lit "hello").
  { rewrite Hlow; [vm_compute; reflexivity|ascii_literal]. }
  assert (E2 : toLowerCase (lit "world") = lit "world").
  { rewrite Hlow; [vm_compute; reflexivity|ascii_literal]. }
  assert (E3 : toLowerCase (lit "ell") = lit "ell").
  { rewrite Hlow; [vm_compute; reflexivity|ascii_literal]. }
  assert (E4 : toLowerCase (lit "zzz") = lit "zzz").
  { rewrite Hlow; [vm_compute; reflexivity|ascii_literal]. }
  split.
  - eexists. rewrite hello_search, E1, E2, E3; [|vm_compute; reflexivity].
    split; [reflexivity|]. vm_compute. reflexivity.
  - eexists. rewrite hello_search, E1, E2, E4; [|vm_compute; reflexivity].
    split; [reflexivity|]. vm_compute. reflexivity.
Qed.

Lemma hello_is_summary : summary hello.
Proof.
  exists [(lit "slug", JStr (lit "hi")); (lit "title", JStr (lit "Hello"));
          (lit "excerpt", JStr (lit "world")); (lit "date", JStr (lit "2024-01-01"))],
         (lit "Hello"), (lit "world").
  split; [reflexivity|]. split; [vm_compute; reflexivity|].
  split; [vm_compute; reflexivity|]. left. vm_compute. reflexivity.
Defined.

Lemma performSearch_specification_witness :
  (∀ query, blank query →
     performSearch (map ascii_lower) (JArr [hello]) query = Ok (JArr [hello]))
  ∧ (∀ query, ¬ blank query →
       ∃ keep,
         performSearch (map ascii_lower) (JArr [hello]) query
         = Ok (JArr (List.filter keep [hello]))
         ∧ ∀ p, In p [hello] → (keep p = true ↔ selected (map ascii_lower) query p))
  ∧ (∃ found, performSearch (map ascii_lower) (JArr [hello]) (lit "ell") = Ok found
              ∧ slugs found = [Some (JStr (lit "hi"))])
  ∧ (∃ found, performSearch (map ascii_lower) (JArr [hello]) (lit "zzz") = Ok found
              ∧ slugs found = []).
Proof.
  apply (performSearch_specification (map ascii_lower) [hello]).
  - constructor; [exact hello_is_summary|constructor].
  - intros s _. reflexivity.
Defined.

(** C10. On summaries, [performSearch] returns whatever the query, also
    when a summary has no tags: such a summary is in the result of a
    search with a query that is not blank exactly when its title or its
    excerpt contains the query regardless of case, and the callback of the
    filter stops at the guard on the missing member. *)
Theorem performSearch_without_tags (toLowerCase : jsstring → jsstring)
    (items : list json) (query : jsstring) :
  Forall summary items →
  ∃ found,
    performSearch toLowerCase (JArr items) query = Ok (JArr found)
    ∧ ∀ p, In p items → member "tags" p = None →
        (∃ b, matches toLowerCase (toLowerCase query) p = Ok b
              ∧ (b = true ↔ selected_without_tags toLowerCase query p))
        ∧ (In p found ↔ blank query ∨ selected_without_tags toLowerCase query p).
Proof.
  intros Hsum.
  assert (Hsel : ∀ p, member "tags" p = None →
            (selected toLowerCase query p ↔ selected_without_tags toLowerCase query p)).
  { intros p Hp. unfold selected, selected_without_tags. rewrite Hp. split.
    - intros [H|[H|(tags & tag & H & _)]]; [by left|by right|done].
    - intros [H|H]; [by left|by right; left]. }
  destruct (truthy_string (trim query)) eqn:Ht.
  - assert (Hq : ¬ blank query).
    { intros Hb. apply truthy_trim in Hb. congruence. }
    destruct (performSearch_summaries toLowerCase items query Hsum Hq) as (keep & Hrun & Hkeep).
    exists (List.filter keep items). split; [exact Hrun|].
    intros p Hp Hnotags. split.
    + rewrite List.Forall_forall in Hsum.
      destruct (matches_summary toLowerCase query p (Hsum p Hp)) as (b & Hb & Hbs).
      exists b. split; [done|]. by rewrite Hbs, Hsel.
    + rewrite filter_In, Hkeep, Hsel by done. split.
      * intros [_ H]. by right.
      * intros [H|H]; [done|by split].
  - apply truthy_trim in Ht. exists items.
    split; [by apply performSearch_blank|].
    intros p Hp Hnotags. split.
    + rewrite List.Forall_forall in Hsum.
      destruct (matches_summary toLowerCase query p (Hsum p Hp)) as (b & Hb & Hbs).
      exists b. split; [done|]. by rewrite Hbs, Hsel.
    + split; [by left|done].
Qed.

Lemma performSearch_without_tags_witness :
  ∃ found,
    performSearch (map ascii_lower) (JArr [hello]) (lit "WOR") = Ok (JArr found)
    ∧ ∀ p, In p [hello] → member "tags" p = None →
        (∃ b, matches (map ascii_lower) (map ascii_lower (lit "WOR")) p = Ok b
              ∧ (b = true ↔ selected_without_tags (map ascii_lower) (lit "WOR") p))
        ∧ (In p found ↔ blank (lit "WOR") ∨ selected_without_tags (map ascii_lower) (lit "WOR") p).
Proof.
  apply (performSearch_without_tags (map ascii_lower) [hello] (lit "WOR")).
  constructor; [exact hello_is_summary|constructor].
Defined.

Lemma getFromCache_time_to_live_witness :
  (∃ st', getFromCache (Some (lit "hi")) (revisit 3600000) = (Ok None, st')
          ∧ localStorage st' !! cache_key (Some (lit "hi")) = None)
  ∧ (∃ st', getFromCache (Some (lit "hi")) (revisit 3599999)
            = (Ok (Some (lit "<p>hello</p>")), st')
            ∧ localStorage st' = localStorage (revisit 3599999)).
Proof.
  split.
  - destruct (getFromCache_time_to_live (revisit 3600000) (Some (lit "hi"))
                (lit "<p>hello</p>") 0) as [Hold _];
      [reflexivity|vm_compute; reflexivity|].
    destruct Hold as (st' & Hrun & _ & Hgone & _); [vm_compute; discriminate|].
    exists st'. by split.
  - destruct (getFromCache_time_to_live (revisit 3599999) (Some (lit "hi"))
                (lit "<p>hello</p>") 0) as [_ Hyoung];
      [reflexivity|vm_compute; reflexivity|].
    destruct Hyoung as (st' & Hrun & Hsame & _); [vm_compute; reflexivity|].
    exists st'. by split.
Defined.

(** ** Loading the index *)

Lemma loadPosts_run sort_newest_first st :
  loadPosts sort_newest_first st =
  let st1 := fetched index_url st in
  let failed s := (Ok tt, set_allPosts (JArr []) (set_posts [] s)) in
  match network st (fetches st) index_url with
  | Rejected e => failed st1
  | Response s t j =>
    if status_ok s then
      match j with
      | Throw e => failed st1
      | Ok all =>
        match spread all with
        | Throw e => failed (set_allPosts all st1)
        | Ok copy =>
          match sort_newest_first copy with
          | Throw e => failed (set_posts copy (set_allPosts all st1))
          | Ok sorted => (Ok tt, set_posts sorted (set_posts copy (set_allPosts all st1)))
          end
        end
      end
    else failed st1
  end.
Proof. destruct st; unfold loadPosts; run; crunch. Qed.

(** C6. When the load of the index fails, by a rejected fetch, a status
    that is no success, a body that is not JSON or JSON that cannot be
    iterated, [loadPosts] returns normally after that one fetch, with no
    suspension and no second fetch, and leaves both lists empty: the same
    lists that the load of an empty index leaves. *)
Theorem loadPosts_failure_is_empty (sort_newest_first : list json → Res (list json)) st :
  index_load_fails (network st (fetches st) index_url) →
  ∃ st',
    loadPosts sort_newest_first st = (Ok tt, st')
    ∧ posts st' = [] ∧ allPosts st' = JArr []
    ∧ new_events st st' = [EvFetch index_url]
    ∧ fetches st' = S (fetches st)
    ∧ (sort_newest_first [] = Ok [] →
       ∀ ste text,
         network ste (fetches ste) index_url = Response 200 text (Ok (JArr [])) →
         ∃ ste',
           loadPosts sort_newest_first ste = (Ok tt, ste')
           ∧ posts ste' = posts st' ∧ allPosts ste' = allPosts st').
Proof.
  intros Hfail.
  assert (Hrun : ∃ st',
    loadPosts sort_newest_first st = (Ok tt, st')
    ∧ posts st' = [] ∧ allPosts st' = JArr []
    ∧ events st' = events st ++ [EvFetch index_url]
    ∧ fetches st' = S (fetches st)).
  { rewrite loadPosts_run. cbv zeta.
    destruct (network st (fetches st) index_url) as [e|s t j]; simpl in Hfail.
    - eexists. split; [reflexivity|]. by repeat split.
    - destruct Hfail as [Hs|[[e ->]|(v & e & -> & Hv)]].
      + rewrite Hs. eexists. split; [reflexivity|]. by repeat split.
      + destruct (status_ok s); eexists; (split; [reflexivity|]); by repeat split.
      + rewrite Hv. destruct (status_ok s); eexists; (split; [reflexivity|]); by repeat split. }
  destruct Hrun as (st' & Hrun & Hp & Ha & Hev & Hfe). exists st'.
  split; [exact Hrun|]. split; [exact Hp|]. split; [exact Ha|].
  split; [by apply new_events_app|]. split; [exact Hfe|].
  intros Hsort ste text Hnet. rewrite loadPosts_run, Hnet. cbv zeta.
  cbn [status_ok spread]. rewrite Hsort.
  eexists. split; [reflexivity|]. rewrite Hp, Ha. by split.
Qed.

Lemma loadPosts_failure_is_empty_witness :
  ∃ st',
    loadPosts Ok offline = (Ok tt, st')
    ∧ posts st' = [] ∧ allPosts st' = JArr []
    ∧ new_events offline st' = [EvFetch index_url]
    ∧ fetches st' = S (fetches offline)
    ∧ (@Ok (list json) [] = Ok [] →
       ∀ ste text,
         network ste (fetches ste) index_url = Response 200 text (Ok (JArr [])) →
         ∃ ste',
           loadPosts Ok ste = (Ok tt, ste')
           ∧ posts ste' = posts st' ∧ allPosts ste' = allPosts st').
Proof.
  apply (loadPosts_failure_is_empty Ok offline). exact I.
Defined.

(** ** Navigation *)

Lemma unchanged_same_navigation st st' : unchanged st st' → same_navigation st st'.
Proof. unfold unchanged, same_navigation. intros H. destruct_and!. by repeat split. Qed.

Lemma same_navigation_trans st1 st2 st3 :
  same_navigation st1 st2 → same_navigation st2 st3 → same_navigation st1 st3.
Proof. unfold same_navigation. intros H1 H2. destruct_and!. repeat split; congruence. Qed.

Lemma loadPost_frame slug retries st r st' :
  loadPost slug retries st = (r, st') → unchanged st st'.
Proof.
  rewrite loadPost_run. destruct (loadedPosts st !! slug).
  { intros [= <- <-]. apply unchanged_refl. }
  destruct (getFromCache_frame slug st) as (o & st1 & -> & Hu & _).
  assert (Hloop : retry_loop retries slug retries 0 st1 = (r, st') → unchanged st st').
  { intros H. apply retry_loop_frame in H as [H _]. by eapply unchanged_trans. }
  destruct o as [data|]; [|exact Hloop].
  destruct (truthy_string data); [|exact Hloop].
  intros [= <- <-]. eapply unchanged_trans; [exact Hu|apply unchanged_remembered].
Qed.

Lemma renderPostsList_run st :
  renderPostsList st =
  match read_cards (posts st) with
  | Ok _ => (Ok (PostsList (posts st)), st)
  | Throw e => (Throw e, st)
  end.
Proof.
  unfold renderPostsList, mbind, Js_bind, gets, lift, mret, Js_ret.
  by destruct (read_cards (posts st)).
Qed.

Lemma renderPost_frame slug st r st' : renderPost slug st = (r, st') → unchanged st st'.
Proof.
  unfold renderPost, mbind, Js_bind, gets, lift, mret, Js_ret.
  assert (Hload : ∀ p,
    match loadPost slug CONFIG.MAX_RETRIES st with
    | (Ok a, s) => (Ok (PostView p (returned <$> a)), s)
    | (Throw e, s) => (Throw e, s)
    end = (r, st') → unchanged st st').
  { intros p. destruct (loadPost slug CONFIG.MAX_RETRIES st) as [[a|e] s] eqn:Hl;
      intros [= <- <-]; by eapply loadPost_frame. }
  destruct (find_post slug (posts st)) as [[p|]|e].
  - apply Hload.
  - destruct (find_in slug (allPosts st)) as [[p|]|e].
    + apply Hload.
    + intros [= <- <-]. apply unchanged_refl.
    + intros [= <- <-]. apply unchanged_refl.
  - intros [= <- <-]. apply unchanged_refl.
Qed.

Lemma view_content_frame st r st' : view_content st = (r, st') → unchanged st st'.
Proof.
  unfold view_content, mbind, Js_bind, gets, mret, Js_ret.
  assert (Hlist : renderPostsList st = (r, st') → unchanged st st').
  { rewrite renderPostsList_run. destruct (read_cards _); intros [= <- <-]; apply unchanged_refl. }
  repeat case_bool_decide; try exact Hlist.
  - apply renderPost_frame.
  - intros [= <- <-]. apply unchanged_refl.
  - intros [= <- <-]. apply unchanged_refl.
Qed.

Lemma render_run st :
  render st =
  match view_content (set_loadingHidden false st) with
  | (Ok content, st2) => (Ok tt, set_loadingHidden true (set_appHtml content st2))
  | (Throw e, st2) => (Ok tt, st2)
  end.
Proof.
  unfold render, detached, try_catch, showLoading, hideLoading, mbind, Js_bind, modify, mret,
    Js_ret.
  by destruct (view_content (set_loadingHidden false st)) as [[c|e] st2].
Qed.

(** A render returns, leaves index, navigation state and history alone,
    and shows what the switch on the view computes, when that returns. *)
Lemma render_shows st :
  ∃ st',
    render st = (Ok tt, st')
    ∧ same_navigation st st'
    ∧ ∀ content st2,
        view_content (set_loadingHidden false st) = (Ok content, st2) →
        appHtml st' = content ∧ loadingHidden st' = true.
Proof.
  rewrite render_run.
  destruct (view_content (set_loadingHidden false st)) as [[c|e] st2] eqn:Hv;
    apply view_content_frame, unchanged_same_navigation in Hv;
    (eexists; split; [reflexivity|]); (split; [|by intros ? ? [= <- <-]]).
  - eapply same_navigation_trans; [|eapply same_navigation_trans; [exact Hv|]];
      by unfold same_navigation.
  - eapply same_navigation_trans; [|exact Hv]. by unfold same_navigation.
Qed.

Lemma updatePageMeta_state st : ∃ r, updatePageMeta st = (r, st).
Proof.
  unfold updatePageMeta, mbind, Js_bind, gets, lift, mret, Js_ret.
  destruct (_ && _); [|by eexists].
  destruct (find_post _ _); by eexists.
Qed.

Lemma updatePageMeta_home st : currentView st = lit "home" → updatePageMeta st = (Ok tt, st).
Proof.
  intros Hv. unfold updatePageMeta, mbind, Js_bind, gets, lift, mret, Js_ret. by rewrite Hv.
Qed.

(** The listener of [popstate] puts the pair of the entry back, pushes
    nothing, and renders. *)
Lemma onPopState_restores s st :
  ∃ st',
    dispatch (onPopState (Some s)) st = (Ok tt, st')
    ∧ currentView st' = nav_view s ∧ currentSlug st' = nav_slug s
    ∧ posts st' = posts st
    ∧ history st' = history st ∧ historyIndex st' = historyIndex st
    ∧ pushes (events st') = pushes (events st)
    ∧ ∀ content st2,
        view_content
          (set_loadingHidden false (set_currentSlug (nav_slug s) (set_currentView (nav_view s) st)))
        = (Ok content, st2) →
        appHtml st' = content ∧ loadingHidden st' = true.
Proof.
  set (st1 := set_currentSlug (nav_slug s) (set_currentView (nav_view s) st)).
  destruct (render_shows st1) as (st' & Hr & Hn & Hc).
  destruct (updatePageMeta_state st') as [r Hm].
  exists st'. split.
  - unfold dispatch, try_catch, onPopState, mbind, Js_bind, modify. fold st1.
    rewrite Hr, Hm. by destruct r as [[]|e].
  - unfold same_navigation in Hn. destruct Hn as (H1 & H2 & H3 & H4 & H5 & H6 & H7).
    subst st1. simpl in *. split_and!; try congruence. exact Hc.
Qed.

(** A navigation with a push sets the pair, drops the entries ahead and
    adds one for the pair, which becomes the current entry. *)
Lemma navigateTo_pushes view slug st :
  ∃ st',
    dispatch (navigateTo view slug true) st = (Ok tt, st')
    ∧ currentView st' = view ∧ currentSlug st' = slug
    ∧ posts st' = posts st
    ∧ history st' = take (S (historyIndex st)) (history st) ++ [Some (mkNav view slug)]
    ∧ historyIndex st' = S (historyIndex st)
    ∧ pushes (events st') = pushes (events st) ++ [mkNav view slug].
Proof.
  unfold dispatch, try_catch, navigateTo, history_pushState, emit, mbind, Js_bind, modify.
  match goal with
  | |- context [updatePageMeta ?s] => set (st1 := s)
  end.
  destruct (updatePageMeta_state st1) as [r Hm]. rewrite Hm.
  assert (H1 : currentView st1 = view ∧ currentSlug st1 = slug ∧ posts st1 = posts st
               ∧ history st1 = take (S (historyIndex st)) (history st) ++ [Some (mkNav view slug)]
               ∧ historyIndex st1 = S (historyIndex st)
               ∧ pushes (events st1) = pushes (events st) ++ [mkNav view slug]).
  { subst st1. simpl. rewrite pushes_snoc. by split_and!. }
  destruct r as [[]|e]; [|by exists st1].
  destruct (render_shows st1) as (st' & Hr & Hn & _). rewrite Hr.
  exists st'. split; [done|].
  unfold same_navigation in Hn. destruct Hn as (H2 & H3 & H4 & H5 & H6 & H7 & H8).
  destruct H1 as (? & ? & ? & ? & ? & ?). split_and!; congruence.
Qed.

Lemma history_back_run j s st :
  historyIndex st = S j →
  history st !! j = Some (Some s) →
  history_back st = dispatch (onPopState (Some s)) (set_historyIndex j st).
Proof.
  intros Hi Hh. unfold history_back, mbind, Js_bind, gets, modify. rewrite Hi.
  cbn [history set_historyIndex]. by rewrite Hh.
Qed.

(** ** The search page *)

Module SearchPageProofs.
Import SearchPage.

Section WithBlog.
Variable toLowerCase : jsstring -> jsstring.
Variable allPosts : json.

Abbreviation displayResults := (displayResults toLowerCase allPosts).
Abbreviation fire_due := (fire_due toLowerCase allPosts).
Abbreviation handle := (handle toLowerCase allPosts).
Abbreviation run := (run toLowerCase allPosts).
Abbreviation advance := (advance toLowerCase allPosts).

(** A call of [displayResults] is recorded and touches neither the
    input nor the timer. *)
Lemma displayResults_fields query p :
  evaluations (displayResults query p) = evaluations p ++ [(clock p, query)]
  ∧ clock (displayResults query p) = clock p
  ∧ inputValue (displayResults query p) = inputValue p
  ∧ searchTimeout (displayResults query p) = searchTimeout p.
Proof.
  unfold SearchPage.displayResults.
  destruct (performSearch toLowerCase allPosts query) as [[| | | |[|x l]|]|e];
    destruct (negb (truthy_string (trim query))); done.
Qed.

Lemma displayResults_empty p : searchResults (displayResults [] p) = Hint.
Proof. reflexivity. Qed.

Lemma run_keystroke t v ks p :
  run (keystrokes ((t, v) :: ks)) p = run (keystrokes ks) (handle (Input t v) p).
Proof. reflexivity. Qed.

(** While a timer is pending for the keystroke [(t0, v0)], the
    keystrokes that follow and the passing of time until [T] add one
    evaluation for each keystroke after which the input stayed quiet. *)
Lemma run_pending ks : ∀ t0 v0 p T,
  clock p = t0 → inputValue p = v0 →
  searchTimeout p = Some (t0 + CONFIG.DEBOUNCE_DELAY)%Z →
  in_time_order t0 ks →
  (last_time t0 ks + CONFIG.DEBOUNCE_DELAY <= T)%Z →
  evaluations (advance T (run (keystrokes ks) p))
  = evaluations p ++ map fires_at (quiet ((t0, v0) :: ks)).
Proof.
  induction ks as [|[t v] ks IH]; intros t0 v0 p T Hc Hv Hp Ho HT.
  - simpl in HT. cbn [keystrokes map SearchPage.run fold_left quiet].
    unfold SearchPage.advance, SearchPage.fire_due. rewrite Hp.
    replace (t0 + CONFIG.DEBOUNCE_DELAY <=? T)%Z with true by (symmetry; apply Z.leb_le; lia).
    cbn [evaluations].
    destruct (displayResults_fields (inputValue p)
                (mkPage (t0 + CONFIG.DEBOUNCE_DELAY) (inputValue p) None (searchResults p)
                   (evaluations p))) as (-> & _).
    by rewrite Hv.
  - destruct Ho as [Ht Ho]. simpl in HT. rewrite run_keystroke.
    set (p1 := handle (Input t v) p).
    assert (H1 : clock p1 = t ∧ inputValue p1 = v
                 ∧ searchTimeout p1 = Some (t + CONFIG.DEBOUNCE_DELAY)%Z
                 ∧ evaluations p1
                   = evaluations p
                     ++ (if (t0 + CONFIG.DEBOUNCE_DELAY <=? t)%Z
                         then [fires_at (t0, v0)] else [])).
    { subst p1. unfold SearchPage.handle, SearchPage.fire_due. cbn [time_of fst snd].
      rewrite Hp. destruct (t0 + CONFIG.DEBOUNCE_DELAY <=? t)%Z.
      - cbn [clock inputValue searchTimeout evaluations].
        destruct (displayResults_fields (inputValue p)
                    (mkPage (t0 + CONFIG.DEBOUNCE_DELAY) (inputValue p) None (searchResults p)
                       (evaluations p))) as (-> & _).
        by rewrite Hv.
      - cbn [clock inputValue searchTimeout evaluations]. by rewrite app_nil_r. }
    destruct H1 as (Hc1 & Hv1 & Hp1 & He1).
    rewrite (IH t v p1 T Hc1 Hv1 Hp1 Ho HT), He1.
    cbn [quiet]. destruct (t0 + CONFIG.DEBOUNCE_DELAY <=? t)%Z.
    + by rewrite <- app_assoc.
    + by rewrite app_nil_r.
Qed.

(** Through a burst no timer fires: the one that is pending at the end
    is that of the last keystroke. *)
Lemma run_burst ks : ∀ t0 v0 p,
  clock p = t0 →
  searchTimeout p = Some (t0 + CONFIG.DEBOUNCE_DELAY)%Z →
  in_time_order t0 ks →
  burst ((t0, v0) :: ks) →
  evaluations (run (keystrokes ks) p) = evaluations p
  ∧ searchTimeout (run (keystrokes ks) p)
    = Some (last_time t0 ks + CONFIG.DEBOUNCE_DELAY)%Z.
Proof.
  induction ks as [|[t v] ks IH]; intros t0 v0 p Hc Hp Ho Hb.
  - by split.
  - destruct Ho as [Ht Ho]. destruct Hb as [Hlt Hb].
    rewrite run_keystroke. cbn [last_time].
    set (p1 := handle (Input t v) p).
    assert (H1 : clock p1 = t ∧ searchTimeout p1 = Some (t + CONFIG.DEBOUNCE_DELAY)%Z
                 ∧ evaluations p1 = evaluations p).
    { subst p1. unfold SearchPage.handle, SearchPage.fire_due. cbn [time_of fst snd].
      rewrite Hp.
      replace (t0 + CONFIG.DEBOUNCE_DELAY <=? t)%Z with false
        by (symmetry; apply Z.leb_gt; lia).
      done. }
    destruct H1 as (Hc1 & Hp1 & He1).
    destruct (IH t v p1 Hc1 Hp1 Ho Hb) as [-> ->]. by rewrite He1.
Qed.

Lemma quiet_burst ks : ∀ k, burst ks → last ks = Some k → quiet ks = [k].
Proof.
  induction ks as [|[t v] ks IH]; intros k Hb Hl; [done|].
  destruct ks as [|[t' v'] ks].
  - by injection Hl as <-.
  - destruct Hb as [Hlt Hb]. cbn [quiet].
    replace (t + CONFIG.DEBOUNCE_DELAY <=? t')%Z with false
      by (symmetry; apply Z.leb_gt; lia).
    by apply IH.
Qed.

Lemma last_time_last ks : ∀ t0 k, last ks = Some k → last_time t0 ks = fst k.
Proof.
  induction ks as [|[t v] ks IH]; intros t0 k Hl; [done|].
  destruct ks as [|[t' v'] ks].
  - by injection Hl as <-.
  - cbn [last_time]. by apply (IH t).
Qed.
Lemma first_keystroke t v p :
  searchTimeout p = None →
  handle (Input t v) p
  = mkPage t v (Some (t + CONFIG.DEBOUNCE_DELAY)%Z) (searchResults p) (evaluations p).
Proof. intros Hp. unfold SearchPage.handle, SearchPage.fire_due. by rewrite Hp. Qed.

Lemma advance_early T p due :
  searchTimeout p = Some due → (T < due)%Z → evaluations (advance T p) = evaluations p.
Proof.
  intros Hp HT. unfold SearchPage.advance, SearchPage.fire_due. rewrite Hp.
  by replace (due <=? T)%Z with false by (symmetry; apply Z.leb_gt; lia).
Qed.

Lemma escape_fields t p :
  last (evaluations (handle (KeyEscape t) p)) = Some (t, [])
  ∧ searchResults (handle (KeyEscape t) p) = Hint
  ∧ inputValue (handle (KeyEscape t) p) = []
  ∧ evaluations (handle (KeyEscape t) p) = evaluations (fire_due t p) ++ [(t, [])].
Proof.
  unfold SearchPage.handle. cbn [time_of].
  set (q := mkPage t [] _ _ _).
  destruct (displayResults_fields [] q) as (He & _ & Hv & _).
  rewrite He, Hv, displayResults_empty. subst q. cbn [evaluations clock inputValue].
  by rewrite last_snoc.
Qed.

(** C8. Keystrokes that each come within the delay of the one before
    collapse into one evaluation, which runs when the input has been
    quiet for the delay and not before, with the value of the last
    keystroke; in general every keystroke that is followed by a quiet
    delay gets its evaluation at the end of that delay and no other
    keystroke gets one. The Escape key clears the input and evaluates at
    once, at the time of the key and not a delay later, also while a
    timer is pending, and resets the results to the hint. *)
Theorem debounce_collapses p ks :
  searchTimeout p = None →
  in_time_order (clock p) ks →
  (∀ T, (last_time (clock p) ks + CONFIG.DEBOUNCE_DELAY <= T)%Z →
     evaluations (advance T (run (keystrokes ks) p))
     = evaluations p ++ map fires_at (quiet ks))
  ∧ (burst ks → ∀ k, last ks = Some k →
       quiet ks = [k]
       ∧ (∀ T, (fst k + CONFIG.DEBOUNCE_DELAY <= T)%Z →
            evaluations (advance T (run (keystrokes ks) p))
            = evaluations p ++ [((fst k + CONFIG.DEBOUNCE_DELAY)%Z, snd k)])
       ∧ (∀ T, (T < fst k + CONFIG.DEBOUNCE_DELAY)%Z →
            evaluations (advance T (run (keystrokes ks) p)) = evaluations p))
  ∧ (∀ t,
       last (evaluations (handle (KeyEscape t) (run (keystrokes ks) p))) = Some (t, [])
       ∧ searchResults (handle (KeyEscape t) (run (keystrokes ks) p)) = Hint
       ∧ inputValue (handle (KeyEscape t) (run (keystrokes ks) p)) = []
       ∧ (burst ks → (t < last_time (clock p) ks + CONFIG.DEBOUNCE_DELAY)%Z →
            evaluations (handle (KeyEscape t) (run (keystrokes ks) p))
            = evaluations p ++ [(t, [])])).
Proof.
  intros Hp Ho.
  assert (HA : ∀ T, (last_time (clock p) ks + CONFIG.DEBOUNCE_DELAY <= T)%Z →
                 evaluations (advance T (run (keystrokes ks) p))
                 = evaluations p ++ map fires_at (quiet ks)).
  { intros T HT. destruct ks as [|[t v] ks].
    - cbn [keystrokes map SearchPage.run fold_left quiet].
      unfold SearchPage.advance, SearchPage.fire_due. rewrite Hp. cbn [evaluations].
      by rewrite app_nil_r.
    - destruct Ho as [Ht Ho]. rewrite run_keystroke, first_keystroke by done.
      by rewrite (run_pending ks t v _ T). }
  assert (HB : burst ks →
               evaluations (run (keystrokes ks) p) = evaluations p
               ∧ (searchTimeout (run (keystrokes ks) p) = None
                  ∨ searchTimeout (run (keystrokes ks) p)
                    = Some (last_time (clock p) ks + CONFIG.DEBOUNCE_DELAY)%Z)).
  { intros Hb. destruct ks as [|[t v] ks].
    - split; [done|by left].
    - destruct Ho as [Ht Ho]. rewrite run_keystroke, first_keystroke by done.
      destruct (run_burst ks t v
                  (mkPage t v (Some (t + CONFIG.DEBOUNCE_DELAY)%Z) (searchResults p)
                     (evaluations p))) as [He Hs]; try done.
      split; [exact He|by right]. }
  split; [exact HA|]. split.
  - intros Hb k Hk. pose proof (quiet_burst ks k Hb Hk) as Hq.
    pose proof (last_time_last ks (clock p) k Hk) as Hl.
    split; [exact Hq|]. split.
    + intros T HT. rewrite HA by lia. by rewrite Hq.
    + intros T HT. destruct (HB Hb) as [He [Hs|Hs]].
      * unfold SearchPage.advance, SearchPage.fire_due. rewrite Hs. exact He.
      * rewrite (advance_early T _ _ Hs) by lia. exact He.
  - intros t. destruct (escape_fields t (run (keystrokes ks) p)) as (H1 & H2 & H3 & H4).
    split_and!; try done.
    intros Hb Ht. rewrite H4. destruct (HB Hb) as [He [Hs|Hs]].
    + unfold SearchPage.fire_due. by rewrite Hs, He.
    + unfold SearchPage.fire_due. rewrite Hs.
      replace (_ <=? t)%Z with false by (symmetry; apply Z.leb_gt; lia).
      by rewrite He.
Qed.
End WithBlog.

Lemma debounce_collapses_witness :
evaluations
  (SearchPage.advance (map ascii_lower) (JArr [hello]) 1000
     (SearchPage.run (map ascii_lower) (JArr [hello])
        (keystrokes [(100, lit "h"); (250, lit "he"); (500, lit "hel")]%Z)
        (mkPage 0 [] None Hint [])))
= [(800%Z, lit "hel")].
Proof.
destruct (debounce_collapses (map ascii_lower) (JArr [hello]) (mkPage 0 [] None Hint [])
            [(100, lit "h"); (250, lit "he"); (500, lit "hel")]%Z) as (_ & HB & _).
- reflexivity.
- cbn. repeat split; lia.
- destruct (HB ltac:(cbn; unfold CONFIG.DEBOUNCE_DELAY; repeat split; lia)
              (500%Z, lit "hel") eq_refl) as (_ & Hfire & _).
  apply (Hfire 1000%Z). cbn. unfold CONFIG.DEBOUNCE_DELAY. lia.
Defined.
End SearchPageProofs.

(** ** The language manager *)

(** C9. [setLanguage] with the language that is current does nothing:
    the current language, the stored preference and the language of the
    document stay as they are and the page is not asked to reload; so
    [setLanguage(getLanguage())] is the identity on the state. *)
Theorem setLanguage_current_is_identity (s : Language.State) :
  Language.setLanguage (Language.getLanguage s) s = (Ok tt, s)
  ∧ ∀ r s',
      Language.setLanguage (Language.currentLang s) s = (r, s') →
      r = Ok tt
      ∧ Language.currentLang s' = Language.currentLang s
      ∧ Language.storedLanguage s' = Language.storedLanguage s
      ∧ Language.documentLang s' = Language.documentLang s
      ∧ Language.reloads s' = Language.reloads s.
Proof.
  assert (H : Language.setLanguage (Language.currentLang s) s = (Ok tt, s)).
  { unfold Language.setLanguage. by rewrite bool_decide_eq_true_2. }
  split; [exact H|]. intros r s' Hrun. rewrite H in Hrun. by injection Hrun as <- <-.
Qed.

(** With another language the guard does not hold and the page reloads,
    when the preference can be stored. *)
Lemma setLanguage_other_reloads (s : Language.State) lang :
  Language.currentLang s ≠ lang →
  Language.storageFails s = false →
  ∃ s', Language.setLanguage lang s = (Ok tt, s')
        ∧ Language.currentLang s' = lang
        ∧ Language.storedLanguage s' = Some lang
        ∧ Language.reloads s' = S (Language.reloads s).
Proof.
  intros Hne Hst. unfold Language.setLanguage. rewrite bool_decide_eq_false_2 by done.
  cbn [Language.storageFails]. rewrite Hst. by eexists.
Qed.

(** * Further properties *)

(** ** The persistent cache *)

(** X1. What [saveToCache] wrote, [getFromCache] returns for as long as
    the entry is younger than the time to live, and not after: a read an
    hour or more after the write removes the entry and returns nothing. *)
Theorem saveToCache_getFromCache st slug data st2 :
  storageDenied st = false → storageFull st = false →
  storageDenied st2 = false →
  localStorage st2 !! cache_key slug
    = localStorage (snd (saveToCache slug data st)) !! cache_key slug →
  ((now st2 - now st < CONFIG.CACHE_DURATION)%Z →
     ∃ st3, getFromCache slug st2 = (Ok (Some data), st3)
            ∧ localStorage st3 = localStorage st2)
  ∧ ((CONFIG.CACHE_DURATION <= now st2 - now st)%Z →
       ∃ st3, getFromCache slug st2 = (Ok None, st3)
              ∧ localStorage st3 !! cache_key slug = None).
Proof.
  intros Hd Hf Hd2 Hsame.
  rewrite saveToCache_run in Hsame. unfold stored in Hsame. rewrite Hd, Hf in Hsame.
  simpl in Hsame. rewrite lookup_insert_eq in Hsame.
  rewrite getFromCache_run, Hd2, Hsame. split; intros Hage.
  - replace (now st2 - now st <? CONFIG.CACHE_DURATION)%Z with true
      by (symmetry; apply Z.ltb_lt; lia).
    by eexists.
  - replace (now st2 - now st <? CONFIG.CACHE_DURATION)%Z with false
      by (symmetry; apply Z.ltb_ge; lia).
    eexists. split; [reflexivity|]. simpl. apply lookup_delete_eq.
Qed.

Lemma saveToCache_getFromCache_witness :
  (∃ st3, getFromCache (Some (lit "hi"))
            (set_now 3599999 (snd (saveToCache (Some (lit "hi")) (lit "<p>x</p>") online)))
          = (Ok (Some (lit "<p>x</p>")), st3)
          ∧ localStorage st3
            = localStorage
                (set_now 3599999 (snd (saveToCache (Some (lit "hi")) (lit "<p>x</p>") online))))
  ∧ (∃ st3, getFromCache (Some (lit "hi"))
              (set_now 3600000 (snd (saveToCache (Some (lit "hi")) (lit "<p>x</p>") online)))
            = (Ok None, st3)
            ∧ localStorage st3 !! cache_key (Some (lit "hi")) = None).
Proof.
  split.
  - destruct (saveToCache_getFromCache online (Some (lit "hi")) (lit "<p>x</p>")
                (set_now 3599999 (snd (saveToCache (Some (lit "hi")) (lit "<p>x</p>") online))))
      as [H _]; [reflexivity..|].
    apply H. vm_compute. reflexivity.
  - destruct (saveToCache_getFromCache online (Some (lit "hi")) (lit "<p>x</p>")
                (set_now 3600000 (snd (saveToCache (Some (lit "hi")) (lit "<p>x</p>") online))))
      as [_ H]; [reflexivity..|].
    apply H. vm_compute. discriminate.
Defined.

(** X2. [saveToCache] never raises and writes under the key of its slug
    alone; when the storage refuses the write, nothing at all changes. *)
Theorem saveToCache_contained st slug data :
  ∃ st',
    saveToCache slug data st = (Ok tt, st')
    ∧ (∀ k, k ≠ cache_key slug → localStorage st' !! k = localStorage st !! k)
    ∧ loadedPosts st' = loadedPosts st
    ∧ (storageDenied st = true ∨ storageFull st = true → st' = st)
    ∧ (storageDenied st = false → storageFull st = false →
         localStorage st' !! cache_key slug = Some (Entry data (now st))).
Proof.
  rewrite saveToCache_run. eexists. split; [reflexivity|]. unfold stored.
  destruct (storageDenied st), (storageFull st); simpl; split_and!; try done.
  - intros k Hk. by rewrite lookup_insert_ne.
  - by intros [|].
  - intros _ _. apply lookup_insert_eq.
Qed.

(** X3. [getFromCache] never raises and leaves every other key alone. It
    removes the item of its own key only when it could read it and the
    age it computes is not below [CACHE_DURATION]: an entry of one hour or
    more, or a value that has no number for a timestamp, such as [{}], [5]
    or [[]], whose age is [NaN]; it then returns nothing, and such a value
    is removed at every read. A missing key, text on which [JSON.parse]
    or the destructuring throws, and a storage that cannot be read all
    give nothing and leave the store as it is. *)
Theorem getFromCache_removes_only_stale st slug :
  ∃ o st',
    getFromCache slug st = (Ok o, st')
    ∧ (∀ k, k ≠ cache_key slug → localStorage st' !! k = localStorage st !! k)
    ∧ (localStorage st' = localStorage st
       ∨ storageDenied st = false
         ∧ ((∃ data t, localStorage st !! cache_key slug = Some (Entry data t)
                       ∧ (CONFIG.CACHE_DURATION <= now st - t)%Z)
            ∨ localStorage st !! cache_key slug = Some Undated)
         ∧ o = None
         ∧ localStorage st' = delete (cache_key slug) (localStorage st))
    ∧ (storageDenied st = false →
       localStorage st !! cache_key slug = Some Undated →
       o = None ∧ localStorage st' = delete (cache_key slug) (localStorage st))
    ∧ (storageDenied st = true
       ∨ localStorage st !! cache_key slug = None
       ∨ localStorage st !! cache_key slug = Some Unparsable →
       o = None ∧ localStorage st' = localStorage st).
Proof.
  rewrite getFromCache_run. destruct (storageDenied st) eqn:Hd.
  { exists None, st. split_and!; try done. by left. }
  destruct (localStorage st !! cache_key slug) as [[d t| |]|] eqn:Hl.
  - destruct (now st - t <? CONFIG.CACHE_DURATION)%Z eqn:Hage.
    + eexists _, _. split; [reflexivity|]. simpl. split_and!; try done; [by left|].
      by intros [|[|]].
    + eexists _, _. split; [reflexivity|]. simpl. split_and!; try done.
      * intros k Hk. by rewrite lookup_delete_ne.
      * right. split_and!; try done. left. exists d, t. split; [done|]. by apply Z.ltb_ge.
      * by intros [|[|]].
  - eexists _, _. split; [reflexivity|]. simpl. split_and!; try done. by left.
  - eexists _, _. split; [reflexivity|]. simpl. split_and!; try done.
    + intros k Hk. by rewrite lookup_delete_ne.
    + right. split_and!; try done. by right.
    + by intros [|[|]].
  - eexists _, _. split; [reflexivity|]. simpl. split_and!; try done. by left.
Qed.

Lemma cache_key_injective a b : cache_key (Some a) = cache_key (Some b) → a = b.
Proof. unfold cache_key, slug_text. apply app_inv_head. Qed.

(** X4. The keys of two different string slugs differ, so that saving one
    post changes nothing of what the persistent cache returns for another;
    the slug [null] and the string [null] share their key. *)
Theorem saveToCache_other_slug st a b data :
  a ≠ b →
  cache_key (Some a) ≠ cache_key (Some b)
  ∧ fst (getFromCache (Some b) (snd (saveToCache (Some a) data st)))
    = fst (getFromCache (Some b) st)
  ∧ cache_key None = cache_key (Some (lit "null")).
Proof.
  intros Hab.
  assert (Hk : cache_key (Some a) ≠ cache_key (Some b)).
  { intros H. by apply cache_key_injective in H. }
  split; [exact Hk|]. split; [|reflexivity].
  rewrite saveToCache_run, !getFromCache_run. unfold stored.
  destruct (storageDenied st) eqn:Hd; simpl; [by rewrite Hd|].
  destruct (storageFull st); simpl; rewrite ?Hd; [done|].
  rewrite lookup_insert_ne by done.
  destruct (localStorage st !! cache_key (Some b)) as [[d t| |]|]; try done.
  by destruct (_ <? _)%Z.
Qed.

Lemma saveToCache_other_slug_witness :
  cache_key (Some (lit "a")) ≠ cache_key (Some (lit "b"))
  ∧ fst (getFromCache (Some (lit "b")) (snd (saveToCache (Some (lit "a")) (lit "x") online)))
    = fst (getFromCache (Some (lit "b")) online)
  ∧ cache_key None = cache_key (Some (lit "null")).
Proof.
  apply (saveToCache_other_slug online (lit "a") (lit "b") (lit "x")).
  vm_compute. discriminate.
Defined.

(** ** More on loading a post *)

Lemma delays_from_S i m :
  delays_from i (S m)
  = (CONFIG.RETRY_DELAY_BASE * Z.of_nat (i + 1))%Z :: delays_from (i + 1) m.
Proof.
  unfold delays_from. cbn [seq map]. rewrite Nat.add_0_r. f_equal.
  rewrite <- seq_shift, map_map. apply map_ext. intros j. do 2 f_equal. lia.
Qed.

(** The passes of the loop: how many fetches, and which suspensions. *)
Lemma retry_loop_shape fuel : ∀ slug retries i st,
  (i + fuel = retries)%nat →
  ∃ n l,
    events (snd (retry_loop fuel slug retries i st)) = events st ++ l
    ∧ fetches (snd (retry_loop fuel slug retries i st)) = (fetches st + n)%nat
    ∧ (n ≤ fuel)%nat ∧ ((0 < fuel)%nat → (0 < n)%nat)
    ∧ length (fetch_urls l) = n
    ∧ sleeps l = delays_from i (n - 1).
Proof.
  induction fuel as [|fuel IH]; intros slug retries i st Hi.
  { exists 0%nat, []. simpl. split_and!; try done; try lia. by rewrite app_nil_r. }
  rewrite retry_loop_S.
  replace (i <? retries)%nat with true by (symmetry; apply Nat.ltb_lt; lia).
  destruct (attempt_outcome _ _) as [html|e].
  - exists 1%nat. cbn [snd].
    destruct (stored_frame slug html (remembered slug html (fetched (post_url slug) st)))
      as (Hf & _). rewrite Hf. unfold stored.
    destruct (_ || _); simpl.
    + eexists [_]. split_and!; try done; lia.
    + eexists [_; _]. rewrite <- app_assoc. split_and!; try done; lia.
  - destruct (i =? retries - 1)%nat eqn:Hlast.
    + exists 1%nat, [EvFetch (post_url slug)]. simpl. split_and!; try done; lia.
    + apply Nat.eqb_neq in Hlast.
      set (st2 := slept _ (fetched (post_url slug) st)).
      destruct (IH slug retries (i + 1)%nat st2) as (n & l & He & Hf & Hn & Hpos & Hlen & Hs);
        [lia|].
      exists (S n), (EvFetch (post_url slug)
                     :: EvSleep (CONFIG.RETRY_DELAY_BASE * Z.of_nat (i + 1)) :: l).
      rewrite He, Hf. split_and!; try lia.
      * subst st2. simpl. by rewrite <- !app_assoc.
      * subst st2. simpl. lia.
      * change (length (post_url slug :: fetch_urls l) = S n). simpl. by rewrite Hlen.
      * assert (0 < n)%nat by (apply Hpos; lia).
        replace (S n - 1)%nat with (S (n - 1)) by lia.
        rewrite delays_from_S.
        change (sleeps (EvFetch (post_url slug)
                        :: EvSleep (CONFIG.RETRY_DELAY_BASE * Z.of_nat (i + 1)) :: l))
          with ((CONFIG.RETRY_DELAY_BASE * Z.of_nat (i + 1))%Z :: sleeps l).
        by rewrite Hs.
Qed.

(** X5. For any number of retries, [loadPost] makes no more fetches than
    that number, and between its [n] fetches it suspends for 1000, 2000,
    ..., 1000 (n - 1) milliseconds and for nothing else: with the default
    of three, at most three fetches and at most 3000 ms of waiting. *)
Theorem loadPost_fetch_bound st slug retries :
  ∃ n,
    (n ≤ retries)%nat
    ∧ fetches (snd (loadPost slug retries st)) = (fetches st + n)%nat
    ∧ length (fetch_urls (new_events st (snd (loadPost slug retries st)))) = n
    ∧ sleeps (new_events st (snd (loadPost slug retries st))) = delays_from 0 (n - 1).
Proof.
  assert (Hloop : ∀ st1 pre,
            events st1 = events st ++ pre → fetches st1 = fetches st →
            fetch_urls pre = [] → sleeps pre = [] →
            ∃ n, (n ≤ retries)%nat
              ∧ fetches (snd (retry_loop retries slug retries 0 st1)) = (fetches st + n)%nat
              ∧ length (fetch_urls (new_events st (snd (retry_loop retries slug retries 0 st1))))
                = n
              ∧ sleeps (new_events st (snd (retry_loop retries slug retries 0 st1)))
                = delays_from 0 (n - 1)).
  { intros st1 pre Hpre Hf Hnf Hns.
    destruct (retry_loop_shape retries slug retries 0 st1) as (n & l & He & Hfe & Hn & _ & Hl & Hs);
      [done|].
    exists n. rewrite Hfe, Hf. split_and!; try done.
    - rewrite (new_events_app _ _ (pre ++ l)) by (rewrite He, Hpre; by rewrite <- app_assoc).
      unfold fetch_urls in *. by rewrite omap_app, Hnf.
    - rewrite (new_events_app _ _ (pre ++ l)) by (rewrite He, Hpre; by rewrite <- app_assoc).
      unfold sleeps in *. by rewrite omap_app, Hns. }
  assert (Hstay : ∀ st1 pre r,
            events st1 = events st ++ pre → fetches st1 = fetches st →
            fetch_urls pre = [] → sleeps pre = [] →
            ∃ n, (n ≤ retries)%nat
              ∧ fetches (snd (r : Res (option LoadResult), st1)) = (fetches st + n)%nat
              ∧ length (fetch_urls (new_events st (snd (r, st1)))) = n
              ∧ sleeps (new_events st (snd (r, st1))) = delays_from 0 (n - 1)).
  { intros st1 pre r Hpre Hf Hnf Hns. exists 0%nat. cbn [snd].
    rewrite (new_events_app _ _ pre) by done. rewrite Hnf, Hns, Hf.
    split_and!; try done; lia. }
  rewrite loadPost_run. destruct (loadedPosts st !! slug).
  { apply (Hstay st []); try done. by rewrite app_nil_r. }
  rewrite getFromCache_run. destruct (storageDenied st).
  { apply (Hloop st []); try done. by rewrite app_nil_r. }
  destruct (localStorage st !! cache_key slug) as [[d t| |]|].
  - destruct (_ <? _)%Z.
    + destruct (truthy_string d).
      * apply (Hstay _ [EvGetItem (cache_key slug)]); done.
      * apply (Hloop _ [EvGetItem (cache_key slug)]); done.
    + apply (Hloop _ [EvGetItem (cache_key slug); EvRemoveItem (cache_key slug)]); try done.
      simpl. by rewrite <- app_assoc.
  - apply (Hloop _ [EvGetItem (cache_key slug)]); done.
  - apply (Hloop _ [EvGetItem (cache_key slug); EvRemoveItem (cache_key slug)]); try done.
    simpl. by rewrite <- app_assoc.
  - apply (Hloop _ [EvGetItem (cache_key slug)]); done.
Qed.

Lemma loadPost_miss slug retries st :
  loadedPosts st !! slug = None →
  localStorage st !! cache_key slug = None →
  loadPost slug retries st = retry_loop retries slug retries 0 (after_miss slug st)
  ∧ unchanged st (after_miss slug st)
  ∧ fetches (after_miss slug st) = fetches st
  ∧ now (after_miss slug st) = now st
  ∧ loadedPosts (after_miss slug st) = loadedPosts st
  ∧ localStorage (after_miss slug st) = localStorage st
  ∧ events (after_miss slug st) = events st ++ miss_events slug st.
Proof.
  intros Hm Hs. rewrite loadPost_run, Hm, getFromCache_run, Hs.
  unfold after_miss, miss_events. destruct (storageDenied st).
  - split_and!; first [done | apply unchanged_refl | by rewrite app_nil_r].
  - split_and!; try done. unfold unchanged, logged; simpl. by rewrite pushes_snoc, app_nil_r.
Qed.



(** X7. A fresh entry of the persistent cache with a payload that is not
    empty is returned without a fetch and copied into the memory cache,
    and the store stays as it is; an entry whose payload is the empty
    string counts as no entry, and the call goes on to the network. *)
Theorem loadPost_from_persistent_cache st slug data t retries :
  loadedPosts st !! slug = None →
  storageDenied st = false →
  localStorage st !! cache_key slug = Some (Entry data t) →
  (now st - t < CONFIG.CACHE_DURATION)%Z →
  (data ≠ [] →
     ∃ st',
       loadPost slug retries st = (Ok (Some (Html data)), st')
       ∧ new_events st st' = [EvGetItem (cache_key slug)]
       ∧ fetches st' = fetches st
       ∧ loadedPosts st' !! slug = Some data
       ∧ localStorage st' = localStorage st)
  ∧ (data = [] → (0 < retries)%nat →
       ∃ r st' rest,
         loadPost slug retries st = (r, st')
         ∧ new_events st st' = EvGetItem (cache_key slug) :: EvFetch (post_url slug) :: rest).
Proof.
  intros Hm Hd Hs Hage. rewrite loadPost_run, Hm, getFromCache_run, Hd, Hs.
  replace (now st - t <? CONFIG.CACHE_DURATION)%Z with true by (symmetry; apply Z.ltb_lt; lia).
  split.
  - intros Hne. destruct data as [|c data]; [done|]. cbn [truthy_string].
    eexists. split; [reflexivity|]. split_and!; try done.
    + by apply new_events_app.
    + simpl. apply lookup_insert_eq.
  - intros -> Hr. cbn [truthy_string].
    destruct (retry_loop_fetches_first retries slug retries (logged (EvGetItem (cache_key slug)) st))
      as (r & st' & rest & Hrun & Hev); [done..|].
    exists r, st', rest. split; [done|]. apply new_events_app. rewrite Hev. simpl.
    by rewrite <- app_assoc.
Qed.

Lemma loadPost_from_persistent_cache_witness :
  ∃ st',
    loadPost (Some (lit "hi")) CONFIG.MAX_RETRIES (revisit 1000)
      = (Ok (Some (Html (lit "<p>hello</p>"))), st')
    ∧ new_events (revisit 1000) st' = [EvGetItem (cache_key (Some (lit "hi")))]
    ∧ fetches st' = fetches (revisit 1000)
    ∧ loadedPosts st' !! Some (lit "hi") = Some (lit "<p>hello</p>")
    ∧ localStorage st' = localStorage (revisit 1000).
Proof.
  destruct (loadPost_from_persistent_cache (revisit 1000) (Some (lit "hi"))
              (lit "<p>hello</p>") 0 CONFIG.MAX_RETRIES) as [H _].
  - reflexivity.
  - reflexivity.
  - vm_compute. reflexivity.
  - vm_compute. reflexivity.
  - apply H. vm_compute. discriminate.
Defined.

(** The loop caches nothing when it gives up or makes no pass. *)
Lemma retry_loop_failure_frame fuel : ∀ slug retries i st r st',
  retry_loop fuel slug retries i st = (r, st') →
  (∀ html, r ≠ Ok (Some (Html html))) →
  loadedPosts st' = loadedPosts st ∧ localStorage st' = localStorage st
  ∧ ∃ l, events st' = events st ++ l ∧ stores l = [].
Proof.
  induction fuel as [|fuel IH]; intros slug retries i st r st' H Hr.
  { injection H as <- <-. split_and!; try done. exists []. by rewrite app_nil_r. }
  rewrite retry_loop_S in H. destruct (i <? retries)%nat.
  2:{ injection H as <- <-. split_and!; try done. exists []. by rewrite app_nil_r. }
  destruct (attempt_outcome _ _) as [html|e].
  { injection H as <- <-. by destruct (Hr html). }
  destruct (i =? retries - 1)%nat.
  - injection H as <- <-. split_and!; try done. by exists [EvFetch (post_url slug)].
  - apply IH in H as (H1 & H2 & l & Hl & Hst); [|done].
    split_and!; try done.
    exists (EvFetch (post_url slug)
            :: EvSleep (CONFIG.RETRY_DELAY_BASE * Z.of_nat (i + 1)) :: l).
    split; [|done]. rewrite Hl. simpl. by rewrite <- !app_assoc.
Qed.

(** X8. A [loadPost] that ends in the error fragment has cached nothing:
    the memory cache is as before, nothing was written to the persistent
    cache, and the store is as before but for an item of the slug that the
    read purged, an expired entry or a value without a timestamp; the
    next call goes to the network again. *)
Theorem loadPost_failure_not_cached st slug retries msg st' :
  loadPost slug retries st = (Ok (Some (ErrorState msg)), st') →
  loadedPosts st' = loadedPosts st
  ∧ stores (new_events st st') = []
  ∧ (localStorage st' = localStorage st
     ∨ localStorage st' = delete (cache_key slug) (localStorage st))
  ∧ loadedPosts st' !! slug = None.
Proof.
  rewrite loadPost_run. destruct (loadedPosts st !! slug) eqn:Hm; [done|].
  assert (Hloop : ∀ st1 pre,
            loadedPosts st1 = loadedPosts st → events st1 = events st ++ pre →
            stores pre = [] →
            (localStorage st1 = localStorage st
             ∨ localStorage st1 = delete (cache_key slug) (localStorage st)) →
            retry_loop retries slug retries 0 st1 = (Ok (Some (ErrorState msg)), st') →
            loadedPosts st' = loadedPosts st
            ∧ stores (new_events st st') = []
            ∧ (localStorage st' = localStorage st
               ∨ localStorage st' = delete (cache_key slug) (localStorage st))
            ∧ loadedPosts st' !! slug = None).
  { intros st1 pre Hl He Hp Hs Hrun.
    apply retry_loop_failure_frame in Hrun as (H1 & H2 & l & H3 & H4); [|done].
    rewrite H1, Hl, H2. split_and!; try done.
    rewrite (new_events_app _ _ (pre ++ l)) by (rewrite H3, He; by rewrite <- app_assoc).
    unfold stores in *. by rewrite omap_app, Hp, H4. }
  rewrite getFromCache_run. destruct (storageDenied st).
  { apply (Hloop st []); try done; [by rewrite app_nil_r|by left]. }
  destruct (localStorage st !! cache_key slug) as [[d t| |]|].
  - destruct (_ <? _)%Z.
    + destruct (truthy_string d); [done|].
      apply (Hloop _ [EvGetItem (cache_key slug)]); try done. by left.
    + apply (Hloop _ [EvGetItem (cache_key slug); EvRemoveItem (cache_key slug)]); try done.
      * simpl. by rewrite <- app_assoc.
      * by right.
  - apply (Hloop _ [EvGetItem (cache_key slug)]); try done. by left.
  - apply (Hloop _ [EvGetItem (cache_key slug); EvRemoveItem (cache_key slug)]); try done.
    + simpl. by rewrite <- app_assoc.
    + by right.
  - apply (Hloop _ [EvGetItem (cache_key slug)]); try done. by left.
Qed.

Lemma loadPost_failure_not_cached_witness :
  loadedPosts (snd (loadPost (Some (lit "hi")) CONFIG.MAX_RETRIES offline)) = loadedPosts offline
  ∧ stores (new_events offline (snd (loadPost (Some (lit "hi")) CONFIG.MAX_RETRIES offline))) = []
  ∧ (localStorage (snd (loadPost (Some (lit "hi")) CONFIG.MAX_RETRIES offline))
       = localStorage offline
     ∨ localStorage (snd (loadPost (Some (lit "hi")) CONFIG.MAX_RETRIES offline))
       = delete (cache_key (Some (lit "hi"))) (localStorage offline))
  ∧ loadedPosts (snd (loadPost (Some (lit "hi")) CONFIG.MAX_RETRIES offline))
      !! Some (lit "hi") = None.
Proof.
  apply (loadPost_failure_not_cached offline (Some (lit "hi")) CONFIG.MAX_RETRIES
           (lit "Failed to fetch")).
  vm_compute. reflexivity.
Defined.

(** After [k] failed attempts the loop returns the markup of the next
    one, when that one succeeds. *)
Lemma retry_loop_recovers k : ∀ fuel slug retries i st html,
  (i + fuel = retries)%nat → (k < fuel)%nat →
  (∀ j, (j < k)%nat →
     ∃ e, attempt_outcome st (network st (fetches st + j) (post_url slug)) = Throw e) →
  attempt_outcome st (network st (fetches st + k) (post_url slug)) = Ok html →
  ∃ st' l,
    retry_loop fuel slug retries i st = (Ok (Some (Html html)), st')
    ∧ events st' = events st ++ l
    ∧ length (fetch_urls l) = S k
    ∧ sleeps l = delays_from i k
    ∧ fetches st' = (fetches st + S k)%nat.
Proof.
  induction k as [|k IH]; intros fuel slug retries i st html Hi Hk Hfail Hok;
    (destruct fuel as [|fuel]; [lia|]); rewrite retry_loop_S;
    replace (i <? retries)%nat with true by (symmetry; apply Nat.ltb_lt; lia).
  - rewrite Nat.add_0_r in Hok. rewrite Hok. unfold stored.
    destruct (_ || _); eexists _, _; (split; [reflexivity|]); simpl; rewrite <- ?app_assoc;
      (split_and!; [reflexivity|done|done|lia]).
  - destruct (Hfail 0%nat) as [e He]; [lia|]. rewrite Nat.add_0_r in He. rewrite He.
    replace (i =? retries - 1)%nat with false by (symmetry; apply Nat.eqb_neq; lia).
    set (st2 := slept _ (fetched (post_url slug) st)).
    assert (Hu : unchanged st st2).
    { eapply unchanged_trans; [apply unchanged_fetched|apply unchanged_slept]. }
    destruct (IH fuel slug retries (i + 1)%nat st2 html) as (st' & l & Hrun & Hev & Hlen & Hs & Hf).
    + lia.
    + lia.
    + intros j Hj. rewrite (attempt_outcome_unchanged _ _ _ Hu), (unchanged_network _ _ Hu).
      change (fetches st2) with (S (fetches st)).
      replace (S (fetches st) + j)%nat with (fetches st + S j)%nat by lia.
      apply Hfail. lia.
    + rewrite (attempt_outcome_unchanged _ _ _ Hu), (unchanged_network _ _ Hu).
      change (fetches st2) with (S (fetches st)).
      by replace (S (fetches st) + k)%nat with (fetches st + S k)%nat by lia.
    + exists st', (EvFetch (post_url slug)
                   :: EvSleep (CONFIG.RETRY_DELAY_BASE * Z.of_nat (i + 1)) :: l).
      split; [exact Hrun|]. split_and!.
      * rewrite Hev. subst st2. simpl. by rewrite <- !app_assoc.
      * change (length (post_url slug :: fetch_urls l) = S (S k)). simpl. by rewrite Hlen.
      * rewrite delays_from_S.
        change (sleeps (EvFetch (post_url slug)
                        :: EvSleep (CONFIG.RETRY_DELAY_BASE * Z.of_nat (i + 1)) :: l))
          with ((CONFIG.RETRY_DELAY_BASE * Z.of_nat (i + 1))%Z :: sleeps l).
        by rewrite Hs.
      * rewrite Hf. change (fetches st2) with (S (fetches st)). lia.
Qed.

(** X9. A retry recovers: when the first [k] attempts fail and the next
    one, still within the retries, succeeds, [loadPost] returns the markup
    of that attempt after [k + 1] fetches and suspensions of 1000, ...,
    1000 [k] milliseconds, and the markup is in the memory cache. *)
Theorem loadPost_recovers st slug retries k html :
  loadedPosts st !! slug = None →
  localStorage st !! cache_key slug = None →
  (k < retries)%nat →
  (∀ j, (j < k)%nat →
     ∃ e, attempt_outcome st (network st (fetches st + j) (post_url slug)) = Throw e) →
  attempt_outcome st (network st (fetches st + k) (post_url slug)) = Ok html →
  ∃ st',
    loadPost slug retries st = (Ok (Some (Html html)), st')
    ∧ length (fetch_urls (new_events st st')) = S k
    ∧ sleeps (new_events st st') = delays_from 0 k
    ∧ fetches st' = (fetches st + S k)%nat
    ∧ loadedPosts st' !! slug = Some html.
Proof.
  intros Hm Hs Hk Hfail Hok.
  destruct (loadPost_miss slug retries st Hm Hs) as (-> & Hu & Hf & _ & _ & _ & He).
  destruct (retry_loop_recovers k retries slug retries 0 (after_miss slug st) html)
    as (st' & l & Hrun & Hev & Hlen & Hsl & Hfe); [done|done| | |].
  { intros j Hj. rewrite (attempt_outcome_unchanged _ _ _ Hu), (unchanged_network _ _ Hu), Hf.
    by apply Hfail. }
  { by rewrite (attempt_outcome_unchanged _ _ _ Hu), (unchanged_network _ _ Hu), Hf. }
  exists st'. split; [exact Hrun|].
  rewrite (new_events_app _ _ (miss_events slug st ++ l))
    by (rewrite Hev, He; by rewrite <- app_assoc).
  assert (Hpre : fetch_urls (miss_events slug st) = [] ∧ sleeps (miss_events slug st) = []).
  { unfold miss_events. by destruct (storageDenied st). }
  destruct Hpre as [Hp1 Hp2]. unfold fetch_urls, sleeps in *.
  rewrite !omap_app, Hp1, Hp2. split_and!; try done.
  - congruence.
  - by eapply retry_loop_remembers.
Qed.

Lemma loadPost_recovers_witness :
  ∃ st',
    loadPost (Some (lit "hi")) CONFIG.MAX_RETRIES
      (session (λ n _, match n with
                       | S (S _) => Response 200 (Ok (lit "hello")) (Throw SyntaxError)
                       | _ => Response 503 (Ok []) (Throw SyntaxError)
                       end))
    = (Ok (Some (Html (lit "<p>hello</p>"))), st')
    ∧ length (fetch_urls (new_events
        (session (λ n _, match n with
                         | S (S _) => Response 200 (Ok (lit "hello")) (Throw SyntaxError)
                         | _ => Response 503 (Ok []) (Throw SyntaxError)
                         end)) st')) = 3%nat
    ∧ sleeps (new_events
        (session (λ n _, match n with
                         | S (S _) => Response 200 (Ok (lit "hello")) (Throw SyntaxError)
                         | _ => Response 503 (Ok []) (Throw SyntaxError)
                         end)) st') = delays_from 0 2
    ∧ fetches st' = 3%nat
    ∧ loadedPosts st' !! Some (lit "hi") = Some (lit "<p>hello</p>").
Proof.
  apply (loadPost_recovers
           (session (λ n _, match n with
                            | S (S _) => Response 200 (Ok (lit "hello")) (Throw SyntaxError)
                            | _ => Response 503 (Ok []) (Throw SyntaxError)
                            end))
           (Some (lit "hi")) CONFIG.MAX_RETRIES 2 (lit "<p>hello</p>")).
  - reflexivity.
  - reflexivity.
  - unfold CONFIG.MAX_RETRIES. lia.
  - intros [|[|j]] Hj; [by eexists|by eexists|lia].
  - vm_compute. reflexivity.
Defined.

(** With neither cache holding the post and every attempt failing, the
    three attempts are made and the message is that of the last error. *)
Lemma loadPost_gives_up st slug :
  loadedPosts st !! slug = None →
  localStorage st !! cache_key slug = None →
  (∀ n, ∃ e, attempt_outcome st (network st n (post_url slug)) = Throw e) →
  ∃ e st',
    loadPost slug CONFIG.MAX_RETRIES st = (Ok (Some (ErrorState (message e))), st')
    ∧ attempt_outcome st (network st (fetches st + 2) (post_url slug)) = Throw e
    ∧ fetches st' = (fetches st + 3)%nat
    ∧ sleeps (new_events st st') = [1000; 2000]%Z.
Proof.
  intros Hm Hs Hfail.
  destruct (loadPost_miss slug CONFIG.MAX_RETRIES st Hm Hs) as (-> & Hu & Hf & _ & _ & _ & He).
  destruct (retry_loop_all_fail CONFIG.MAX_RETRIES slug CONFIG.MAX_RETRIES 0 (after_miss slug st))
    as (e & st' & Hrun & Hlast & Hev & Hfe & _); [done|unfold CONFIG.MAX_RETRIES; lia| |].
  { intros n. rewrite (attempt_outcome_unchanged _ _ _ Hu), (unchanged_network _ _ Hu).
    apply Hfail. }
  rewrite (attempt_outcome_unchanged _ _ _ Hu), (unchanged_network _ _ Hu), Hf in Hlast.
  exists e, st'. split; [exact Hrun|]. split_and!.
  - by replace (fetches st + 2)%nat with (fetches st + CONFIG.MAX_RETRIES - 1)%nat
      by (unfold CONFIG.MAX_RETRIES; lia).
  - rewrite Hfe, Hf. unfold CONFIG.MAX_RETRIES. lia.
  - rewrite (new_events_app _ _ (miss_events slug st
                                 ++ backoff_trace (post_url slug) 0 CONFIG.MAX_RETRIES))
      by (rewrite Hev, He; by rewrite <- app_assoc).
    unfold sleeps, miss_events. rewrite omap_app. by destruct (storageDenied st).
Qed.

Lemma message_mkError x : message (mkError x) = x.
Proof. reflexivity. Qed.

(** X10. When the converter is not loaded, a post that the network serves
    is still fetched three times, with both suspensions, and the call ends
    in the error fragment with the message that the parser is not loaded;
    nothing is cached: the memory cache has no entry for the slug, nothing
    is written to the persistent cache and the store is as before. *)
Theorem loadPost_without_converter st slug :
  loadedPosts st !! slug = None →
  localStorage st !! cache_key slug = None →
  marked st = None →
  (∀ n, ∃ s markdown j,
     network st n (post_url slug) = Response s (Ok markdown) j ∧ status_ok s = true) →
  ∃ st',
    loadPost slug CONFIG.MAX_RETRIES st
      = (Ok (Some (ErrorState (lit "Markdown парсер не загружен"))), st')
    ∧ fetches st' = (fetches st + 3)%nat
    ∧ sleeps (new_events st st') = [1000; 2000]%Z
    ∧ loadedPosts st' !! slug = None
    ∧ stores (new_events st st') = []
    ∧ localStorage st' = localStorage st.
Proof.
  intros Hm Hs Hmk Hnet.
  assert (Hout : ∀ n, attempt_outcome st (network st n (post_url slug))
                      = Throw (mkError (lit "Markdown парсер не загружен"))).
  { intros n. destruct (Hnet n) as (s & md & j & -> & Hok). unfold attempt_outcome.
    by rewrite Hok, Hmk. }
  destruct (loadPost_gives_up st slug Hm Hs) as (e & st' & Hrun & Hlast & Hf & Hsl).
  { intros n. eexists. apply Hout. }
  rewrite Hout in Hlast. injection Hlast as <-. rewrite message_mkError in Hrun.
  exists st'. split; [exact Hrun|]. split; [exact Hf|]. split; [exact Hsl|].
  rewrite loadPost_run, Hm, getFromCache_run, Hs in Hrun.
  assert (Hloop : ∀ st1 pre,
            loadedPosts st1 = loadedPosts st → localStorage st1 = localStorage st →
            events st1 = events st ++ pre → stores pre = [] →
            retry_loop CONFIG.MAX_RETRIES slug CONFIG.MAX_RETRIES 0 st1
            = (Ok (Some (ErrorState (lit "Markdown парсер не загружен"))), st') →
            loadedPosts st' !! slug = None
            ∧ stores (new_events st st') = []
            ∧ localStorage st' = localStorage st).
  { intros st1 pre Hl Hst He Hp H.
    apply retry_loop_failure_frame in H as (H1 & H2 & l & H3 & H4); [|done].
    split_and!; try congruence.
    rewrite (new_events_app _ _ (pre ++ l)) by (rewrite H3, He; by rewrite <- app_assoc).
    unfold stores in *. by rewrite omap_app, Hp, H4. }
  destruct (storageDenied st).
  - apply (Hloop st []); [done|done|by rewrite app_nil_r|done|exact Hrun].
  - apply (Hloop (logged (EvGetItem (cache_key slug)) st) [EvGetItem (cache_key slug)]);
      [done|done|done|done|exact Hrun].
Qed.

Lemma loadPost_without_converter_witness :
  ∃ st',
    loadPost (Some (lit "hi")) CONFIG.MAX_RETRIES
      (mkSt [hello] (JArr [hello]) (lit "home") None ∅ ∅ false false 0%Z
         (λ _ _, Response 200 (Ok (lit "hello")) (Throw SyntaxError)) 0 None
         [None] 0 Blank true [])
    = (Ok (Some (ErrorState (lit "Markdown парсер не загружен"))), st')
    ∧ fetches st' = 3%nat
    ∧ sleeps (new_events
        (mkSt [hello] (JArr [hello]) (lit "home") None ∅ ∅ false false 0%Z
           (λ _ _, Response 200 (Ok (lit "hello")) (Throw SyntaxError)) 0 None
           [None] 0 Blank true []) st') = [1000; 2000]%Z
    ∧ loadedPosts st' !! Some (lit "hi") = None
    ∧ stores (new_events
        (mkSt [hello] (JArr [hello]) (lit "home") None ∅ ∅ false false 0%Z
           (λ _ _, Response 200 (Ok (lit "hello")) (Throw SyntaxError)) 0 None
           [None] 0 Blank true []) st') = []
    ∧ localStorage st' = ∅.
Proof.
  apply (loadPost_without_converter
           (mkSt [hello] (JArr [hello]) (lit "home") None ∅ ∅ false false 0%Z
              (λ _ _, Response 200 (Ok (lit "hello")) (Throw SyntaxError)) 0 None
              [None] 0 Blank true [])
           (Some (lit "hi"))).
  - reflexivity.
  - reflexivity.
  - reflexivity.
  - intros n. by eexists _, _, _.
Defined.

(** X11. When every response has a status outside 200 to 299, the message
    in the error fragment is [HTTP] followed by the status of the third
    response in decimal. *)
Theorem loadPost_reports_status st slug :
  loadedPosts st !! slug = None →
  localStorage st !! cache_key slug = None →
  (∀ n, ∃ s t j, network st n (post_url slug) = Response s t j ∧ status_ok s = false) →
  ∃ s t j st',
    network st (fetches st + 2) (post_url slug) = Response s t j
    ∧ loadPost slug CONFIG.MAX_RETRIES st
      = (Ok (Some (ErrorState (lit "HTTP " ++ decimal s))), st')
    ∧ fetches st' = (fetches st + 3)%nat.
Proof.
  intros Hm Hs Hnet.
  destruct (loadPost_gives_up st slug Hm Hs) as (e & st' & Hrun & Hlast & Hf & _).
  { intros n. destruct (Hnet n) as (s & t & j & -> & Hok). unfold attempt_outcome.
    rewrite Hok. by eexists. }
  destruct (Hnet (fetches st + 2)%nat) as (s & t & j & Hn & Hok).
  rewrite Hn in Hlast. unfold attempt_outcome in Hlast. rewrite Hok in Hlast.
  injection Hlast as <-. rewrite message_mkError in Hrun. exists s, t, j, st'.
  split; [exact Hn|]. split; [exact Hrun|exact Hf].
Qed.

Lemma loadPost_reports_status_witness :
  ∃ s t j st',
    network (session (λ _ _, Response 404 (Ok []) (Throw SyntaxError))) (0 + 2)
      (post_url (Some (lit "hi"))) = Response s t j
    ∧ loadPost (Some (lit "hi")) CONFIG.MAX_RETRIES
        (session (λ _ _, Response 404 (Ok []) (Throw SyntaxError)))
      = (Ok (Some (ErrorState (lit "HTTP " ++ decimal s))), st')
    ∧ fetches st' = 3%nat.
Proof.
  apply (loadPost_reports_status (session (λ _ _, Response 404 (Ok []) (Throw SyntaxError)))
           (Some (lit "hi"))).
  - reflexivity.
  - reflexivity.
  - intros n. by eexists _, _, _.
Defined.

(** ** More on the search *)

Section MoreSearch.
Variable toLowerCase : jsstring -> jsstring.

Lemma Array_filter_sublist callback items : ∀ found,
Array_filter callback items = Ok found → found `sublist_of` items.
Proof.
induction items as [|x items IH]; intros found H.
- injection H as <-. constructor.
- cbn [Array_filter mbind Res_bind] in H.
  destruct (callback x) as [b|e]; [|done].
  destruct (Array_filter callback items) as [rest|e]; [|done].
  injection H as <-. destruct b.
  + apply sublist_skip. by apply IH.
  + apply sublist_cons. by apply IH.
Qed.

Lemma Array_filter_again callback items : ∀ found,
Array_filter callback items = Ok found → Array_filter callback found = Ok found.
Proof.
induction items as [|x items IH]; intros found H.
- by injection H as <-.
- cbn [Array_filter mbind Res_bind] in H.
  destruct (callback x) as [b|e] eqn:Hx; [|done].
  destruct (Array_filter callback items) as [rest|e]; [|done].
  injection H as <-. destruct b; [|by apply IH].
  cbn [Array_filter mbind Res_bind]. by rewrite Hx, (IH rest).
Qed.

Lemma Array_filter_throws callback items x e :
In x items → callback x = Throw e → ∃ e', Array_filter callback items = Throw e'.
Proof.
induction items as [|y items IH]; intros Hin Hx; [done|].
cbn [Array_filter mbind Res_bind]. destruct Hin as [->|Hin].
- rewrite Hx. by eexists.
- destruct (callback y); [|by eexists].
  destruct (IH Hin Hx) as [e' ->]. by eexists.
Qed.

(** X12. Whatever the index holds, a search that returns gives a
  subsequence of the index: posts of the index, in the order of the
  index, none more often than the index has it. *)
Theorem performSearch_subsequence items query :
match performSearch toLowerCase (JArr items) query with
| Ok v => ∃ found, v = JArr found ∧ found `sublist_of` items
| Throw _ => True
end.
Proof.
unfold performSearch. destruct (negb _).
- by exists items.
- cbn [mbind Res_bind].
  destruct (Array_filter _ items) as [found|e] eqn:H; [|done].
  exists found. split; [done|]. by eapply Array_filter_sublist.
Qed.

(** X13. Searching the result of a search with the same query changes
  nothing. *)
Theorem performSearch_idempotent all query v :
performSearch toLowerCase all query = Ok v →
performSearch toLowerCase v query = Ok v.
Proof.
unfold performSearch. destruct (negb _); [by intros [= ->]|].
destruct all as [| | | |items|]; try done. cbn [mbind Res_bind].
destruct (Array_filter _ items) as [found|e] eqn:H; [|done].
intros [= <-]. cbn [mbind Res_bind]. by rewrite (Array_filter_again _ _ _ H).
Qed.

(** X14. A [null] among the posts makes every search with a query that is
  not blank throw, wherever the [null] stands and whatever the other
  posts are; a blank query still returns the list. *)
Theorem performSearch_null_post items query :
In JNull items →
(¬ blank query → ∃ e, performSearch toLowerCase (JArr items) query = Throw e)
∧ (blank query → performSearch toLowerCase (JArr items) query = Ok (JArr items)).
Proof.
intros Hin. split; [|apply performSearch_blank].
intros Hq. unfold performSearch.
destruct (truthy_string (trim query)) eqn:Ht; [|by apply truthy_trim in Ht].
cbn [negb mbind Res_bind].
destruct (Array_filter_throws (matches toLowerCase (toLowerCase query)) items JNull TypeError Hin)
  as [e ->]; [done|by eexists].
Qed.

(** X15. The callback reads the excerpt only when the title does not
  match: a post with a title and no excerpt is found by a query that its
  title contains, and makes the search throw with any other query that
  is not blank. *)
Theorem performSearch_stops_at_title ms title query :
lookup_member (lit "title") ms = Some (JStr title) →
lookup_member (lit "excerpt") ms = None →
¬ blank query →
performSearch toLowerCase (JArr [JObj ms]) query
= if includes (toLowerCase title) (toLowerCase query)
  then Ok (JArr [JObj ms]) else Throw TypeError.
Proof.
intros Ht He Hq. unfold performSearch.
destruct (truthy_string (trim query)) eqn:Htr; [|by apply truthy_trim in Htr].
cbn [negb Array_filter mbind Res_bind]. unfold matches.
cbn [get_member mbind Res_bind]. rewrite Ht. cbn [call_toLowerCase mbind Res_bind].
destruct (includes (toLowerCase title) (toLowerCase query)); [done|].
rewrite He. reflexivity.
Qed.
End MoreSearch.

Lemma performSearch_idempotent_witness :
  performSearch (map ascii_lower) (JArr [hello]) (lit "ELL") = Ok (JArr [hello]).
Proof.
  apply (performSearch_idempotent (map ascii_lower) (JArr [hello]) (lit "ELL")).
  vm_compute. reflexivity.
Defined.

Lemma performSearch_null_post_witness :
  (¬ blank (lit "a") →
     ∃ e, performSearch (map ascii_lower) (JArr [hello; JNull]) (lit "a") = Throw e)
  ∧ (blank (lit "a") →
       performSearch (map ascii_lower) (JArr [hello; JNull]) (lit "a")
       = Ok (JArr [hello; JNull])).
Proof.
  apply (performSearch_null_post (map ascii_lower) [hello; JNull] (lit "a")).
  right. left. reflexivity.
Defined.

Lemma not_blank_letter c s : is_white_space c = false → ¬ blank (c :: s).
Proof. intros Hc Hb. inversion Hb. congruence. Qed.

Lemma performSearch_stops_at_title_witness :
  performSearch (map ascii_lower) (JArr [JObj [(lit "title", JStr (lit "Hello"))]]) (lit "zzz")
  = if includes (map ascii_lower (lit "Hello")) (map ascii_lower (lit "zzz"))
    then Ok (JArr [JObj [(lit "title", JStr (lit "Hello"))]]) else Throw TypeError.
Proof.
  apply (performSearch_stops_at_title (map ascii_lower) [(lit "title", JStr (lit "Hello"))]
           (lit "Hello") (lit "zzz")).
  - vm_compute. reflexivity.
  - vm_compute. reflexivity.
  - apply (not_blank_letter 122 (lit "zz")). reflexivity.
Defined.

(** ** More on the index *)

(** X16. [loadPosts] returns normally after exactly one fetch, whatever
    the network answers and whatever the sort does, and touches nothing
    but the two lists: after it the lists are both empty, or [allPosts] is
    the parsed index as it came and [posts] the sorted copy of it; the
    latter exactly when the status is a success, the body parses, the
    value can be iterated and the sort returns, so that every failure of
    the load, and a comparison that throws as well, empties the index. *)
Theorem loadPosts_outcome (sort_newest_first : list json → Res (list json)) st :
  ∃ st',
    loadPosts sort_newest_first st = (Ok tt, st')
    ∧ new_events st st' = [EvFetch index_url]
    ∧ fetches st' = S (fetches st)
    ∧ currentView st' = currentView st ∧ currentSlug st' = currentSlug st
    ∧ loadedPosts st' = loadedPosts st ∧ localStorage st' = localStorage st
    ∧ history st' = history st ∧ historyIndex st' = historyIndex st
    ∧ appHtml st' = appHtml st ∧ loadingHidden st' = loadingHidden st
    ∧ ((posts st' = [] ∧ allPosts st' = JArr [])
       ∨ ∃ copy, spread (allPosts st') = Ok copy ∧ sort_newest_first copy = Ok (posts st'))
    ∧ (∀ s t all copy,
         network st (fetches st) index_url = Response s t (Ok all) →
         status_ok s = true → spread all = Ok copy →
         match sort_newest_first copy with
         | Ok sorted => allPosts st' = all ∧ posts st' = sorted
         | Throw _ => allPosts st' = JArr [] ∧ posts st' = []
         end)
    ∧ (index_load_fails (network st (fetches st) index_url) →
         allPosts st' = JArr [] ∧ posts st' = []).
Proof.
  rewrite loadPosts_run. cbv zeta.
  assert (Hnew : ∀ st', events st' = events st ++ [EvFetch index_url] →
                        new_events st st' = [EvFetch index_url]).
  { intros st' H. by apply new_events_app. }
  destruct (network st (fetches st) index_url) as [e|s t j].
  { eexists. split; [reflexivity|]. split_and!; try done; [by apply Hnew|by left]. }
  destruct (status_ok s) eqn:Hs.
  2:{ eexists. split; [reflexivity|]. split_and!; try done; [by apply Hnew|by left|].
      intros s' t' all' copy' Heq Hok. simplify_eq. congruence. }
  destruct j as [all|e].
  2:{ eexists. split; [reflexivity|]. split_and!; try done; [by apply Hnew|by left]. }
  destruct (spread all) as [copy|e] eqn:Hsp.
  2:{ eexists. split; [reflexivity|]. split_and!; try done; [by apply Hnew|by left|].
      intros s' t' all' copy' Heq Hok Hsp'. simplify_eq. congruence. }
  destruct (sort_newest_first copy) as [sorted|e] eqn:Hsort.
  - eexists. split; [reflexivity|]. split_and!; try done; [by apply Hnew| | |].
    + right. exists copy. by split.
    + intros s' t' all' copy' Heq Hok Hsp'. simplify_eq. simpl.
      assert (copy' = copy) as -> by congruence. by rewrite Hsort.
    + cbn [index_load_fails]. intros [H|[[e H]|(v & e & H & Hv)]]; [congruence|done|].
      injection H as <-. congruence.
  - eexists. split; [reflexivity|]. split_and!; try done; [by apply Hnew|by left|].
    intros s' t' all' copy' Heq Hok Hsp'. simplify_eq. simpl.
      assert (copy' = copy) as -> by congruence. by rewrite Hsort.
Qed.

(** ** More on navigation and rendering *)

Lemma loadPost_returns slug st :
  ∃ r st', loadPost slug CONFIG.MAX_RETRIES st = (Ok (Some r), st').
Proof.
  rewrite loadPost_run. destruct (loadedPosts st !! slug); [by eexists _, _|].
  destruct (getFromCache_frame slug st) as (o & st1 & -> & _).
  assert (Hloop : ∃ r st',
            retry_loop CONFIG.MAX_RETRIES slug CONFIG.MAX_RETRIES 0 st1 = (Ok (Some r), st')).
  { destruct (retry_loop_resolves CONFIG.MAX_RETRIES slug CONFIG.MAX_RETRIES 0 st1)
      as (r & st' & H & _); [done|unfold CONFIG.MAX_RETRIES; lia|]. by exists r, st'. }
  destruct o as [d|]; [|exact Hloop]. destruct (truthy_string d); [by eexists _, _|exact Hloop].
Qed.

(** A post is in a list only when some item of the list has its slug. *)
Lemma find_post_none slug items :
  (∀ p, In p items → ∃ s, get_member (lit "slug") p = Ok s ∧ strict_eq s slug = false) →
  find_post slug items = Ok None.
Proof.
  induction items as [|p items IH]; intros H; [done|].
  cbn [find_post]. destruct (H p) as (s & Hs1 & Hs2); [by left|].
  rewrite Hs1. cbn [mbind Res_bind]. rewrite Hs2. apply IH. intros q Hq. apply H. by right.
Qed.

(** X17. A slug that no post of the index has is never loaded:
    [renderPost] answers that the post was not found and leaves the state
    as it is, without a fetch and without a read of either cache. *)
Theorem renderPost_unknown_slug st slug items :
  allPosts st = JArr items →
  (∀ p, In p (posts st ++ items) →
     ∃ s, get_member (lit "slug") p = Ok s ∧ strict_eq s slug = false) →
  renderPost slug st = (Ok PostNotFound, st).
Proof.
  intros Hall Hno. unfold renderPost, mbind, Js_bind, gets, lift, mret, Js_ret.
  rewrite find_post_none; [|intros p Hp; apply Hno, in_or_app; by left].
  rewrite Hall. cbn [find_in].
  rewrite find_post_none; [done|intros p Hp; apply Hno, in_or_app; by right].
Qed.

Lemma renderPost_unknown_slug_witness :
  renderPost (Some (lit "nope")) online = (Ok PostNotFound, online).
Proof.
  apply (renderPost_unknown_slug online (Some (lit "nope")) [hello]).
  - reflexivity.
  - intros p [<-|[<-|[]]]; (eexists; split; [reflexivity|vm_compute; reflexivity]).
Defined.

(** X18. A post that the sorted list has under the slug is rendered as a
    post view around what [loadPost] returns, which is always a string:
    the markup or the error fragment. Nothing of the index, of the
    navigation state or of the page is touched on the way. *)
Theorem renderPost_known_slug st slug p :
  find_post slug (posts st) = Ok (Some p) →
  ∃ r st',
    loadPost slug CONFIG.MAX_RETRIES st = (Ok (Some r), st')
    ∧ renderPost slug st = (Ok (PostView p (Some (returned r))), st')
    ∧ unchanged st st'.
Proof.
  intros Hfind. destruct (loadPost_returns slug st) as (r & st' & Hload).
  exists r, st'. split; [exact Hload|]. split.
  - unfold renderPost, mbind, Js_bind, gets, lift, mret, Js_ret. by rewrite Hfind, Hload.
  - by eapply loadPost_frame.
Qed.

Lemma renderPost_known_slug_witness :
  ∃ r st',
    loadPost (Some (lit "hi")) CONFIG.MAX_RETRIES online = (Ok (Some r), st')
    ∧ renderPost (Some (lit "hi")) online = (Ok (PostView hello (Some (returned r))), st')
    ∧ unchanged online st'.
Proof.
  apply (renderPost_known_slug online (Some (lit "hi")) hello).
  vm_compute. reflexivity.
Defined.

(** X19. A render always returns to its caller. When the content of the
    view is computed, the page gets it and the loading indicator is
    hidden; when computing it throws, the page keeps what it had and the
    loading indicator stays visible. *)
Theorem render_loading_indicator st :
  fst (render st) = Ok tt
  ∧ match view_content (set_loadingHidden false st) with
    | (Ok content, _) =>
      appHtml (snd (render st)) = content ∧ loadingHidden (snd (render st)) = true
    | (Throw _, _) =>
      appHtml (snd (render st)) = appHtml st ∧ loadingHidden (snd (render st)) = false
    end.
Proof.
  rewrite render_run.
  destruct (view_content (set_loadingHidden false st)) as [[c|e] st2] eqn:Hv; [done|].
  split; [done|]. apply view_content_frame in Hv. unfold unchanged in Hv.
  cbn [snd]. destruct Hv as (_ & _ & _ & _ & _ & _ & Ha & Hl & _). by split.
Qed.

Lemma navigateTo_silent view slug st :
  ∃ st',
    dispatch (navigateTo view slug false) st = (Ok tt, st')
    ∧ currentView st' = view ∧ currentSlug st' = slug
    ∧ posts st' = posts st
    ∧ history st' = history st ∧ historyIndex st' = historyIndex st
    ∧ pushes (events st') = pushes (events st).
Proof.
  unfold dispatch, try_catch, navigateTo, mbind, Js_bind, modify, mret, Js_ret.
  match goal with
  | |- context [updatePageMeta ?s] => set (st1 := s)
  end.
  destruct (updatePageMeta_state st1) as [r Hm]. rewrite Hm.
  destruct r as [[]|e]; [|by exists st1].
  destruct (render_shows st1) as (st' & Hr & Hn & _). rewrite Hr.
  exists st'. split; [done|].
  unfold same_navigation in Hn. destruct Hn as (H2 & H3 & H4 & H5 & H6 & H7 & H8).
  subst st1. simpl in *. split_and!; congruence.
Qed.

Lemma history_back_null j st :
  historyIndex st = S j →
  default None (history st !! j) = None →
  history_back st = (Ok tt, set_historyIndex j st).
Proof.
  intros Hi Hh. unfold history_back, mbind, Js_bind, gets, modify. rewrite Hi.
  cbn [history set_historyIndex]. by rewrite Hh.
Qed.

(** X20. Back to an entry that was not pushed by the application, such as
    the entry the page was opened on, restores nothing: after a navigation
    from such an entry and the back button, the history is on the entry
    again, but the view, the slug and the page are those of the
    navigation. *)
Theorem back_to_unpushed_entry st view slug :
  history st !! historyIndex st = Some None →
  ∃ st1,
    dispatch (navigateTo view slug true) st = (Ok tt, st1)
    ∧ (dispatch (navigateTo view slug true);; history_back) st
      = (Ok tt, set_historyIndex (historyIndex st) st1)
    ∧ currentView st1 = view ∧ currentSlug st1 = slug
    ∧ historyIndex st1 = S (historyIndex st).
Proof.
  intros Hcur.
  destruct (navigateTo_pushes view slug st) as (st1 & Hrun & Hv & Hs & _ & Hh & Hi & _).
  exists st1. split; [exact Hrun|]. split_and!; try done.
  unfold mbind at 1, Js_bind. rewrite Hrun.
  apply history_back_null; [done|].
  assert (Hlt : (historyIndex st < length (history st))%nat).
  { apply lookup_lt_is_Some. by eexists. }
  rewrite Hh, lookup_app_l by (rewrite length_take; lia).
  rewrite lookup_take_lt by lia. by rewrite Hcur.
Qed.

Lemma back_to_unpushed_entry_witness :
  ∃ st1,
    dispatch (navigateTo (lit "post") (Some (lit "hi")) true) online = (Ok tt, st1)
    ∧ (dispatch (navigateTo (lit "post") (Some (lit "hi")) true);; history_back) online
      = (Ok tt, set_historyIndex (historyIndex online) st1)
    ∧ currentView st1 = lit "post" ∧ currentSlug st1 = Some (lit "hi")
    ∧ historyIndex st1 = S (historyIndex online).
Proof.
  apply (back_to_unpushed_entry online (lit "post") (Some (lit "hi"))).
  reflexivity.
Defined.

(** X21. From an entry that the application pushed, a navigation and the
    back button lead back to the pair of that entry, whatever the
    navigation was and whatever its render did; the entry of the
    navigation stays ahead in the history and nothing more is pushed. *)
Theorem navigate_then_back st view slug s0 :
  history st !! historyIndex st = Some (Some s0) →
  ∃ st',
    (dispatch (navigateTo view slug true);; history_back) st = (Ok tt, st')
    ∧ currentView st' = nav_view s0 ∧ currentSlug st' = nav_slug s0
    ∧ historyIndex st' = historyIndex st
    ∧ history st' = take (S (historyIndex st)) (history st) ++ [Some (mkNav view slug)]
    ∧ pushes (events st') = pushes (events st) ++ [mkNav view slug].
Proof.
  intros Hcur.
  destruct (navigateTo_pushes view slug st) as (st1 & Hrun & _ & _ & _ & Hh & Hi & Hp).
  assert (Hlt : (historyIndex st < length (history st))%nat).
  { apply lookup_lt_is_Some. by eexists. }
  assert (Hback : history_back st1
                  = dispatch (onPopState (Some s0)) (set_historyIndex (historyIndex st) st1)).
  { apply history_back_run; [done|].
    rewrite Hh, lookup_app_l by (rewrite length_take; lia).
    by rewrite lookup_take_lt by lia. }
  destruct (onPopState_restores s0 (set_historyIndex (historyIndex st) st1))
    as (st' & Hrun3 & Hv & Hs & _ & Hh3 & Hi3 & He3 & _).
  exists st'. split.
  { unfold mbind at 1, Js_bind. by rewrite Hrun, Hback. }
  simpl in Hh3, Hi3, He3. split_and!; congruence.
Qed.

Lemma navigate_then_back_witness :
  ∃ st',
    (dispatch (navigateTo (lit "search") None true);; history_back)
      (set_history [Some (mkNav (lit "contacts") None)] online) = (Ok tt, st')
    ∧ currentView st' = nav_view (mkNav (lit "contacts") None)
    ∧ currentSlug st' = nav_slug (mkNav (lit "contacts") None)
    ∧ historyIndex st' = historyIndex (set_history [Some (mkNav (lit "contacts") None)] online)
    ∧ history st'
      = take (S (historyIndex (set_history [Some (mkNav (lit "contacts") None)] online)))
          (history (set_history [Some (mkNav (lit "contacts") None)] online))
          ++ [Some (mkNav (lit "search") None)]
    ∧ pushes (events st')
      = pushes (events (set_history [Some (mkNav (lit "contacts") None)] online))
          ++ [mkNav (lit "search") None].
Proof.
  apply (navigate_then_back (set_history [Some (mkNav (lit "contacts") None)] online)
           (lit "search") None (mkNav (lit "contacts") None)).
  reflexivity.
Defined.

(** X22. The current entry of the history always exists: a navigation,
    with or without a push, the back button and the listener of
    [popstate] keep the index within the entries. A navigation without a
    push leaves the history as it is. *)
Theorem history_ok_kept st :
  history_ok st →
  (∀ view slug push, history_ok (snd (dispatch (navigateTo view slug push) st)))
  ∧ (∀ view slug,
       history (snd (dispatch (navigateTo view slug false) st)) = history st
       ∧ historyIndex (snd (dispatch (navigateTo view slug false) st)) = historyIndex st)
  ∧ history_ok (snd (history_back st))
  ∧ (∀ state, history_ok (snd (dispatch (onPopState state) st))).
Proof.
  unfold history_ok. intros Hok.
  assert (Hpop : ∀ state st0, (historyIndex st0 < length (history st0))%nat →
            (historyIndex (snd (dispatch (onPopState state) st0))
             < length (history (snd (dispatch (onPopState state) st0))))%nat).
  { intros [s|] st0 H0; [|done].
    destruct (onPopState_restores s st0) as (st' & -> & _ & _ & _ & Hh & Hi & _).
    cbn [snd]. by rewrite Hh, Hi. }
  split_and!.
  - intros view slug [|].
    + destruct (navigateTo_pushes view slug st) as (st' & -> & _ & _ & _ & Hh & Hi & _).
      cbn [snd]. rewrite Hh, Hi, length_app, length_take. cbn [length]. lia.
    + destruct (navigateTo_silent view slug st) as (st' & -> & _ & _ & _ & Hh & Hi & _).
      cbn [snd]. by rewrite Hh, Hi.
  - intros view slug.
    destruct (navigateTo_silent view slug st) as (st' & -> & _ & _ & _ & Hh & Hi & _).
    by split.
  - unfold history_back, mbind, Js_bind, gets, modify, mret, Js_ret.
    destruct (historyIndex st) as [|j] eqn:Hi; [cbn [snd]; lia|].
    cbn [history set_historyIndex]. apply Hpop. simpl. lia.
  - intros state. by apply Hpop.
Qed.

Lemma history_ok_kept_witness :
  (∀ view slug push, history_ok (snd (dispatch (navigateTo view slug push) online)))
  ∧ (∀ view slug,
       history (snd (dispatch (navigateTo view slug false) online)) = history online
       ∧ historyIndex (snd (dispatch (navigateTo view slug false) online))
         = historyIndex online)
  ∧ history_ok (snd (history_back online))
  ∧ (∀ state, history_ok (snd (dispatch (onPopState state) online))).
Proof.
  apply (history_ok_kept online). unfold history_ok. simpl. lia.
Defined.

(** ** Start-up *)

Lemma loadPosts_frame sort_newest_first st :
  ∃ st1,
    loadPosts sort_newest_first st = (Ok tt, st1)
    ∧ events st1 = events st ++ [EvFetch index_url]
    ∧ fetches st1 = S (fetches st)
    ∧ currentView st1 = currentView st
    ∧ (index_load_fails (network st (fetches st) index_url) → posts st1 = []).
Proof.
  rewrite loadPosts_run. cbv zeta.
  destruct (network st (fetches st) index_url) as [e|s t j]; cbn [index_load_fails].
  { eexists. split; [reflexivity|]. by split_and!. }
  destruct (status_ok s).
  2:{ eexists. split; [reflexivity|]. by split_and!. }
  destruct j as [all|e].
  2:{ eexists. split; [reflexivity|]. by split_and!. }
  destruct (spread all) as [copy|e] eqn:Hsp.
  2:{ eexists. split; [reflexivity|]. by split_and!. }
  destruct (sort_newest_first copy) as [sorted|e].
  - eexists. split; [reflexivity|]. split_and!; try done.
    intros [H|[[e H]|(v & e & H & Hv)]]; [done|done|]. injection H as <-. congruence.
  - eexists. split; [reflexivity|]. by split_and!.
Qed.

Lemma render_home st :
  currentView st = lit "home" →
  render st =
  match read_cards (posts st) with
  | Ok _ =>
    (Ok tt, set_loadingHidden true
              (set_appHtml (PostsList (posts st)) (set_loadingHidden false st)))
  | Throw _ => (Ok tt, set_loadingHidden false st)
  end.
Proof.
  intros Hv. rewrite render_run. unfold view_content, mbind, Js_bind, gets.
  cbn [currentView set_loadingHidden]. rewrite Hv, bool_decide_eq_true_2 by done.
  rewrite renderPostsList_run. cbn [posts set_loadingHidden].
  by destruct (read_cards (posts st)).
Qed.

Lemma initTheme_run st :
  initTheme st =
  if storageDenied st then (Throw SecurityError, st)
  else (Ok tt, logged (EvGetItem (lit "theme")) st).
Proof.
  unfold initTheme, localStorage_getItem, mbind, Js_bind, gets, throw, emit, modify, mret,
    Js_ret, logged.
  by destruct (storageDenied st).
Qed.

(** X23. On a new [Blog] in a browser whose storage can be read, [init]
    reads the theme, returns normally after the one fetch of the index and
    renders the home view: the listing of the sorted posts, with the
    loading indicator hidden, when no post is [null]; and when the load of
    the index fails, the empty listing. In a browser that denies the page
    its storage, [init] throws at the read of the theme, before anything
    else: nothing is fetched, the index stays empty and the page and the
    loading indicator stay as they were served. *)
Theorem init_renders_the_listing (sort_newest_first : list json → Res (list json)) browser :
  (storageDenied browser = false →
   ∃ st',
     init sort_newest_first (constructor browser) = (Ok tt, st')
     ∧ currentView st' = lit "home"
     ∧ fetches st' = S (fetches browser)
     ∧ new_events (constructor browser) st' = [EvGetItem (lit "theme"); EvFetch index_url]
     ∧ (read_cards (posts st') = Ok tt →
          appHtml st' = PostsList (posts st') ∧ loadingHidden st' = true)
     ∧ (index_load_fails (network browser (fetches browser) index_url) →
          posts st' = [] ∧ appHtml st' = PostsList [] ∧ loadingHidden st' = true))
  ∧ (storageDenied browser = true →
     init sort_newest_first (constructor browser) = (Throw SecurityError, constructor browser)
     ∧ posts (constructor browser) = []
     ∧ fetches (constructor browser) = fetches browser
     ∧ appHtml (constructor browser) = appHtml browser
     ∧ loadingHidden (constructor browser) = loadingHidden browser).
Proof.
  split.
  - intros Hden.
    set (st0 := logged (EvGetItem (lit "theme")) (constructor browser)).
    destruct (loadPosts_frame sort_newest_first st0) as (st1 & Hload & Hev & Hf & Hv & Hfail).
    change (currentView st0) with (lit "home") in Hv.
    change (fetches st0) with (fetches browser) in Hf.
    change (network st0) with (network browser) in Hfail.
    change (fetches st0) with (fetches browser) in Hfail.
    change (events st0) with (events (constructor browser) ++ [EvGetItem (lit "theme")]) in Hev.
    rewrite <- app_assoc in Hev. cbn [app] in Hev.
    unfold init, mbind, Js_bind. rewrite initTheme_run.
    change (storageDenied (constructor browser)) with (storageDenied browser). rewrite Hden.
    fold st0. rewrite Hload, (render_home st1 Hv).
    destruct (read_cards (posts st1)) as [[]|e] eqn:Hcards.
    + eexists. split; [reflexivity|]. cbn [currentView fetches posts appHtml loadingHidden
                                            set_loadingHidden set_appHtml].
      split_and!; try done.
      * by apply new_events_app.
      * intros H. rewrite (Hfail H). by split_and!.
    + eexists. split; [reflexivity|]. cbn [currentView fetches posts appHtml loadingHidden
                                            set_loadingHidden].
      split_and!; try done.
      * by apply new_events_app.
      * congruence.
      * intros H. rewrite (Hfail H) in Hcards. done.
  - intros Hden. split_and!; try reflexivity.
    unfold init, mbind, Js_bind. rewrite initTheme_run.
    change (storageDenied (constructor browser)) with (storageDenied browser).
    by rewrite Hden.
Qed.

Lemma init_renders_the_listing_witness :
  (∃ st',
     init Ok (constructor offline) = (Ok tt, st')
     ∧ fetches st' = 1%nat
     ∧ posts st' = [] ∧ appHtml st' = PostsList [] ∧ loadingHidden st' = true)
  ∧ init Ok (constructor blocked) = (Throw SecurityError, constructor blocked).
Proof.
  split.
  - destruct (init_renders_the_listing Ok offline) as [Hread _].
    destruct (Hread eq_refl) as (st' & Hrun & _ & Hf & _ & _ & Hfail).
    exists st'. split; [exact Hrun|]. split; [exact Hf|]. apply Hfail. exact I.
  - destruct (init_renders_the_listing Ok blocked) as [_ Hdenied].
    apply (Hdenied eq_refl).
Defined.

(** ** Reading time *)

Lemma split_from_nonempty s : ∀ word skipping, (1 ≤ length (split_from word skipping s))%nat.
Proof.
  induction s as [|c s IH]; intros word skipping; simpl; [lia|].
  destruct (is_white_space c); [destruct skipping|]; simpl; try apply IH. lia.
Qed.

(** X24. The reading time is the number of words divided by 200 and
    rounded up, and never less than one minute: text with no word at all,
    the empty content included, counts as one word. *)
Theorem calculateReadTime_rounds_up content :
  1 ≤ word_count content
  ∧ 1 ≤ calculateReadTime content
  ∧ word_count content ≤ 200 * calculateReadTime content
  ∧ 200 * (calculateReadTime content - 1) < word_count content
  ∧ (blank (strip_tags content) → calculateReadTime content = 1).
Proof.
  assert (Hw : 1 ≤ word_count content).
  { unfold word_count, split_white_space.
    pose proof (split_from_nonempty (trim (strip_tags content)) [] false). lia. }
  unfold calculateReadTime, CONFIG.WORDS_PER_MINUTE. split_and!; try done.
  - apply N.div_le_lower_bound; lia.
  - pose proof (N.mul_succ_div_gt (word_count content + (200 - 1)) 200 ltac:(done)). lia.
  - pose proof (N.Div0.mul_div_le (word_count content + (200 - 1)) 200). lia.
  - intros Hb. apply trim_nil in Hb. unfold word_count. rewrite Hb. reflexivity.
Qed.

Lemma strip_plain pre rest :
  Forall (λ c, c ≠ 0x3C) pre →
  strip_tags_from None (pre ++ rest) = pre ++ strip_tags_from None rest.
Proof.
  induction 1 as [|c pre Hc _ IH]; [done|].
  cbn [app strip_tags_from]. apply N.eqb_neq in Hc. by rewrite Hc, IH.
Qed.

Lemma strip_inside body : ∀ held rest,
  Forall (λ c, c ≠ 0x3E) body →
  strip_tags_from (Some held) (body ++ 0x3E :: rest) = strip_tags_from None rest.
Proof.
  induction body as [|c body IH]; intros held rest Hb.
  - reflexivity.
  - inversion Hb as [|? ? Hc Hb']; subst. cbn [app strip_tags_from].
    apply N.eqb_neq in Hc. rewrite Hc. by apply IH.
Qed.

Lemma strip_unclosed rest : ∀ held,
  Forall (λ c, c ≠ 0x3E) rest →
  strip_tags_from (Some held) rest = rev held ++ rest.
Proof.
  induction rest as [|c rest IH]; intros held Hr.
  - cbn [strip_tags_from]. by rewrite app_nil_r.
  - inversion Hr as [|? ? Hc Hr']; subst. cbn [strip_tags_from].
    apply N.eqb_neq in Hc. rewrite Hc, IH by done. cbn [rev]. by rewrite <- app_assoc.
Qed.

(** X25. Stripping removes each tag, from its [<] to the first [>] after
    it, and nothing else: text before the first [<] stays as it is, a tag
    contributes nothing to the reading time, and a [<] that no [>] follows
    stays in the text with all that comes after it. *)
Theorem strip_tags_removes_tags pre body rest :
  Forall (λ c, c ≠ 0x3C) pre →
  Forall (λ c, c ≠ 0x3E) body →
  strip_tags (pre ++ tag body ++ rest) = pre ++ strip_tags rest
  ∧ calculateReadTime (tag body ++ rest) = calculateReadTime rest
  ∧ strip_tags (pre ++ 0x3C :: body) = pre ++ 0x3C :: body.
Proof.
  intros Hpre Hbody.
  assert (Htag : ∀ r, strip_tags_from None (tag body ++ r) = strip_tags_from None r).
  { intros r. unfold tag. cbn [app strip_tags_from N.eqb Pos.eqb].
    rewrite <- app_assoc. by apply strip_inside. }
  unfold strip_tags. split_and!.
  - by rewrite strip_plain, Htag.
  - unfold calculateReadTime, word_count, strip_tags. by rewrite Htag.
  - rewrite strip_plain by done. cbn [strip_tags_from N.eqb Pos.eqb].
    by rewrite strip_unclosed.
Qed.

Lemma strip_tags_removes_tags_witness :
  strip_tags (lit "Hi " ++ tag (lit "b class=x") ++ lit "there</b>")
  = lit "Hi " ++ strip_tags (lit "there</b>")
  ∧ calculateReadTime (tag (lit "b class=x") ++ lit "there</b>")
    = calculateReadTime (lit "there</b>")
  ∧ strip_tags (lit "Hi " ++ 0x3C :: lit "b class=x") = lit "Hi " ++ 0x3C :: lit "b class=x".
Proof.
  apply (strip_tags_removes_tags (lit "Hi ") (lit "b class=x") (lit "there</b>")).
  - vm_compute. repeat (constructor; [discriminate|]). constructor.
  - vm_compute. repeat (constructor; [discriminate|]). constructor.
Defined.

(** ** The theme *)

Lemma dark_is_not_light : lit "dark" ≠ lit "light".
Proof. intros H. vm_compute in H. discriminate H. Qed.

Lemma light_is_not_dark : Some (lit "light") ≠ Some (lit "dark").
Proof. intros H. vm_compute in H. discriminate H. Qed.

(** X26. A click on the toggle, when the storage takes the write, leaves
    the document dark if it was not dark and light if it was, stores that
    same theme and sets the colour of the meta element, if the page has
    one, to match; so two clicks restore a theme that was dark or light,
    and any other value, or none, becomes dark at the first click. *)
Theorem toggle_theme (s : Theme.State) :
  Theme.storageFails s = false →
  fst (Theme.toggle s) = Ok tt
  ∧ Theme.dataTheme (snd (Theme.toggle s))
    = Some (if bool_decide (Theme.dataTheme s = Some (lit "dark")) then lit "light"
            else lit "dark")
  ∧ Theme.storedTheme (snd (Theme.toggle s)) = Theme.dataTheme (snd (Theme.toggle s))
  ∧ (∀ colour, Theme.metaThemeColor s = Some colour →
       Theme.metaThemeColor (snd (Theme.toggle s))
       = Some (if bool_decide (Theme.dataTheme s = Some (lit "dark")) then lit "#ffffff"
               else lit "#1a1a1a"))
  ∧ (Theme.metaThemeColor s = None → Theme.metaThemeColor (snd (Theme.toggle s)) = None)
  ∧ (Theme.dataTheme s = Some (lit "dark") ∨ Theme.dataTheme s = Some (lit "light") →
       Theme.dataTheme (snd (Theme.toggle (snd (Theme.toggle s)))) = Theme.dataTheme s).
Proof.
  intros Hst.
  assert (Hrun : ∀ s0, Theme.storageFails s0 = false →
    Theme.toggle s0
    = (Ok tt,
       Theme.mkState
         (Some (if bool_decide (Theme.dataTheme s0 = Some (lit "dark")) then lit "light"
                else lit "dark"))
         (Some (if bool_decide (Theme.dataTheme s0 = Some (lit "dark")) then lit "light"
                else lit "dark"))
         false
         (match Theme.metaThemeColor s0 with
          | Some _ => Some (Theme.theme_color
                              (if bool_decide (Theme.dataTheme s0 = Some (lit "dark"))
                               then lit "light" else lit "dark"))
          | None => None
          end))).
  { intros s0 H0. unfold Theme.toggle. cbn [Theme.storageFails Theme.metaThemeColor
      Theme.dataTheme Theme.storedTheme]. rewrite H0. by destruct (Theme.metaThemeColor s0). }
  assert (Hcolour : ∀ b : bool,
            Theme.theme_color (if b then lit "light" else lit "dark")
            = if b then lit "#ffffff" else lit "#1a1a1a").
  { intros [|]; unfold Theme.theme_color.
    - rewrite bool_decide_eq_false_2; [done|]. intros H. by apply dark_is_not_light.
    - by rewrite bool_decide_eq_true_2. }
  rewrite (Hrun s Hst). cbn [fst snd Theme.dataTheme Theme.storedTheme Theme.metaThemeColor].
  split_and!; try done.
  - intros colour ->. by rewrite Hcolour.
  - by intros ->.
  - intros Hd. rewrite Hrun by done. cbn [snd Theme.dataTheme]. destruct Hd as [Hd|Hd]; rewrite Hd.
    + rewrite (bool_decide_eq_true_2 (Some (lit "dark") = Some (lit "dark"))) by done.
      by rewrite (bool_decide_eq_false_2 (Some (lit "light") = Some (lit "dark")))
        by apply light_is_not_dark.
    + rewrite (bool_decide_eq_false_2 (Some (lit "light") = Some (lit "dark")))
        by apply light_is_not_dark.
      by rewrite (bool_decide_eq_true_2 (Some (lit "dark") = Some (lit "dark"))).
Qed.

Lemma toggle_theme_witness :
  Theme.dataTheme
    (snd (Theme.toggle (snd (Theme.toggle
       (Theme.mkState (Some (lit "light")) None false (Some (lit "#ffffff")))))))
  = Some (lit "light").
Proof.
  destruct (toggle_theme (Theme.mkState (Some (lit "light")) None false (Some (lit "#ffffff"))))
    as (_ & _ & _ & _ & _ & Htwice); [reflexivity|].
  apply Htwice. right. reflexivity.
Defined.

(** X27. The theme survives a reload when the click could store it, and
    only then: after a click whose write the storage refuses, the listener
    has thrown with the document already switched, and a reload shows the
    theme that was stored before, or light when none was. With nothing
    stored, or the empty string, [initTheme] chooses light; any other
    stored string is taken as it is. *)
Theorem theme_after_reload (s : Theme.State) served_meta :
  (Theme.storageFails s = false →
     Theme.dataTheme (Theme.reload served_meta (snd (Theme.toggle s)))
     = Theme.dataTheme (snd (Theme.toggle s)))
  ∧ (Theme.storageFails s = true →
       fst (Theme.toggle s) = Throw QuotaExceededError
       ∧ Theme.dataTheme (snd (Theme.toggle s))
         = Some (if bool_decide (Theme.dataTheme s = Some (lit "dark")) then lit "light"
                 else lit "dark")
       ∧ Theme.storedTheme (snd (Theme.toggle s)) = Theme.storedTheme s
       ∧ Theme.dataTheme (Theme.reload served_meta (snd (Theme.toggle s)))
         = Theme.dataTheme (Theme.reload served_meta s))
  ∧ (Theme.storedTheme s = None ∨ Theme.storedTheme s = Some [] →
       Theme.dataTheme (Theme.initTheme s) = Some (lit "light"))
  ∧ (∀ c saved, Theme.storedTheme s = Some (c :: saved) →
       Theme.dataTheme (Theme.initTheme s) = Some (c :: saved))
  ∧ Theme.metaThemeColor (Theme.reload served_meta s) = served_meta.
Proof.
  split_and!.
  - intros Hst. unfold Theme.toggle. cbn [Theme.storageFails]. rewrite Hst.
    destruct (Theme.metaThemeColor _); cbn [snd]; unfold Theme.reload, Theme.initTheme;
      cbn [Theme.storedTheme Theme.dataTheme];
      by destruct (bool_decide (Theme.dataTheme s = Some (lit "dark"))).
  - intros Hst. unfold Theme.toggle. cbn [Theme.storageFails]. rewrite Hst.
    cbn [fst snd Theme.dataTheme Theme.storedTheme]. split_and!; try done.
    unfold Theme.reload, Theme.initTheme. cbn [Theme.storedTheme].
    by destruct (Theme.storedTheme s) as [[|c saved]|].
  - intros [H|H]; unfold Theme.initTheme; cbv zeta; by rewrite H.
  - intros c saved H. unfold Theme.initTheme. cbv zeta. by rewrite H.
  - unfold Theme.reload, Theme.initTheme. cbn [Theme.storedTheme].
    destruct (Theme.storedTheme s) as [[|c saved]|]; reflexivity.
Qed.

(** ** More on the language manager *)

Lemma ru_is_not_en : lit "ru" ≠ lit "en".
Proof. intros H. vm_compute in H. discriminate H. Qed.

Lemma en_is_not_ru : lit "en" ≠ lit "ru".
Proof. intros H. vm_compute in H. discriminate H. Qed.

(** X28. [toggleLanguage] always asks for a language other than the
    current one, Russian unless the current one is Russian, so that it
    never returns at the guard of [setLanguage]: when the preference can
    be stored it reloads the page once with the new language stored and
    set on the document, and two toggles lead back to a language that was
    Russian or English. *)
Theorem toggleLanguage_switches (s : Language.State) :
  Language.storageFails s = false →
  fst (Language.toggleLanguage s) = Ok tt
  ∧ Language.currentLang (snd (Language.toggleLanguage s))
    = (if bool_decide (Language.currentLang s = lit "ru") then lit "en" else lit "ru")
  ∧ Language.currentLang (snd (Language.toggleLanguage s)) ≠ Language.currentLang s
  ∧ Language.storedLanguage (snd (Language.toggleLanguage s))
    = Some (Language.currentLang (snd (Language.toggleLanguage s)))
  ∧ Language.documentLang (snd (Language.toggleLanguage s))
    = Language.currentLang (snd (Language.toggleLanguage s))
  ∧ Language.reloads (snd (Language.toggleLanguage s)) = S (Language.reloads s)
  ∧ (Language.currentLang s = lit "ru" ∨ Language.currentLang s = lit "en" →
       Language.currentLang
         (snd (Language.toggleLanguage (snd (Language.toggleLanguage s))))
       = Language.currentLang s).
Proof.
  intros Hst.
  assert (Hrun : ∀ s0, Language.storageFails s0 = false →
    Language.toggleLanguage s0
    = (Ok tt,
       Language.mkState
         (if bool_decide (Language.currentLang s0 = lit "ru") then lit "en" else lit "ru")
         (Some (if bool_decide (Language.currentLang s0 = lit "ru") then lit "en"
                else lit "ru"))
         false
         (if bool_decide (Language.currentLang s0 = lit "ru") then lit "en" else lit "ru")
         (S (Language.reloads s0)))).
  { intros s0 H0. unfold Language.toggleLanguage, Language.setLanguage.
    cbn [Language.storageFails Language.reloads].
    destruct (bool_decide (Language.currentLang s0 = lit "ru")) eqn:Hru.
    - apply bool_decide_eq_true_1 in Hru.
      rewrite bool_decide_eq_false_2 by (rewrite Hru; apply ru_is_not_en).
      rewrite H0. unfold Language.document_lang_for.
      by rewrite (bool_decide_eq_false_2 (lit "en" = lit "ru")) by apply en_is_not_ru.
    - apply bool_decide_eq_false_1 in Hru.
      rewrite bool_decide_eq_false_2 by done.
      rewrite H0. unfold Language.document_lang_for. by rewrite bool_decide_eq_true_2. }
  rewrite (Hrun s Hst).
  cbn [fst snd Language.currentLang Language.storedLanguage Language.documentLang
       Language.reloads].
  split_and!; try done.
  - case_bool_decide as Hru; [rewrite Hru|done].
    intros H. symmetry in H. by apply ru_is_not_en.
  - intros Hl. rewrite Hrun by done. cbn [snd Language.currentLang].
    destruct Hl as [Hl|Hl]; rewrite Hl.
    + rewrite (bool_decide_eq_true_2 (lit "ru" = lit "ru")) by done.
      by rewrite (bool_decide_eq_false_2 (lit "en" = lit "ru")) by apply en_is_not_ru.
    + rewrite (bool_decide_eq_false_2 (lit "en" = lit "ru")) by apply en_is_not_ru.
      by rewrite (bool_decide_eq_true_2 (lit "ru" = lit "ru")).
Qed.

Lemma toggleLanguage_switches_witness :
  Language.currentLang
    (snd (Language.toggleLanguage (snd (Language.toggleLanguage
       (Language.constructor None false)))))
  = Language.currentLang (Language.constructor None false).
Proof.
  destruct (toggleLanguage_switches (Language.constructor None false))
    as (_ & _ & _ & _ & _ & _ & Htwice); [reflexivity|].
  apply Htwice. left. reflexivity.
Defined.

(** X29. A language set with [setLanguage] is the language of the manager
    that the reloaded page constructs, when the preference could be stored
    and is not the empty string. When the storage refuses the write,
    [setLanguage] throws after the current language has changed: nothing
    is stored, the language of the document is not updated, the page is
    not reloaded, and a reload brings the stored language back. *)
Theorem setLanguage_persists (s : Language.State) lang :
  Language.currentLang s ≠ lang →
  (Language.storageFails s = false → lang ≠ [] →
     fst (Language.setLanguage lang s) = Ok tt
     ∧ Language.currentLang (Language_reload (snd (Language.setLanguage lang s))) = lang
     ∧ Language.documentLang (Language_reload (snd (Language.setLanguage lang s)))
       = Language.documentLang (snd (Language.setLanguage lang s)))
  ∧ (Language.storageFails s = true →
       fst (Language.setLanguage lang s) = Throw QuotaExceededError
       ∧ Language.currentLang (snd (Language.setLanguage lang s)) = lang
       ∧ Language.storedLanguage (snd (Language.setLanguage lang s))
         = Language.storedLanguage s
       ∧ Language.documentLang (snd (Language.setLanguage lang s)) = Language.documentLang s
       ∧ Language.reloads (snd (Language.setLanguage lang s)) = Language.reloads s
       ∧ Language.currentLang (Language_reload (snd (Language.setLanguage lang s)))
         = Language.currentLang (Language_reload s)).
Proof.
  intros Hne. unfold Language.setLanguage. rewrite bool_decide_eq_false_2 by done.
  cbn [Language.storageFails]. split.
  - intros -> Hl. cbn [fst snd]. unfold Language_reload, Language.constructor.
    cbn [Language.storedLanguage Language.storageFails Language.currentLang
         Language.documentLang].
    destruct lang as [|c lang]; [done|]. by cbn [truthy_string].
  - intros ->. cbn [fst snd Language.currentLang Language.storedLanguage
                    Language.documentLang Language.reloads]. by split_and!.
Qed.

Lemma setLanguage_persists_witness :
  fst (Language.setLanguage (lit "en") (Language.constructor None false)) = Ok tt
  ∧ Language.currentLang
      (Language_reload (snd (Language.setLanguage (lit "en") (Language.constructor None false))))
    = lit "en"
  ∧ Language.documentLang
      (Language_reload (snd (Language.setLanguage (lit "en") (Language.constructor None false))))
    = Language.documentLang
        (snd (Language.setLanguage (lit "en") (Language.constructor None false))).
Proof.
  destruct (setLanguage_persists (Language.constructor None false) (lit "en")) as [H _].
  - apply ru_is_not_en.
  - apply H; [reflexivity|]. vm_compute. discriminate.
Defined.

(** ** Asynchronous methods *)

(** *** A call that nothing interrupts *)

Lemma alone_and_then {A B} (o : Outcome A) (k : A → St → Outcome B) :
  alone (and_then o k) =
  match alone o with
  | (Ok a, st) => alone (k a st)
  | (Throw e, st) => (Throw e, st)
  end.
Proof.
  induction o as [[a|e] st|[|due] st rest IH]; simpl; try done; apply IH.
Qed.

Lemma alone_or_catch {A} (o : Outcome A) (handler : Error → St → Outcome A) :
  alone (or_catch o handler) =
  match alone o with
  | (Ok a, st) => (Ok a, st)
  | (Throw e, st) => alone (handler e st)
  end.
Proof.
  induction o as [[a|e] st|[|due] st rest IH]; simpl; try done; apply IH.
Qed.

Lemma alone_sync {A} (m : Js A) st : alone (sync m st) = m st.
Proof. unfold sync. by destruct (m st). Qed.

Lemma fetch_alone url st : alone (EventLoop.fetch url st) = fetch url st.
Proof.
  unfold EventLoop.fetch, fetch, mbind, Async_bind, Js_bind, sync, await, emit, modify, gets,
    throw, mret, Async_ret, Js_ret.
  simpl. by destruct (network st (fetches st) url).
Qed.

Lemma sleep_alone ms st : alone (EventLoop.sleep ms st) = sleep ms st.
Proof. reflexivity. Qed.

Lemma attempt_alone slug st : alone (EventLoop.attempt slug st) = attempt slug st.
Proof.
  unfold EventLoop.attempt, attempt, mbind, Async_bind, Js_bind.
  rewrite alone_and_then, fetch_alone.
  destruct (fetch (post_url slug) st) as [[response|e] st1]; [|done].
  destruct (negb (status_ok (status response))); [by rewrite alone_sync|].
  rewrite alone_and_then. unfold EventLoop.response_text, mbind, Async_bind, await.
  cbn [and_then alone]. rewrite alone_sync. unfold lift, gets, modify, throw.
  destruct (text response) as [markdown|e]; [|done].
  rewrite alone_and_then, alone_sync.
  destruct (marked st1) as [marked_parse|]; [|by rewrite alone_sync].
  rewrite alone_and_then, alone_sync.
  destruct (marked_parse markdown) as [html|e]; [|done].
  rewrite alone_and_then, alone_sync.
  rewrite alone_and_then, alone_sync.
  by destruct (saveToCache slug html _) as [[[]|e] st2].
Qed.

Lemma retry_loop_alone fuel : ∀ slug retries i st,
  alone (EventLoop.retry_loop fuel slug retries i st) = retry_loop fuel slug retries i st.
Proof.
  induction fuel as [|fuel IH]; intros slug retries i st; [done|].
  cbn [EventLoop.retry_loop retry_loop].
  destruct (negb (i <? retries)%nat); [done|].
  unfold try_await, try_catch. rewrite alone_or_catch, attempt_alone.
  destruct (attempt slug st) as [[r|e] st1]; [done|].
  destruct (i =? retries - 1)%nat; [done|].
  unfold mbind, Async_bind, Js_bind. rewrite alone_and_then, sleep_alone.
  destruct (sleep _ st1) as [[[]|e'] st2] eqn:Hs; [apply IH|].
  unfold sleep, mbind, Js_bind, emit, modify in Hs. discriminate Hs.
Qed.

Lemma loadPost_alone slug retries st :
  alone (EventLoop.loadPost slug retries st) = loadPost slug retries st.
Proof.
  unfold EventLoop.loadPost, loadPost, mbind, Async_bind, Js_bind.
  rewrite alone_and_then, alone_sync. unfold gets, modify.
  destruct (loadedPosts st !! slug) as [html|]; [done|].
  rewrite alone_and_then, alone_sync.
  destruct (getFromCache slug st) as [[[data|]|e] st1]; [|apply retry_loop_alone|done].
  destruct (truthy_string data); [|apply retry_loop_alone].
  by rewrite alone_and_then, alone_sync.
Qed.

Lemma renderPost_alone slug st : alone (EventLoop.renderPost slug st) = renderPost slug st.
Proof.
  unfold EventLoop.renderPost, renderPost, mbind, Async_bind, Js_bind.
  rewrite alone_and_then, alone_sync. unfold gets, lift.
  rewrite alone_and_then, alone_sync.
  destruct (find_post slug (posts st)) as [[p|]|e]; [| |done].
  - rewrite alone_and_then. cbn [mret Async_ret Js_ret alone].
    rewrite alone_and_then, loadPost_alone.
    by destruct (loadPost slug CONFIG.MAX_RETRIES st) as [[r|e] st1].
  - rewrite alone_and_then. rewrite alone_and_then, alone_sync.
    rewrite alone_sync.
    destruct (find_in slug (allPosts st)) as [[p|]|e]; [|done|done].
    rewrite alone_and_then, loadPost_alone.
    by destruct (loadPost slug CONFIG.MAX_RETRIES st) as [[r|e] st1].
Qed.

Lemma view_content_alone st : alone (EventLoop.view_content st) = view_content st.
Proof.
  unfold EventLoop.view_content, view_content, mbind, Async_bind, Js_bind.
  rewrite alone_and_then, alone_sync. unfold gets.
  repeat case_bool_decide; try apply alone_sync; try done.
  rewrite alone_and_then, alone_sync. apply renderPost_alone.
Qed.

(** The method [render] that runs in one go is the asynchronous one when
    nothing interrupts it and the animation frame comes at once. *)
Lemma render_alone st :
  render st =
  match alone (EventLoop.render st) with
  | (Ok content, st') => (Ok tt, snd (EventLoop.frameCallback content st'))
  | (Throw e, st') => (Ok tt, st')
  end.
Proof.
  rewrite render_run. unfold EventLoop.render, mbind, Async_bind.
  rewrite alone_and_then, alone_sync. unfold showLoading, modify.
  rewrite view_content_alone.
  by destruct (view_content (set_loadingHidden false st)) as [[content|e] st'].
Qed.

(** *** What a suspended call leaves alone *)

Lemma keeps_weaken {A} st0 st1 (o : Outcome A) :
  unchanged st0 st1 → keeps unchanged st1 o → keeps unchanged st0 o.
Proof.
  intros H01. destruct o as [r st|on st rest]; simpl.
  - by apply unchanged_trans.
  - intros [H1 H2]. split; [by eapply unchanged_trans|exact H2].
Qed.

Lemma keeps_and_then {A B} (o : Outcome A) (k : A → St → Outcome B) : ∀ st0,
  keeps unchanged st0 o →
  (∀ a st, keeps unchanged st (k a st)) →
  keeps unchanged st0 (and_then o k).
Proof.
  induction o as [[a|e] st|on st rest IH]; intros st0; simpl.
  - intros H Hk. eapply keeps_weaken; [exact H|apply Hk].
  - done.
  - intros [H1 H2] Hk. split; [done|]. intros st'. by apply IH.
Qed.

Lemma keeps_or_catch {A} (o : Outcome A) (handler : Error → St → Outcome A) : ∀ st0,
  keeps unchanged st0 o →
  (∀ e st, keeps unchanged st (handler e st)) →
  keeps unchanged st0 (or_catch o handler).
Proof.
  induction o as [[a|e] st|on st rest IH]; intros st0; simpl.
  - done.
  - intros H Hk. eapply keeps_weaken; [exact H|apply Hk].
  - intros [H1 H2] Hk. split; [done|]. intros st'. by apply IH.
Qed.

Lemma keeps_sync {A} (m : Js A) st :
  (∀ r st', m st = (r, st') → unchanged st st') → keeps unchanged st (sync m st).
Proof. intros H. unfold sync. destruct (m st) as [r st'] eqn:Hm. simpl. by eapply H. Qed.

Lemma fetch_keeps url st : keeps unchanged st (EventLoop.fetch url st).
Proof.
  unfold EventLoop.fetch, mbind, Async_bind, sync, await, emit, modify, gets, throw, mret,
    Async_ret.
  cbn [and_then keeps]. split; [apply (unchanged_fetched url st)|].
  intros st'. destruct (network st' _ url); apply unchanged_refl.
Qed.

Lemma sleep_keeps ms st : keeps unchanged st (EventLoop.sleep ms st).
Proof.
  unfold EventLoop.sleep, mbind, Async_bind, sync, await, emit, modify, Date_now, gets.
  cbn [and_then keeps]. split; [|intros st'; apply unchanged_refl].
  unfold unchanged; simpl. by rewrite pushes_snoc, app_nil_r.
Qed.

Lemma attempt_keeps slug st : keeps unchanged st (EventLoop.attempt slug st).
Proof.
  unfold EventLoop.attempt, mbind, Async_bind.
  apply keeps_and_then; [apply fetch_keeps|]. intros response st1.
  destruct (negb _).
  { apply keeps_sync. intros r st' [= <- <-]. apply unchanged_refl. }
  apply keeps_and_then.
  { unfold EventLoop.response_text, mbind, Async_bind, await. cbn [and_then keeps].
    split; [apply unchanged_refl|]. intros st'. apply keeps_sync.
    intros r st'' [= <- <-]. apply unchanged_refl. }
  intros markdown st2. apply keeps_and_then.
  { apply keeps_sync. intros r st' [= <- <-]. apply unchanged_refl. }
  intros [marked_parse|] st3.
  2:{ apply keeps_sync. intros r st' [= <- <-]. apply unchanged_refl. }
  apply keeps_and_then.
  { apply keeps_sync. intros r st' [= <- <-]. apply unchanged_refl. }
  intros html st4. apply keeps_and_then.
  { apply keeps_sync. intros r st' [= <- <-]. apply (unchanged_remembered slug html). }
  intros [] st5. apply keeps_and_then.
  { apply keeps_sync. intros r st'. rewrite saveToCache_run. intros [= <- <-].
    apply unchanged_stored. }
  intros [] st6. apply unchanged_refl.
Qed.

Lemma retry_loop_keeps fuel : ∀ slug retries i st,
  keeps unchanged st (EventLoop.retry_loop fuel slug retries i st).
Proof.
  induction fuel as [|fuel IH]; intros slug retries i st; [apply unchanged_refl|].
  cbn [EventLoop.retry_loop]. destruct (negb _); [apply unchanged_refl|].
  unfold try_await. apply keeps_or_catch; [apply attempt_keeps|].
  intros e st1. destruct (_ =? _)%nat; [apply unchanged_refl|].
  unfold mbind, Async_bind. apply keeps_and_then; [apply sleep_keeps|].
  intros [] st2. apply IH.
Qed.

Lemma loadPost_keeps slug retries st : keeps unchanged st (EventLoop.loadPost slug retries st).
Proof.
  unfold EventLoop.loadPost, mbind, Async_bind.
  apply keeps_and_then.
  { apply keeps_sync. intros r st' [= <- <-]. apply unchanged_refl. }
  intros memory st1. destruct (memory !! slug); [apply unchanged_refl|].
  apply keeps_and_then.
  { apply keeps_sync. intros r st' H.
    destruct (getFromCache_frame slug st1) as (o & st2 & H2 & Hu & _).
    rewrite H2 in H. by injection H as <- <-. }
  intros [data|] st2; [|apply retry_loop_keeps].
  destruct (truthy_string data); [|apply retry_loop_keeps].
  apply keeps_and_then.
  { apply keeps_sync. intros r st' [= <- <-]. apply (unchanged_remembered slug data). }
  intros [] st3. apply unchanged_refl.
Qed.

Lemma renderPost_keeps slug st : keeps unchanged st (EventLoop.renderPost slug st).
Proof.
  unfold EventLoop.renderPost, mbind, Async_bind.
  apply keeps_and_then.
  { apply keeps_sync. intros r st' [= <- <-]. apply unchanged_refl. }
  intros ps st1. apply keeps_and_then.
  { apply keeps_sync. intros r st' [= <- <-]. apply unchanged_refl. }
  intros first st2. apply keeps_and_then.
  { destruct first; [apply unchanged_refl|].
    apply keeps_and_then.
    - apply keeps_sync. intros r st' [= <- <-]. apply unchanged_refl.
    - intros all st3. apply keeps_sync. intros r st' [= <- <-]. apply unchanged_refl. }
  intros [p|] st3; [|apply unchanged_refl].
  apply keeps_and_then; [apply loadPost_keeps|].
  intros content st4. apply unchanged_refl.
Qed.

Lemma renderPostsList_keeps st : keeps unchanged st (sync renderPostsList st).
Proof.
  apply keeps_sync. intros r st'. rewrite renderPostsList_run.
  destruct (read_cards _); intros [= <- <-]; apply unchanged_refl.
Qed.

Lemma view_content_keeps st : keeps unchanged st (EventLoop.view_content st).
Proof.
  unfold EventLoop.view_content, mbind, Async_bind.
  apply keeps_and_then.
  { apply keeps_sync. intros r st' [= <- <-]. apply unchanged_refl. }
  intros view st1.
  repeat case_bool_decide; try apply renderPostsList_keeps; try apply unchanged_refl.
  apply keeps_and_then.
  { apply keeps_sync. intros r st' [= <- <-]. apply unchanged_refl. }
  intros slug st2. apply renderPost_keeps.
Qed.

(** A call of [render] shows the loading indicator and goes on to the
    switch on the view. *)
Lemma render_begins st :
  EventLoop.render st = EventLoop.view_content (set_loadingHidden false st).
Proof. reflexivity. Qed.

(** *** The event loop *)

Lemma same_navigation_refl st : same_navigation st st.
Proof. by unfold same_navigation. Qed.

(** The callbacks of a frame leave the navigation state alone, and the
    page shows the content of the last one. *)
Lemma frameCallbacks_run frames : ∀ st,
  let st' := foldl (λ st content, snd (EventLoop.frameCallback content st)) st frames in
  same_navigation st st'
  ∧ match last frames with
    | Some content => appHtml st' = content ∧ loadingHidden st' = true
    | None => st' = st
    end.
Proof.
  induction frames as [|c frames IH] using rev_ind; intros st; [by split|].
  cbv zeta. rewrite foldl_snoc, last_snoc.
  destruct (IH st) as [Hn _]. split; [|done].
  eapply same_navigation_trans; [exact Hn|]. by unfold same_navigation.
Qed.

Lemma proceed_render (l : EventLoop.Loop) st1 :
  let l' := EventLoop.proceed None (EventLoop.view_content st1)
              (EventLoop.mkLoop st1 (EventLoop.inFlight l) (EventLoop.frameCallbacks l)) in
  unchanged st1 (EventLoop.blog l')
  ∧ (EventLoop.tame l → EventLoop.tame l')
  ∧ (currentView st1 = lit "home" → read_cards (posts st1) = Ok tt →
       l' = EventLoop.mkLoop st1 (EventLoop.inFlight l)
              (EventLoop.frameCallbacks l ++ [PostsList (posts st1)])).
Proof.
  cbv zeta. split_and!.
  - pose proof (view_content_keeps st1) as Hk.
    destruct (EventLoop.view_content st1) as [[c|e] st'|on st' rest]; simpl in *; try done.
    by destruct Hk.
  - intros Ht. pose proof (view_content_keeps st1) as Hk. unfold EventLoop.tame in *.
    destruct (EventLoop.view_content st1) as [[c|e] st'|on st' rest]; simpl in *; try done.
    apply Forall_app. split; [done|]. apply Forall_singleton. simpl. by destruct Hk.
  - intros Hv Hc. unfold EventLoop.view_content, mbind, Async_bind, sync, gets.
    cbn [and_then]. rewrite Hv, bool_decide_eq_true_2 by done.
    by rewrite renderPostsList_run, Hc.
Qed.

Lemma on_blog_updatePageMeta (l : EventLoop.Loop) :
  snd (EventLoop.on_blog updatePageMeta l) = l.
Proof.
  unfold EventLoop.on_blog. destruct (updatePageMeta_state (EventLoop.blog l)) as [r Hr].
  rewrite Hr. by destruct l.
Qed.

(** The listener of [popstate] sets the pair of the entry and calls
    [render]. *)
Lemma onPopState_run s (l : EventLoop.Loop) :
  snd (EventLoop.dispatch (EventLoop.onPopState (Some s)) l)
  = EventLoop.proceed None
      (EventLoop.render (set_currentSlug (nav_slug s) (set_currentView (nav_view s)
                                                         (EventLoop.blog l))))
      (EventLoop.mkLoop
         (set_currentSlug (nav_slug s) (set_currentView (nav_view s) (EventLoop.blog l)))
         (EventLoop.inFlight l) (EventLoop.frameCallbacks l)).
Proof.
  unfold EventLoop.dispatch, EventLoop.onPopState, mbind, EventLoop.Listener_bind.
  unfold EventLoop.on_blog at 1 2. unfold modify. cbn [EventLoop.blog EventLoop.inFlight
    EventLoop.frameCallbacks].
  unfold EventLoop.call_render. cbn [EventLoop.blog].
  match goal with
  | |- context [EventLoop.on_blog updatePageMeta ?x] =>
    pose proof (on_blog_updatePageMeta x) as H;
    destruct (EventLoop.on_blog updatePageMeta x) as [[[]|e] l']
  end; exact H.
Qed.

Lemma back_run j s (l : EventLoop.Loop) :
  historyIndex (EventLoop.blog l) = S j →
  history (EventLoop.blog l) !! j = Some (Some s) →
  EventLoop.turn EventLoop.BackButton l
  = snd (EventLoop.dispatch (EventLoop.onPopState (Some s))
           (EventLoop.mkLoop (set_historyIndex j (EventLoop.blog l))
              (EventLoop.inFlight l) (EventLoop.frameCallbacks l))).
Proof.
  intros Hi Hh. unfold EventLoop.turn, EventLoop.history_back, mbind, EventLoop.Listener_bind.
  unfold EventLoop.on_blog at 1. unfold gets. rewrite Hi.
  unfold EventLoop.on_blog. unfold modify, gets.
  cbn [EventLoop.blog EventLoop.inFlight EventLoop.frameCallbacks history set_historyIndex].
  by rewrite Hh.
Qed.

(** A click that navigates sets the pair, pushes an entry for it, and
    calls [render] unless the update of the metadata throws. *)
Lemma click_run view slug (l : EventLoop.Loop) :
  ∃ st1,
    (currentView st1 = view ∧ currentSlug st1 = slug
     ∧ posts st1 = posts (EventLoop.blog l)
     ∧ history st1 = take (S (historyIndex (EventLoop.blog l)))
                       (history (EventLoop.blog l)) ++ [Some (mkNav view slug)]
     ∧ historyIndex st1 = S (historyIndex (EventLoop.blog l))
     ∧ pushes (events st1) = pushes (events (EventLoop.blog l)) ++ [mkNav view slug])
    ∧ EventLoop.turn (EventLoop.Click view slug) l
      = match fst (updatePageMeta st1) with
        | Ok _ =>
          EventLoop.proceed None (EventLoop.view_content (set_loadingHidden false st1))
            (EventLoop.mkLoop (set_loadingHidden false st1) (EventLoop.inFlight l)
               (EventLoop.frameCallbacks l))
        | Throw _ =>
          EventLoop.mkLoop st1 (EventLoop.inFlight l) (EventLoop.frameCallbacks l)
        end.
Proof.
  unfold EventLoop.turn, EventLoop.dispatch, EventLoop.navigateTo, mbind, EventLoop.Listener_bind.
  unfold EventLoop.on_blog at 1 2 3. unfold history_pushState, emit, mbind, Js_bind, modify.
  cbn [EventLoop.blog EventLoop.inFlight EventLoop.frameCallbacks].
  match goal with
  | |- context [EventLoop.on_blog updatePageMeta (EventLoop.mkLoop ?s _ _)] => set (st1 := s)
  end.
  exists st1. split.
  { subst st1. simpl. rewrite pushes_snoc. by split_and!. }
  clearbody st1.
  unfold EventLoop.on_blog. cbn [EventLoop.blog EventLoop.inFlight EventLoop.frameCallbacks].
  destruct (updatePageMeta st1) as [[[]|e] st1'] eqn:Hm;
    destruct (updatePageMeta_state st1) as [r Hr]; rewrite Hm in Hr; injection Hr as _ ->.
  - unfold EventLoop.call_render. cbn [fst snd EventLoop.blog]. rewrite render_begins.
    by destruct (EventLoop.view_content _) as [[c|e] st'|on st' rest].
  - done.
Qed.

Lemma click_turn view slug (l : EventLoop.Loop) :
  EventLoop.tame l →
  let l' := EventLoop.turn (EventLoop.Click view slug) l in
  EventLoop.tame l'
  ∧ currentView (EventLoop.blog l') = view ∧ currentSlug (EventLoop.blog l') = slug
  ∧ posts (EventLoop.blog l') = posts (EventLoop.blog l)
  ∧ history (EventLoop.blog l')
    = take (S (historyIndex (EventLoop.blog l))) (history (EventLoop.blog l))
        ++ [Some (mkNav view slug)]
  ∧ historyIndex (EventLoop.blog l') = S (historyIndex (EventLoop.blog l))
  ∧ pushes (events (EventLoop.blog l'))
    = pushes (events (EventLoop.blog l)) ++ [mkNav view slug]
  ∧ (view = lit "home" → slug = None → read_cards (posts (EventLoop.blog l)) = Ok tt →
       EventLoop.inFlight l' = EventLoop.inFlight l
       ∧ EventLoop.frameCallbacks l'
         = EventLoop.frameCallbacks l ++ [PostsList (posts (EventLoop.blog l))]).
Proof.
  intros Ht. cbv zeta.
  destruct (click_run view slug l) as (st1 & (Hv & Hs & Hp & Hh & Hi & He) & ->).
  destruct (updatePageMeta st1) as [[[]|e] st1'] eqn:Hm; cbn [fst].
  - destruct (proceed_render l (set_loadingHidden false st1)) as (Hu & Htame & Hhome).
    cbv zeta in Hu, Htame, Hhome. unfold unchanged in Hu. destruct_and!.
    cbn [posts currentView currentSlug history historyIndex events set_loadingHidden] in *.
    split_and!; try congruence; [by apply Htame|].
    intros -> -> Hc. rewrite Hhome; [|done|simpl; congruence].
    cbn [EventLoop.inFlight EventLoop.frameCallbacks posts set_loadingHidden].
    split; [done|]. by rewrite Hp.
  - cbn [EventLoop.blog EventLoop.inFlight EventLoop.frameCallbacks].
    split_and!; try done. intros -> -> _. rewrite updatePageMeta_home in Hm; done.
Qed.

(** What the browser does by itself leaves the navigation state alone. *)
Lemma background_turn t (l : EventLoop.Loop) :
  EventLoop.background t →
  EventLoop.tame l →
  EventLoop.tame (EventLoop.turn t l)
  ∧ same_navigation (EventLoop.blog l) (EventLoop.blog (EventLoop.turn t l)).
Proof.
  intros Hb Ht. destruct t as [view slug| |k|ms|]; try done; cbn [EventLoop.turn].
  - unfold EventLoop.resume.
    destruct (EventLoop.inFlight l !! k) as [[on rest]|] eqn:Hk;
      [|split; [done|apply same_navigation_refl]].
    destruct (EventLoop.ready on (EventLoop.blog l));
      [|split; [done|apply same_navigation_refl]].
    pose proof (Forall_lookup_1 _ _ _ _ Ht Hk (EventLoop.blog l)) as Hkeeps.
    cbn [snd] in Hkeeps. unfold EventLoop.tame in *.
    destruct (rest (EventLoop.blog l)) as [[c|e] st'|on' st' rest']; simpl in *.
    + split; [by apply Forall_delete|by apply unchanged_same_navigation].
    + split; [by apply Forall_delete|by apply unchanged_same_navigation].
    + destruct Hkeeps as [Hu Hrest].
      split; [by apply Forall_insert|by apply unchanged_same_navigation].
  - destruct (0 <=? ms)%Z; (split; [done|]); by unfold same_navigation.
  - unfold EventLoop.animationFrame. split; [done|].
    apply (frameCallbacks_run (EventLoop.frameCallbacks l) (EventLoop.blog l)).
Qed.

Lemma turns_app ts1 ts2 (l : EventLoop.Loop) :
  EventLoop.turns (ts1 ++ ts2) l = EventLoop.turns ts2 (EventLoop.turns ts1 l).
Proof. unfold EventLoop.turns. apply foldl_app. Qed.

Lemma background_turns ts : ∀ l : EventLoop.Loop,
  Forall EventLoop.background ts →
  EventLoop.tame l →
  EventLoop.tame (EventLoop.turns ts l)
  ∧ same_navigation (EventLoop.blog l) (EventLoop.blog (EventLoop.turns ts l)).
Proof.
  induction ts as [|t ts IH]; intros l Hb Ht; [split; [done|apply same_navigation_refl]|].
  apply Forall_cons in Hb as [Hb Hbs].
  destruct (background_turn t l Hb Ht) as [Ht1 Hn1].
  destruct (IH (EventLoop.turn t l) Hbs Ht1) as [Ht2 Hn2].
  split; [exact Ht2|]. eapply same_navigation_trans; [exact Hn1|exact Hn2].
Qed.

(** While no call of [render] is suspended, what the browser does by
    itself is to let time pass and to run the registered callbacks: the
    page stays as it is until a frame comes, and then shows the content of
    the callback that was registered last. *)
Lemma quiet_turns ts : ∀ l : EventLoop.Loop,
  Forall EventLoop.background ts →
  EventLoop.inFlight l = [] →
  EventLoop.inFlight (EventLoop.turns ts l) = []
  ∧ (EventLoop.frameCallbacks (EventLoop.turns ts l) = EventLoop.frameCallbacks l
     ∧ appHtml (EventLoop.blog (EventLoop.turns ts l)) = appHtml (EventLoop.blog l)
     ∧ loadingHidden (EventLoop.blog (EventLoop.turns ts l)) = loadingHidden (EventLoop.blog l)
     ∨ EventLoop.frameCallbacks (EventLoop.turns ts l) = []
       ∧ match last (EventLoop.frameCallbacks l) with
         | Some content =>
           appHtml (EventLoop.blog (EventLoop.turns ts l)) = content
           ∧ loadingHidden (EventLoop.blog (EventLoop.turns ts l)) = true
         | None =>
           appHtml (EventLoop.blog (EventLoop.turns ts l)) = appHtml (EventLoop.blog l)
           ∧ loadingHidden (EventLoop.blog (EventLoop.turns ts l))
             = loadingHidden (EventLoop.blog l)
         end).
Proof.
  induction ts as [|t ts IH]; intros l Hb Hq; [split; [done|by left]|].
  apply Forall_cons in Hb as [Hb Hbs].
  change (EventLoop.turns (t :: ts) l) with (EventLoop.turns ts (EventLoop.turn t l)).
  assert (Hstep : EventLoop.inFlight (EventLoop.turn t l) = []
    ∧ (EventLoop.frameCallbacks (EventLoop.turn t l) = EventLoop.frameCallbacks l
       ∧ appHtml (EventLoop.blog (EventLoop.turn t l)) = appHtml (EventLoop.blog l)
       ∧ loadingHidden (EventLoop.blog (EventLoop.turn t l)) = loadingHidden (EventLoop.blog l)
       ∨ EventLoop.frameCallbacks (EventLoop.turn t l) = []
         ∧ match last (EventLoop.frameCallbacks l) with
           | Some content =>
             appHtml (EventLoop.blog (EventLoop.turn t l)) = content
             ∧ loadingHidden (EventLoop.blog (EventLoop.turn t l)) = true
           | None =>
             appHtml (EventLoop.blog (EventLoop.turn t l)) = appHtml (EventLoop.blog l)
             ∧ loadingHidden (EventLoop.blog (EventLoop.turn t l))
               = loadingHidden (EventLoop.blog l)
           end)).
  { destruct t as [view slug| |k|ms|]; try done; cbn [EventLoop.turn].
    - unfold EventLoop.resume. rewrite Hq. cbn. split; [done|by left].
    - destruct (0 <=? ms)%Z; (split; [done|by left]).
    - unfold EventLoop.animationFrame. cbn [EventLoop.inFlight EventLoop.frameCallbacks
        EventLoop.blog]. split; [done|]. right. split; [done|].
      destruct (frameCallbacks_run (EventLoop.frameCallbacks l) (EventLoop.blog l)) as [_ H].
      cbv zeta in H. destruct (last (EventLoop.frameCallbacks l)); [done|]. by rewrite H. }
  destruct Hstep as [Hq1 Hstep].
  destruct (IH (EventLoop.turn t l) Hbs Hq1) as [Hq2 Hrest]. split; [exact Hq2|].
  destruct Hstep as [(Hf1 & Ha1 & Hl1)|[Hf1 Hp1]], Hrest as [(Hf2 & Ha2 & Hl2)|[Hf2 Hp2]].
  - left. split_and!; congruence.
  - right. split; [done|]. rewrite Hf1, Ha1, Hl1 in Hp2. exact Hp2.
  - right. split; [congruence|]. rewrite Ha2, Hl2. exact Hp1.
  - right. split; [done|]. rewrite Hf1 in Hp2. cbn [last] in Hp2.
    destruct Hp2 as [-> ->]. exact Hp1.
Qed.

(** The suspended calls of a page that was idle once are calls of
    [render]: every turn keeps them tame. *)
Lemma turns_tame ts : ∀ l : EventLoop.Loop,
  EventLoop.tame l → EventLoop.tame (EventLoop.turns ts l).
Proof.
  induction ts as [|t ts IH]; intros l Ht; [done|].
  apply (IH (EventLoop.turn t l)).
  destruct t as [view slug| |k|ms|].
  - by apply click_turn.
  - cbn [EventLoop.turn]. unfold EventLoop.history_back, mbind, EventLoop.Listener_bind.
    unfold EventLoop.on_blog at 1. unfold gets.
    destruct (historyIndex (EventLoop.blog l)) as [|j]; [done|].
    unfold EventLoop.on_blog. unfold modify, gets.
    cbn [EventLoop.blog EventLoop.inFlight EventLoop.frameCallbacks history set_historyIndex].
    destruct (default None (history (EventLoop.blog l) !! j)) as [s|]; [|done].
    rewrite onPopState_run, render_begins.
    cbn [EventLoop.blog EventLoop.inFlight EventLoop.frameCallbacks].
    match goal with
    | |- EventLoop.tame (EventLoop.proceed None (EventLoop.view_content ?s) _) =>
      destruct (proceed_render l s) as (_ & Htame & _)
    end.
    cbv zeta in Htame. apply Htame in Ht.
    by destruct (EventLoop.view_content _) as [[c|e] st'|on st' rest].
  - by apply background_turn.
  - by apply background_turn.
  - by apply background_turn.
Qed.

(** C7 (amended). In any state of the page, the listener of [popstate]
    puts the pair of a pushed entry back as it is, pushes nothing, and
    calls [render], which shows the loading indicator. On a page whose
    suspended calls are calls of [render], home, then a post, then the
    back button leaves the home view current and, once the callbacks have
    run, the listing on the page, with the two entries pushed on the way
    and no other, provided that no call of [render] is suspended any more
    when the back button is pressed: the post has been loaded, or has
    failed to load, by then. *)
Theorem popstate_restores :
  (∀ (l : EventLoop.Loop) s,
     let st0 := set_currentSlug (nav_slug s) (set_currentView (nav_view s)
                                                (EventLoop.blog l)) in
     let l' := snd (EventLoop.dispatch (EventLoop.onPopState (Some s)) l) in
     l' = EventLoop.proceed None (EventLoop.render st0)
            (EventLoop.mkLoop st0 (EventLoop.inFlight l) (EventLoop.frameCallbacks l))
     ∧ currentView (EventLoop.blog l') = nav_view s
     ∧ currentSlug (EventLoop.blog l') = nav_slug s
     ∧ history (EventLoop.blog l') = history (EventLoop.blog l)
     ∧ historyIndex (EventLoop.blog l') = historyIndex (EventLoop.blog l)
     ∧ pushes (events (EventLoop.blog l')) = pushes (events (EventLoop.blog l))
     ∧ loadingHidden (EventLoop.blog l') = false)
  ∧ (∀ (l : EventLoop.Loop) a during after,
       EventLoop.tame l →
       read_cards (posts (EventLoop.blog l)) = Ok tt →
       history_ok (EventLoop.blog l) →
       Forall EventLoop.background during →
       Forall EventLoop.background after →
       EventLoop.inFlight
         (EventLoop.turns
            ([EventLoop.Click (lit "home") None; EventLoop.Click (lit "post") (Some a)]
               ++ during)
            l) = [] →
       let l' := EventLoop.turns (EventLoop.home_post_back a during after) l in
       currentView (EventLoop.blog l') = lit "home"
       ∧ currentSlug (EventLoop.blog l') = None
       ∧ history (EventLoop.blog l')
         = take (S (historyIndex (EventLoop.blog l))) (history (EventLoop.blog l))
             ++ [Some (mkNav (lit "home") None); Some (mkNav (lit "post") (Some a))]
       ∧ historyIndex (EventLoop.blog l') = S (historyIndex (EventLoop.blog l))
       ∧ pushes (events (EventLoop.blog l'))
         = pushes (events (EventLoop.blog l))
             ++ [mkNav (lit "home") None; mkNav (lit "post") (Some a)]
       ∧ EventLoop.inFlight l' = []
       ∧ (EventLoop.frameCallbacks l' = [] →
            appHtml (EventLoop.blog l') = PostsList (posts (EventLoop.blog l))
            ∧ loadingHidden (EventLoop.blog l') = true)
       ∧ EventLoop.back_shows_listing a during after l).
Proof.
  split.
  - intros l s st0 l'. subst l'. rewrite onPopState_run. fold st0.
    split; [done|]. rewrite render_begins.
    destruct (proceed_render l (set_loadingHidden false st0)) as (Hu & _ & _).
    cbv zeta in Hu.
    match goal with
    | |- context [EventLoop.proceed None ?o ?x] =>
      assert (Heq : EventLoop.blog (EventLoop.proceed None o x)
                    = EventLoop.blog
                        (EventLoop.proceed None o
                           (EventLoop.mkLoop (set_loadingHidden false st0)
                              (EventLoop.inFlight l) (EventLoop.frameCallbacks l))))
    end.
    { by destruct (EventLoop.view_content _) as [[c|e] st'|on st' rest]. }
    rewrite Heq. unfold unchanged in Hu. destruct_and!. subst st0.
    cbn [currentView currentSlug history historyIndex events loadingHidden
         set_loadingHidden set_currentSlug set_currentView] in *.
    by split_and!.
  - intros l a during after Ht0 Hcards Hidx Hduring Hafter Hquiet.
    set (st := EventLoop.blog l) in *.
    set (home := mkNav (lit "home") None). set (post := mkNav (lit "post") (Some a)).
    assert (Hfacts :
      let l' := EventLoop.turns (EventLoop.home_post_back a during after) l in
      currentView (EventLoop.blog l') = lit "home"
      ∧ currentSlug (EventLoop.blog l') = None
      ∧ history (EventLoop.blog l')
        = take (S (historyIndex st)) (history st) ++ [Some home; Some post]
      ∧ historyIndex (EventLoop.blog l') = S (historyIndex st)
      ∧ pushes (events (EventLoop.blog l')) = pushes (events st) ++ [home; post]
      ∧ EventLoop.inFlight l' = []
      ∧ (EventLoop.frameCallbacks l' = [] →
           appHtml (EventLoop.blog l') = PostsList (posts st)
           ∧ loadingHidden (EventLoop.blog l') = true)).
    { cbv zeta. unfold EventLoop.home_post_back.
      rewrite app_assoc, turns_app.
      match goal with
      | |- context [EventLoop.turns ([EventLoop.BackButton] ++ after) ?x] =>
        change (EventLoop.turns ([EventLoop.BackButton] ++ after) x)
          with (EventLoop.turns after (EventLoop.turn EventLoop.BackButton x))
      end.
      set (l3 := EventLoop.turns
                   ([EventLoop.Click (lit "home") None;
                     EventLoop.Click (lit "post") (Some a)] ++ during)
                   l) in *.
      destruct (click_turn (lit "home") None l Ht0)
        as (Ht1 & _ & _ & Hp1 & Hh1 & Hi1 & He1 & _).
      cbv zeta in Ht1, Hp1, Hh1, Hi1, He1.
      set (l1 := EventLoop.turn (EventLoop.Click (lit "home") None) l) in *.
      fold st in Hp1, Hh1, Hi1, He1.
      destruct (click_turn (lit "post") (Some a) l1 Ht1)
        as (Ht2 & _ & _ & Hp2 & Hh2 & Hi2 & He2 & _).
      cbv zeta in Ht2, Hp2, Hh2, Hi2, He2.
      set (l2 := EventLoop.turn (EventLoop.Click (lit "post") (Some a)) l1) in *.
      destruct (background_turns during l2 Hduring Ht2) as [Ht3 Hn3].
      assert (Hl3 : l3 = EventLoop.turns during l2).
      { subst l3 l2 l1. by rewrite turns_app. }
      rewrite <- Hl3 in Ht3, Hn3. clear Hl3.
      assert (Hlen : length (take (S (historyIndex st)) (history st)) = S (historyIndex st)).
      { rewrite length_take. unfold history_ok in Hidx. lia. }
      assert (Hh2' : history (EventLoop.blog l2)
                     = take (S (historyIndex st)) (history st) ++ [Some home; Some post]).
      { rewrite Hh2, Hi1, Hh1, take_ge.
        - by rewrite <- app_assoc.
        - rewrite length_app, Hlen. simpl. lia. }
      unfold same_navigation in Hn3. destruct Hn3 as (Hp3 & _ & _ & _ & Hh3 & Hi3 & He3).
      assert (Hback : EventLoop.turn EventLoop.BackButton l3
                      = EventLoop.mkLoop
                          (set_loadingHidden false
                             (set_currentSlug None
                                (set_currentView (lit "home")
                                   (set_historyIndex (S (historyIndex st))
                                      (EventLoop.blog l3)))))
                          []
                          (EventLoop.frameCallbacks l3 ++ [PostsList (posts st)])).
      { rewrite (back_run (S (historyIndex st)) home l3).
        - rewrite onPopState_run, render_begins.
          cbn [EventLoop.blog EventLoop.inFlight EventLoop.frameCallbacks nav_view nav_slug
               home].
          match goal with
          | |- EventLoop.proceed None (EventLoop.view_content ?s) _ = _ =>
            destruct (proceed_render l3 s) as (_ & _ & Hhome)
          end.
          cbv zeta in Hhome.
          match goal with
          | |- EventLoop.proceed None ?o ?x = _ =>
            assert (Heq : EventLoop.proceed None o x
                          = EventLoop.proceed None o
                              (EventLoop.mkLoop
                                 (set_loadingHidden false
                                    (set_currentSlug None
                                       (set_currentView (lit "home")
                                          (set_historyIndex (S (historyIndex st))
                                             (EventLoop.blog l3)))))
                                 (EventLoop.inFlight l3) (EventLoop.frameCallbacks l3)))
          end.
          { by destruct (EventLoop.view_content _) as [[c|e] st'|on st' rest]. }
          rewrite Heq, Hhome; [|done|simpl; congruence].
          rewrite Hquiet. simpl posts. by rewrite Hp3, Hp2, Hp1.
        - congruence.
        - rewrite Hh3, Hh2'. rewrite lookup_app_r by lia.
          rewrite Hlen, Nat.sub_diag. reflexivity. }
      rewrite Hback.
      match goal with
      | |- context [EventLoop.turns after ?x] => set (l4 := x)
      end.
      assert (Ht4 : EventLoop.tame l4) by apply Forall_nil_2.
      destruct (background_turns after l4 Hafter Ht4) as [_ Hn5].
      destruct (quiet_turns after l4 Hafter eq_refl) as [Hq5 Hpage].
      unfold same_navigation in Hn5. destruct Hn5 as (_ & _ & Hv5 & Hs5 & Hh5 & Hi5 & He5).
      subst l4.
      cbn [EventLoop.blog EventLoop.frameCallbacks currentView currentSlug history
           historyIndex events appHtml loadingHidden set_loadingHidden set_currentSlug
           set_currentView set_historyIndex] in *.
      split_and!; try congruence.
      + rewrite He5, He3, He2, He1. by rewrite <- app_assoc.
      + intros Hnone. destruct Hpage as [(Hf & _ & _)|[_ Hlast]].
        * rewrite Hnone in Hf. symmetry in Hf. by apply app_nil in Hf as [_ ?].
        * by rewrite last_snoc in Hlast. }
    cbv zeta in *. destruct Hfacts as (H1 & H2 & H3 & H4 & H5 & H6 & H7).
    split_and!; try done.
    unfold EventLoop.back_shows_listing. cbv zeta. intros _ Hnone.
    split; [exact H1|]. by apply H7.
Qed.

Lemma popstate_restores_witness :
  let l' := EventLoop.turns
              (EventLoop.home_post_back (lit "hi")
                 [EventLoop.Resume 0; EventLoop.Resume 0; EventLoop.Frame] [EventLoop.Frame])
              (EventLoop.idle online) in
  currentView (EventLoop.blog l') = lit "home"
  ∧ currentSlug (EventLoop.blog l') = None
  ∧ historyIndex (EventLoop.blog l') = 1%nat
  ∧ appHtml (EventLoop.blog l') = PostsList (posts online)
  ∧ loadingHidden (EventLoop.blog l') = true.
Proof.
  destruct popstate_restores as [_ Hback].
  destruct (Hback (EventLoop.idle online) (lit "hi")
              [EventLoop.Resume 0; EventLoop.Resume 0; EventLoop.Frame] [EventLoop.Frame])
    as (Hv & Hs & _ & Hi & _ & _ & Hpage & _).
  - apply Forall_nil_2.
  - vm_compute. reflexivity.
  - unfold history_ok. vm_compute. lia.
  - repeat constructor.
  - repeat constructor.
  - vm_compute. reflexivity.
  - cbv zeta. split_and!; [exact Hv|exact Hs|exact Hi| |]; apply Hpage; vm_compute; reflexivity.
Defined.

(** C7 as stated fails: with the back button pressed while the post [hi]
    is still being fetched, the listing is shown in the next frame, but
    the call of [render] for the post goes on when the response arrives
    and registers its callback after that of the listing; once everything
    has run, home is the current view and the page shows the post. *)
Lemma back_during_load_counterexample :
  EventLoop.tame (EventLoop.idle online)
  ∧ read_cards (posts online) = Ok tt
  ∧ history_ok online
  ∧ Forall EventLoop.background
      [EventLoop.Frame; EventLoop.Resume 0; EventLoop.Resume 0; EventLoop.Frame]
  ∧ (let l' := EventLoop.turns
                 (EventLoop.home_post_back (lit "hi") []
                    [EventLoop.Frame; EventLoop.Resume 0; EventLoop.Resume 0; EventLoop.Frame])
                 (EventLoop.idle online) in
     EventLoop.inFlight l' = [] ∧ EventLoop.frameCallbacks l' = []
     ∧ currentView (EventLoop.blog l') = lit "home"
     ∧ appHtml (EventLoop.blog l') = PostView hello (Some (lit "<p>hello</p>")))
  ∧ ¬ EventLoop.back_shows_listing (lit "hi") []
        [EventLoop.Frame; EventLoop.Resume 0; EventLoop.Resume 0; EventLoop.Frame]
        (EventLoop.idle online).
Proof.
  split; [apply Forall_nil_2|].
  split; [vm_compute; reflexivity|].
  split; [unfold history_ok; vm_compute; lia|].
  split; [repeat constructor|].
  split; [vm_compute; by split_and!|].
  unfold EventLoop.back_shows_listing. cbv zeta. intros H.
  destruct H as [_ H]; [vm_compute; reflexivity|vm_compute; reflexivity|].
  vm_compute in H. discriminate H.
Qed.
